(** * K-means colour quantisation ([clustering/k_means.py])

    A shallow embedding of the [KMeans] class: the numpy operations it calls
    ([np.random.choice], [np.linalg.norm], [np.argmin], boolean and integer
    array indexing, [mean], [astype]) are written out over binary64 floats,
    Python exceptions are an error result, and the process-wide random state
    of [np.random] is threaded explicitly. *)

From Stdlib Require Import ZArith Lia Floats Uint63.
From Stdlib Require Strings.Byte.
From Stdlib Require Import Sorting.Sorted.
From stdpp Require Import base list strings gmap.

Open Scope float_scope.
Open Scope nat_scope.

(** ** Python exceptions *)

Inductive exn : Type :=
  | ValueError (msg : string)
  | IndexError (msg : string)
  | UnboundLocalError (name : string).

Inductive result (A : Type) : Type :=
  | Ok (a : A)
  | Raise (e : exn).
Arguments Ok {A} a.
Arguments Raise {A} e.

Definition rbind {A B} (r : result A) (k : A -> result B) : result B :=
  match r with
  | Ok a => k a
  | Raise e => Raise e
  end.

(** ** Arrays of float64 *)

Abbreviation vec := (list float).

(** A two-dimensional array of shape [(length rows, ncols)]; the column count
    is kept apart because an array with no rows still has one. *)
Record matrix : Type := Matrix { ncols : nat; rows : list vec }.

Definition wf_matrix (a : matrix) : Prop :=
  Forall (fun r => length r = ncols a) (rows a).

(** What [np.array] builds from a list of rows, and what the centroids
    therefore are: one-dimensional when the list is empty. *)
Inductive ndarray : Type :=
  | Arr1 (xs : vec)
  | Arr2 (a : matrix).

(** [len(a)] *)
Definition len (a : matrix) : nat := length (rows a).

(** The float64 holding the integer [j] (an int stored into a float array,
    or compared with one); the conversion is exact below [2^53]. *)
Definition fl (j : nat) : float := PrimFloat.of_uint63 (Uint63.of_Z (Z.of_nat j)).

(** ** The random source

    [np.random] keeps one generator state for the whole process.  Its
    bounded draw [random_interval g m], an integer in [[0, m]], is all the
    sampling needs; the generator itself stays abstract. *)

Class RandomState (G : Type) : Type := {
  random_interval : G -> nat -> nat * G;
  random_interval_le : forall g m, fst (random_interval g m) <= m;
  seed_state : nat -> G
}.

(** The calls a run makes to the three steps of the algorithm, in order. *)
Inductive event : Type := EInit | EAssign | ERecompute.

(** Process state: the generator of [np.random] and the calls made so far. *)
Record world (G : Type) : Type := World { rng : G; calls : list event }.
Arguments World {G} rng calls.
Arguments rng {G} w.
Arguments calls {G} w.

(** Computations that read and write the process state and may raise. *)
Definition M (G A : Type) : Type := world G -> result A * world G.

Definition ret {G A} (a : A) : M G A := fun w => (Ok a, w).
Definition raise {G A} (e : exn) : M G A := fun w => (Raise e, w).
Definition bind {G A B} (m : M G A) (k : A -> M G B) : M G B :=
  fun w => match m w with
           | (Ok a, w') => k a w'
           | (Raise e, w') => (Raise e, w')
           end.
Definition lift {G A} (r : result A) : M G A := fun w => (r, w).
Definition log {G} (ev : event) : M G unit :=
  fun w => (Ok tt, World (rng w) (calls w ++ [ev])).

Notation "x <- m ;; k" := (bind m (fun x => k))
  (at level 100, m at next level, right associativity).
Notation "m ;;; k" := (bind m (fun _ => k))
  (at level 100, right associativity).

Module np.

(** [np.zeros(n)] *)
Definition zeros (n : nat) : vec := replicate n 0%float.

(** [np.array([r_0, ..., r_{k-1}])] for rows of length [c]. *)
Definition array (c : nat) (rs : list vec) : ndarray :=
  match rs with
  | [] => Arr1 []
  | _ :: _ => Arr2 (Matrix c rs)
  end.

(** Shapes [(c1,)] and [(.., c2)] broadcast when equal or when one is 1. *)
Definition broadcastable (c1 c2 : nat) : bool :=
  Nat.eqb c1 c2 || Nat.eqb c1 1 || Nat.eqb c2 1.

(** One row of [p - means]. *)
Definition sub_row (p m : vec) : vec :=
  if Nat.eqb (length p) (length m) then zip_with PrimFloat.sub p m
  else match p, m with
       | [x], _ => map (fun y => x - y)%float m
       | _, [y] => map (fun x => x - y)%float p
       | _, _ => zip_with PrimFloat.sub p m
       end.

(** [p - means] for a point [p] of shape [(c,)] and [means] of shape
    [(K, c')]. *)
Definition sub_broadcast (p : vec) (means : matrix) : result (list vec) :=
  if broadcastable (length p) (ncols means)
  then Ok (map (sub_row p) (rows means))
  else Raise (ValueError "operands could not be broadcast together").

(** [add.reduce] over one row: the running sum starts from the identity
    and takes the entries from left to right. *)
Definition sum (xs : vec) : float := fold_left PrimFloat.add xs 0%float.

(** [np.linalg.norm(x, axis=1)]: [sqrt(add.reduce(x * x, axis=1))]. *)
Definition linalg_norm_axis1 (x : list vec) : vec :=
  map (fun r => PrimFloat.sqrt (sum (map (fun v => v * v)%float r))) x.

(** The scan of [np.argmin] over floats: [mp] is the running minimum,
    [min_ind] its index; an entry replaces it when [!(x >= mp)], and a NaN
    ends the scan. *)
Fixpoint argmin_scan (mp : float) (min_ind i : nat) (xs : vec) : nat :=
  match xs with
  | [] => min_ind
  | x :: xs' =>
      if negb (mp <=? x)%float
      then if PrimFloat.is_nan x then i else argmin_scan x i (S i) xs'
      else argmin_scan mp min_ind (S i) xs'
  end.

Definition argmin (xs : vec) : result nat :=
  match xs with
  | [] => Raise (ValueError "attempt to get argmin of an empty sequence")
  | x :: xs' => Ok (if PrimFloat.is_nan x then 0 else argmin_scan x 0 1 xs')
  end.

(** [a[mask]] along axis 0 for a boolean [mask]. *)
Fixpoint select (rs : list vec) (mask : list bool) : list vec :=
  match rs, mask with
  | r :: rs', b :: mask' => if b then r :: select rs' mask' else select rs' mask'
  | _, _ => []
  end.

Definition bool_index (a : matrix) (mask : list bool) : result matrix :=
  if Nat.eqb (length mask) (len a)
  then Ok (Matrix (ncols a) (select (rows a) mask))
  else Raise (IndexError "boolean index did not match indexed array along axis 0").

(** [a.mean(axis=0)]: the column sums, accumulated row after row from
    zeros, divided by the number of rows. *)
Definition add_rows (acc r : vec) : vec := zip_with PrimFloat.add acc r.

Definition mean_axis0 (a : matrix) : vec :=
  map (fun s => s / fl (len a))%float
      (fold_left add_rows (rows a) (replicate (ncols a) 0%float)).

(** [a[idx, :]] for an integer index array [idx]. *)
Fixpoint take_rows (rs : list vec) (idx : list nat) : result (list vec) :=
  match idx with
  | [] => Ok []
  | i :: idx' =>
      match rs !! i with
      | Some r => rbind (take_rows rs idx') (fun out => Ok (r :: out))
      | None => Raise (IndexError "index is out of bounds for axis 0")
      end
  end.

Definition int_index (a : ndarray) (idx : list nat) : result matrix :=
  match a with
  | Arr1 _ => Raise (IndexError "too many indices for array")
  | Arr2 m => rbind (take_rows (rows m) idx) (fun rs => Ok (Matrix (ncols m) rs))
  end.

(** The integer part of a float, rounded towards zero. *)
Definition SF_trunc (x : spec_float) : Z :=
  match x with
  | S754_finite s m e =>
      cond_Zopp s (match e with
                   | Z0 => Zpos m
                   | Zpos _ => Zpos m * 2 ^ e
                   | Zneg p => Zpos m / 2 ^ Zpos p
                   end)%Z
  | _ => 0%Z
  end.

(** [x.astype(np.uint8)] on one entry: the integer part reduced modulo
    [2^8] (NaN and the infinities, which no label is, are sent to 0). *)
Definition astype_uint8 (x : float) : nat :=
  Z.to_nat (SF_trunc (Prim2SF x) mod 256)%Z.

Section Random.
Context {G : Type} {RS : RandomState G}.

(** [x[i], x[j] = x[j], x[i]] *)
Definition swap (x : list nat) (i j : nat) : list nat :=
  match x !! i, x !! j with
  | Some xi, Some xj => <[j := xi]> (<[i := xj]> x)
  | _, _ => x
  end.

(** The shuffle: [for i in reversed(range(1, n)): j = random_interval(i);
    swap x[i], x[j]]; called with [i = n - 1]. *)
Fixpoint shuffle (i : nat) (x : list nat) (g : G) : list nat * G :=
  match i with
  | 0 => (x, g)
  | S i' => let (j, g') := random_interval g i in
            shuffle i' (swap x i j) g'
  end.

(** [np.random.permutation(n)]: a shuffled [arange(n)]. *)
Definition random_permutation (n : nat) : M G (list nat) :=
  fun w => let (x, g') := shuffle (n - 1) (seq 0 n) (rng w) in
           (Ok x, World g' (calls w)).

(** [np.random.choice(a, size, replace=False)] for integers [a], [size]. *)
Definition random_choice (a : nat) (size : Z) : M G (list nat) :=
  if Nat.eqb a 0 && negb (Z.eqb size 0)
  then raise (ValueError "a must be greater than 0 unless no samples are taken")
  else if (Z.of_nat a <? size)%Z
  then raise (ValueError "Cannot take a larger sample than population when 'replace=False'")
  else if (size <? 0)%Z
  then raise (ValueError "negative dimensions are not allowed")
  else idx <- random_permutation a ;; ret (take (Z.to_nat size) idx).

(** [np.random.seed(s)] *)
Definition random_seed (s : nat) : M G unit :=
  fun w => (Ok tt, World (seed_state s) (calls w)).

End Random.

End np.

(** ** The [KMeans] class *)

Module KMeans.
Section Methods.
Context {G : Type} {RS : RandomState G}.

(** [self.K], as given on the command line: any integer. *)
Variable K : Z.

(** [_init_means]: [img[np.random.choice(len(img), self.K, replace=False), :]] *)
Definition _init_means (img : matrix) : M G ndarray :=
  log EInit ;;;
  idx <- np.random_choice (len img) K ;;
  m <- lift (np.int_index (Arr2 img) idx) ;;
  ret (Arr2 m).

(** The body of the loop of [_get_nearest_means] for one pixel:
    [np.argmin(np.linalg.norm(img[i] - means, axis=1))]. *)
Definition nearest_mean (p : vec) (means : ndarray) : result nat :=
  match means with
  | Arr2 m =>
      rbind (np.sub_broadcast p m) (fun d => np.argmin (np.linalg_norm_axis1 d))
  | Arr1 xs =>
      if np.broadcastable (length p) (length xs)
      then Raise (ValueError "axis 1 is out of bounds for array of dimension 1")
      else Raise (ValueError "operands could not be broadcast together")
  end.

(** [for i in range(num_pixels): labels[i] = ...], from pixel [i] on. *)
Fixpoint assign_loop (ps : list vec) (i : nat) (means : ndarray) (labels : vec)
  : result vec :=
  match ps with
  | [] => Ok labels
  | p :: ps' =>
      rbind (nearest_mean p means)
            (fun j => assign_loop ps' (S i) means (<[i := fl j]> labels))
  end.

Definition get_nearest_means (img : matrix) (means : ndarray) : result vec :=
  assign_loop (rows img) 0 means (np.zeros (len img)).

Definition _get_nearest_means (img : matrix) (means : ndarray) : M G vec :=
  log EAssign ;;; lift (get_nearest_means img means).

(** [range(self.K)] *)
Definition range_K : list nat := seq 0 (Z.to_nat K).

(** [img[labels == k].mean(axis=0)] *)
Definition centroid_of (img : matrix) (labels : vec) (k : nat) : result vec :=
  rbind (np.bool_index img (map (fun l => l =? fl k)%float labels))
        (fun a => Ok (np.mean_axis0 a)).

Fixpoint collect {A B} (f : A -> result B) (xs : list A) : result (list B) :=
  match xs with
  | [] => Ok []
  | x :: xs' => rbind (f x) (fun y => rbind (collect f xs') (fun ys => Ok (y :: ys)))
  end.

Definition get_centroids (img : matrix) (labels : vec) : result ndarray :=
  rbind (collect (centroid_of img labels) range_K)
        (fun rs => Ok (np.array (ncols img) rs)).

Definition _get_centroids (img : matrix) (labels : vec) : M G ndarray :=
  log ERecompute ;;; lift (get_centroids img labels).

(** The local variables the loop of [cluster] assigns; [labels] is unbound
    until the first pass. *)
Record locals : Type := Locals { centroids : ndarray; labels : option vec }.

(** One pass of the loop: E-step, then M-step. *)
Definition step (img : matrix) (st : locals) : M G locals :=
  labels <- _get_nearest_means img (centroids st) ;;
  new_centroids <- _get_centroids img labels ;;
  ret (Locals new_centroids (Some labels)).

(** [for _ in range(n): body] *)
Fixpoint for_range (n : nat) (body : locals -> M G locals) (st : locals)
  : M G locals :=
  match n with
  | 0 => ret st
  | S n' => st' <- body st ;; for_range n' body st'
  end.

(** What [cluster] has computed when it starts writing the image. *)
Record output : Type := Output {
  out_centroids : ndarray;
  out_labels : vec;
  image_reconstructed : matrix
}.

(** [centroids[labels.astype(np.uint8), :]] *)
Definition reconstruct (st : locals) : result output :=
  match labels st with
  | None => Raise (UnboundLocalError "labels")
  | Some ls =>
      rbind (np.int_index (centroids st) (map np.astype_uint8 ls))
            (fun im => Ok (Output (centroids st) ls im))
  end.

(** [cluster], from the loaded image to the reconstructed pixel array. *)
Definition cluster (img : matrix) (iterations : Z) : M G output :=
  c0 <- _init_means img ;;
  st <- for_range (Z.to_nat iterations) (step img) (Locals c0 None) ;;
  lift (reconstruct st).

End Methods.
End KMeans.

(** ** The specification's vocabulary

    The notions the specification states the operations with, written
    independently of the code above so that the two can be compared. *)

(** The Euclidean distance between two points. *)
Definition distance (p q : vec) : float :=
  PrimFloat.sqrt (np.sum (map (fun v => v * v)%float (np.sub_row p q))).

(** The Euclidean distances from point [p] to the centroids, in order. *)
Definition distances (p : vec) (means : matrix) : vec :=
  map (distance p) (rows means).

(** [j] is the lowest index at which [ds] is minimal. *)
Definition nearest_first (ds : vec) (j : nat) : Prop :=
  exists d, ds !! j = Some d /\
    (forall k x, ds !! k = Some x -> (d <=? x)%float = true) /\
    (forall k x, k < j -> ds !! k = Some x -> (d <? x)%float = true).

(** [j] is the index of the first NaN of [ds]. *)
Definition first_nan (ds : vec) (j : nat) : Prop :=
  exists d, ds !! j = Some d /\ PrimFloat.is_nan d = true /\
    (forall k x, k < j -> ds !! k = Some x -> PrimFloat.is_nan x = false).

(** The points assigned to cluster [k], in pixel order. *)
Definition cluster_points (img : matrix) (labels : vec) (k : nat) : list vec :=
  np.select (rows img) (map (fun l => l =? fl k)%float labels).

(** Coordinate [j] of the arithmetic mean of the points [pts]. *)
Definition mean_coord (pts : list vec) (j : nat) : float :=
  (np.sum (map (fun p => nth j p 0%float) pts) / fl (length pts))%float.

(** The centroids after [r] refinement rounds from [c0]: round [r + 1] is
    Assign on the centroids of round [r], then Recompute. *)
Fixpoint Run_centroids (K : Z) (img : matrix) (c0 : ndarray) (r : nat)
  : result ndarray :=
  match r with
  | 0 => Ok c0
  | S r' =>
      rbind (Run_centroids K img c0 r')
            (fun c => rbind (KMeans.get_nearest_means img c)
                            (fun a => KMeans.get_centroids K img a))
  end.

(** The indices [np.random.choice(n, k, replace=False)] draws from the
    generator state [g]: the first [k] entries of the shuffled [arange(n)]. *)
Definition sampled {G} {RS : RandomState G} (n k : nat) (g : G) : list nat :=
  take k (fst (np.shuffle (n - 1) (seq 0 n) g)).

(** The generator state the shuffle of [arange(n)] leaves behind. *)
Definition after_shuffle {G} {RS : RandomState G} (n : nat) (g : G) : G :=
  snd (np.shuffle (n - 1) (seq 0 n) g).

(** The shuffle with its draws given: [js] lists the [j] drawn at steps
    [i], [i - 1], ..., 1. *)
Fixpoint shuffle_with (i : nat) (js : list nat) (x : list nat) : list nat :=
  match i, js with
  | S i', j :: js' => shuffle_with i' js' (np.swap x i j)
  | _, _ => x
  end.

(** The draws the generator answers during the shuffle from step [i] on. *)
Fixpoint draws {G} {RS : RandomState G} (i : nat) (g : G) : list nat :=
  match i with
  | 0 => []
  | S i' => let (j, g') := random_interval g i in j :: draws i' g'
  end.

(** Admissible draws: one per step, that of step [i] in [[0, i]]. *)
Fixpoint admissible (i : nat) (js : list nat) : Prop :=
  match i, js with
  | 0, [] => True
  | S i', j :: js' => j <= i /\ admissible i' js'
  | _, _ => False
  end.

(** The assignment of round [r >= 1]: Assign on the centroids of round
    [r - 1]. *)
Definition Run_labels (K : Z) (img : matrix) (c0 : ndarray) (r : nat)
  : result vec :=
  rbind (Run_centroids K img c0 (r - 1))
        (fun c => KMeans.get_nearest_means img c).

(** A centroid array of the right shape: [K] rows of the image's width. *)
Definition centroid_shape (K : Z) (img : matrix) (c : ndarray) : Prop :=
  exists rs, c = Arr2 (Matrix (ncols img) rs) /\ length rs = Z.to_nat K.

(** A label array over [K] clusters: one integer below [K] per pixel. *)
Definition label_array (K : Z) (img : matrix) (a : vec) : Prop :=
  exists js, a = map fl js /\ length js = len img /\
             Forall (fun j => j < Z.to_nat K) js.

(** The calls of [n] refinement rounds. *)
Definition rounds_trace (n : nat) : list event :=
  concat (replicate n [EAssign; ERecompute]).

(** A run that, started with no call made, ends in an invalid-argument
    error without having entered a round. *)
Definition fails_before_any_round {G A} (r : result A * world G) : Prop :=
  (exists msg, fst r = Raise (ValueError msg)) /\
  Forall (fun ev => ev = EInit) (calls (snd r)).

(** A computation reads the generator and only appends to the calls: from
    equal generator states it gives equal results and equal generator
    states, whatever calls were made before. *)
Definition tracing {G A} (m : M G A) : Prop :=
  forall g, exists r g' evs, forall c, m (World g c) = (r, World g' (c ++ evs)).

(** The labels of a successful run, as integers. *)
Definition labels_of {G} (r : result KMeans.output * world G) : list nat :=
  match fst r with
  | Ok out => map np.astype_uint8 (KMeans.out_labels out)
  | Raise _ => []
  end.

(** The points of an image are separated when each is the mean of itself
    alone, is at distance zero from itself, and is at a non-zero distance
    from every other point. *)
Definition mean_of_one_exact (c : nat) (p : vec) : Prop :=
  np.mean_axis0 (Matrix c [p]) = p.

Definition self_distance_zero (p : vec) : Prop :=
  (distance p p =? 0)%float = true.

Definition apart (p q : vec) : Prop :=
  (0 <? distance p q)%float = true.

Definition separated (img : matrix) : Prop :=
  Forall (mean_of_one_exact (ncols img)) (rows img) /\
  Forall self_distance_zero (rows img) /\
  (forall i j p q, rows img !! i = Some p -> rows img !! j = Some q ->
                   i <> j -> apart p q).

(** ** A concrete random source

    A 64-bit linear congruential generator, for running the model. *)

Module Lcg.

Definition next (g : N) : N :=
  ((g * 6364136223846793005 + 1442695040888963407) mod 2 ^ 64)%N.

Definition draw (g : N) (m : nat) : nat * N :=
  let g' := next g in
  (N.to_nat ((g' / 2 ^ 33) mod N.of_nat (S m))%N, g').

#[global] Instance random_state : RandomState N.
Proof.
  refine {| random_interval := draw; seed_state := N.of_nat |}.
  intros g m. unfold draw. cbn [fst].
  pose proof (N.mod_lt (next g / 2 ^ 33) (N.of_nat (S m))). lia.
Defined.

(** The process state right after [np.random.seed(s)], no call made yet. *)
Definition seeded (s : nat) : world N := World (N.of_nat s) [].

End Lcg.

(** ** Sample inputs *)

(** Four two-channel pixels in two well separated groups. *)
Definition img_two_groups : matrix :=
  Matrix 2 [[0; 0]; [0; 1]; [10; 10]; [10; 11]]%float.

(** A single black pixel. *)
Definition img_one_pixel : matrix := Matrix 3 [[0; 0; 0]]%float.

(** Three equal one-channel pixels of grey level 51, as [_load_image]
    scales them. *)
Definition img_three_equal : matrix :=
  Matrix 1 (replicate 3 [(fl 51 / 255)%float]).

(** 257 pixels of 257 different colours, scaled as [_load_image] does. *)
Definition img_257 : matrix :=
  Matrix 3 (map (fun i => [fl (i mod 256) / 255; fl (i / 256) / 255; 0]%float)
                (seq 0 257)).



(** ** Reading and writing the image

    The rest of [cluster]: the pixel array is decoded, scaled to floats and
    flattened before the clustering, and the quantised pixels are scaled
    back to bytes and given the decoded shape afterwards. *)

(** A three-dimensional array: its shape and its entries, outermost axis
    first. *)
Record array3 (A : Type) : Type :=
  Array3 { shape3 : nat * nat * nat; planes : list (list (list A)) }.
Arguments Array3 {A} shape3 planes.
Arguments shape3 {A} a.
Arguments planes {A} a.

Definition wf_array3 {A} (a : array3 A) : Prop :=
  length (planes a) = fst (fst (shape3 a)) /\
  Forall (fun plane =>
            length plane = snd (fst (shape3 a)) /\
            Forall (fun px => length px = snd (shape3 a)) plane) (planes a).

(** What [np.asarray(Image.open(f))] is for an 8-bit image: a uint8 array
    of two dimensions (a single band) or of three. *)
Inductive decoded : Type :=
  | Decoded2 (a : list (list Byte.byte))
  | Decoded3 (a : array3 Byte.byte).

(** One entry of [np.asarray(img) / 255.] *)
Definition scale_byte (b : Byte.byte) : float := (fl (Byte.to_nat b) / 255)%float.

(** [_load_image], from the decoded array on; [w, h, c = img.shape] needs
    three dimensions.  Returns the flattened pixels and [img.shape]. *)
Definition _load_image (img : decoded) : result (matrix * (nat * nat * nat)) :=
  match img with
  | Decoded2 _ => Raise (ValueError "not enough values to unpack (expected 3, got 2)")
  | Decoded3 a =>
      Ok (Matrix (snd (shape3 a)) (map (map scale_byte) (concat (planes a))),
          shape3 a)
  end.

(** One entry of [(img * 255).astype(np.uint8)] *)
Definition unscale_byte (x : float) : Byte.byte :=
  match Byte.of_nat (np.astype_uint8 (x * 255)%float) with
  | Some b => b
  | None => Byte.x00
  end.

(** [n] consecutive pieces of [l], each [size] long. *)
Fixpoint chunks {A} (n size : nat) (l : list A) : list (list A) :=
  match n with
  | 0 => []
  | S n' => take size l :: chunks n' size (drop size l)
  end.

(** [a.reshape((w, h, c))] for a two-dimensional [a] given by its rows. *)
Definition reshape3 {A} (im_size : nat * nat * nat) (nrows width : nat)
           (rs : list (list A)) : result (array3 A) :=
  let '(w, h, c) := im_size in
  if Nat.eqb (nrows * width) (w * h * c)
  then Ok (Array3 im_size (chunks w h (chunks (w * h) c (concat rs))))
  else Raise (ValueError "cannot reshape array into the given shape").

(** [_image_from_numpy], up to the uint8 array the image is made from. *)
Definition _image_from_numpy (img : matrix) (im_size : nat * nat * nat)
  : result (array3 Byte.byte) :=
  reshape3 im_size (len img) (ncols img) (map (map unscale_byte) (rows img)).

(** [cluster] from the decoded image to the bytes of the compressed one. *)
Definition cluster_image {G} {RS : RandomState G}
           (K : Z) (img : decoded) (iterations : Z) : M G (array3 Byte.byte) :=
  loaded <- lift (_load_image img) ;;
  out <- KMeans.cluster K (fst loaded) iterations ;;
  lift (_image_from_numpy (KMeans.image_reconstructed out) (snd loaded)).

(** ** The name of the compressed file *)

(** [chr(n)] *)
Definition chr (n : nat) : Ascii.ascii := Ascii.ascii_of_nat n.

(** The full stop, [chr(46)]. *)
Definition dot : Ascii.ascii := chr 46.

(** [s.split(sep)] for a separator of one character. *)
Fixpoint split (sep : Ascii.ascii) (s : string) : list string :=
  match s with
  | EmptyString => [EmptyString]
  | String c s' =>
      if Ascii.eqb c sep then EmptyString :: split sep s'
      else match split sep s' with
           | x :: xs => String c x :: xs
           | [] => [String c EmptyString]
           end
  end.

(** [l[i]] for a Python list: negative indices count from the end. *)
Definition py_index {A} (l : list A) (i : Z) : result A :=
  let n := Z.of_nat (length l) in
  let k := if (i <? 0)%Z then (n + i)%Z else i in
  if ((0 <=? k) && (k <? n))%Z
  then match l !! Z.to_nat k with
       | Some x => Ok x
       | None => Raise (IndexError "list index out of range")
       end
  else Raise (IndexError "list index out of range").

(** [im_name = img_filename.split('.')];
    [im_name[0] + "_compressed." + im_name[-1]] *)
Definition compressed_filename (img_filename : string) : result string :=
  let im_name := split dot img_filename in
  rbind (py_index im_name 0) (fun first =>
  rbind (py_index im_name (-1)) (fun last =>
  Ok (first +:+ "_compressed." +:+ last))).

(** Does the character occur in the string? *)
Fixpoint has_char (c : Ascii.ascii) (s : string) : bool :=
  match s with
  | EmptyString => false
  | String c' s' => Ascii.eqb c' c || has_char c s'
  end.

(** A decoded image of one row of two RGB pixels. *)
Definition img_tiny : array3 Byte.byte :=
  Array3 (1, 2, 3) [[[Byte.x00; Byte.x33; Byte.xff]; [Byte.x10; Byte.x20; Byte.x30]]].

(** * Text preparation ([word_embeddings/dataloader.py])

    The functions that turn a book into an integer word array and into
    training windows.  A line of text is a string; the file is the list of
    lines [f.readlines()] returns.  A [collections.Counter] is the list of
    its items in insertion order, a [dict] from words to integers a finite
    map, an [np.int32] array the list of its entries. *)

Module dataloader.

Definition apostrophe : Ascii.ascii := chr 39.
Definition newline : Ascii.ascii := chr 10.

(** The punctuation marks of the second alternative of the pattern:
    semicolon, colon, hyphen, the two parentheses, ampersand, full stop,
    comma, exclamation mark, question mark and double quote. *)
Definition punctuation : list Ascii.ascii :=
  map chr [59; 58; 45; 40; 41; 38; 46; 44; 33; 63; 34].

(** [pat in s] *)
Fixpoint contains (pat s : string) : bool :=
  String.prefix pat s ||
  match s with
  | EmptyString => false
  | String _ s' => contains pat s'
  end.

(** [s.strip(c)] for a single character [c]. *)
Fixpoint lstrip (c : Ascii.ascii) (s : string) : string :=
  match s with
  | EmptyString => EmptyString
  | String a s' => if Ascii.eqb a c then lstrip c s' else s
  end.

Fixpoint rstrip (c : Ascii.ascii) (s : string) : string :=
  match s with
  | EmptyString => EmptyString
  | String a s' =>
      match rstrip c s' with
      | EmptyString => if Ascii.eqb a c then EmptyString else String a EmptyString
      | r => String a r
      end
  end.

Definition strip (c : Ascii.ascii) (s : string) : string := rstrip c (lstrip c s).

(** A [Counter]: its items, in the order the keys were first counted. *)
Definition counter : Type := list (string * nat).

(** [c[w] += 1] *)
Fixpoint incr (w : string) (c : counter) : counter :=
  match c with
  | [] => [(w, 1)]
  | (k, n) :: c' => if String.eqb k w then (k, S n) :: c' else (k, n) :: incr w c'
  end.

(** [c.update(ws)] for a list of words. *)
Definition update (c : counter) (ws : list string) : counter :=
  fold_left (fun c w => incr w c) ws c.

(** [c[w]]: the count of [w], 0 for a missing word. *)
Fixpoint count (c : counter) (w : string) : nat :=
  match c with
  | [] => 0
  | (k, n) :: c' => if String.eqb k w then n else count c' w
  end.

Section Text.

(** The character class [\w] and [str.lower], as the Unicode tables of the
    interpreter give them. *)
Variable is_word : Ascii.ascii -> bool.
Variable lower : string -> string.

(** A word character or an apostrophe. *)
Definition in_word (c : Ascii.ascii) : bool := is_word c || Ascii.eqb c apostrophe.

Definition in_punctuation (c : Ascii.ascii) : bool :=
  existsb (Ascii.eqb c) punctuation.

Definition starts_word (s : string) : bool :=
  match s with
  | EmptyString => false
  | String c _ => in_word c
  end.

(** [re.findall] with the pattern of [load_books], a run of word
    characters or one punctuation mark: scanning from the left, a longest
    run of word characters and apostrophes is one match, otherwise a
    punctuation mark is one, and any other character is passed over. *)
Fixpoint findall (s : string) : list string :=
  match s with
  | EmptyString => []
  | String c s' =>
      if in_word c then
        if starts_word s' then
          match findall s' with
          | t :: ts => String c t :: ts
          | [] => [String c EmptyString]
          end
        else String c EmptyString :: findall s'
      else if in_punctuation c then String c EmptyString :: findall s'
      else findall s'
  end.

(** The variables [load_books] updates while it reads. *)
Record reading : Type := Reading {
  word_counter : counter;
  word_list : list string;
  num_lines : nat;
  num_words : nat;
  in_book : bool
}.

(** [for line in f.readlines(): ...], with its [continue]s and its [break]. *)
Fixpoint read_lines (lines : list string) (st : reading) : reading :=
  match lines with
  | [] => st
  | line :: lines' =>
      if contains "*** START" line then
        read_lines lines' (Reading (word_counter st) (word_list st)
                                   (num_lines st) (num_words st) true)
      else if contains "CHAPTER" line then read_lines lines' st
      else if contains "*** END" line then st
      else if contains "Project Gutenberg" line then read_lines lines' st
      else if negb (in_book st) then read_lines lines' st
      else
        let words := findall (strip newline (lower line)) in
        read_lines lines'
          (Reading (update (word_counter st) words) (word_list st ++ words)
                   (num_lines st + 1) (num_words st + length words) (in_book st))
  end.

Definition load_books (lines : list string) : counter * list string * nat * nat :=
  let st := read_lines lines (Reading [] [] 0 0 false) in
  (word_counter st, word_list st, num_lines st, num_words st).

End Text.

(** A stable sort by an integer key: [sorted(l, key=key)] and
    [l.sort(key=key)]. *)
Fixpoint insert_by {A} (key : A -> Z) (x : A) (l : list A) : list A :=
  match l with
  | [] => [x]
  | y :: l' => if (key x <=? key y)%Z then x :: l else y :: insert_by key x l'
  end.

Definition sorted_by {A} (key : A -> Z) (l : list A) : list A :=
  foldr (insert_by key) [] l.

Definition neg_count (t : string * nat) : Z := (- Z.of_nat (snd t))%Z.

(** [c.most_common(n)]: the [n] items of highest count, highest first, items
    of equal count in the order first counted; none for [n <= 0]. *)
Definition most_common (c : counter) (n : Z) : list (string * nat) :=
  take (Z.to_nat n) (sorted_by neg_count c).

(** [enumerate(l)] *)
Definition enumerate {A} (l : list A) : list (nat * A) := zip (seq 0 (length l)) l.

Definition build_dict (word_counter : counter) (vocab_size : Z) : gmap string Z :=
  let top_words := most_common word_counter vocab_size in
  let top_words := sorted_by neg_count top_words in
  fold_left (fun dictionary '(idx, word) => <[word := Z.of_nat idx]> dictionary)
            (enumerate (map fst top_words)) ∅.

(** [np.array(l, dtype=np.int32)] for a list of Python integers: NumPy
    refuses an integer outside the range of the type. *)
Inductive converted (A : Type) : Type :=
  | Array (a : A)
  | OverflowError (msg : string).
Arguments Array {A} a.
Arguments OverflowError {A} msg.

Definition is_int32 (v : Z) : bool := ((- 2 ^ 31 <=? v) && (v <? 2 ^ 31))%Z.

Definition array_int32 (l : list Z) : converted (list Z) :=
  if forallb is_int32 l then Array l
  else OverflowError "Python integer out of bounds for int32".

Definition doc2num (word_list : list string) (dictionary : gmap string Z)
  : converted (list Z) :=
  let unknown_val := Z.of_nat (size dictionary) in
  array_int32 (map (fun word => default unknown_val (dictionary !! word)) word_list).

Definition build_word_array (is_word : Ascii.ascii -> bool) (lower : string -> string)
           (lines : list string) (vocab_size : Z)
  : converted (list Z * gmap string Z * nat * nat) :=
  let '(word_counter, word_list, num_lines, num_words) :=
    load_books is_word lower lines in
  let dictionary := build_dict word_counter vocab_size in
  match doc2num word_list dictionary with
  | Array word_array => Array (word_array, dictionary, num_lines, num_words)
  | OverflowError msg => OverflowError msg
  end.

(** [np.zeros((n, m), dtype=np.int32)] *)
Definition zeros2 (n : Z) (m : nat) : result (list (list Z)) :=
  if (n <? 0)%Z then Raise (ValueError "negative dimensions are not allowed")
  else Ok (replicate (Z.to_nat n) (replicate m 0%Z)).

(** An index [i] on an axis of length [n]: negative indices count from the
    end. *)
Definition index (n : nat) (i : Z) : result nat :=
  if ((0 <=? i) && (i <? Z.of_nat n))%Z then Ok (Z.to_nat i)
  else if ((- Z.of_nat n <=? i) && (i <? 0))%Z then Ok (Z.to_nat (i + Z.of_nat n))
  else Raise (IndexError "index is out of bounds for axis").

(** [a[i]] *)
Definition getitem (a : list Z) (i : Z) : result Z :=
  rbind (index (length a) i)
        (fun k => match a !! k with
                  | Some v => Ok v
                  | None => Raise (IndexError "index is out of bounds for axis")
                  end).

(** [a[idx]] for an integer array [idx]. *)
Definition getitems (a : list Z) (idx : list Z) : result (list Z) :=
  KMeans.collect (getitem a) idx.

(** [y[i, j] = v] *)
Definition setitem (y : list (list Z)) (i j : Z) (v : Z) : result (list (list Z)) :=
  rbind (index (length y) i)
        (fun k => match y !! k with
                  | Some r => rbind (index (length r) j)
                                    (fun c => Ok (<[k := <[c := v]> r]> y))
                  | None => Raise (IndexError "index is out of bounds for axis")
                  end).

(** [x[i, :] = row], the row having the width of [x]. *)
Definition setrow (x : list (list Z)) (i : Z) (row : list Z) : result (list (list Z)) :=
  rbind (index (length x) i) (fun k => Ok (<[k := row]> x)).

(** [range(a, b)] *)
Definition range (a b : Z) : list Z :=
  map (fun k => (a + Z.of_nat k)%Z) (seq 0 (Z.to_nat (b - a))).

(** [for i in xs: st = body(st, i)] *)
Fixpoint for_each {S} (body : S -> Z -> result S) (xs : list Z) (st : S) : result S :=
  match xs with
  | [] => Ok st
  | i :: xs' => rbind (body st i) (for_each body xs')
  end.

Definition shift : list Z := [-2; -1; 1; 2]%Z.

Definition build_training_set (word_array : list Z) (window_size : Z)
  : result (list (list Z) * list (list Z)) :=
  let num_words := Z.of_nat (length word_array) in
  rbind (zeros2 (num_words - 4) 4) (fun x =>
  rbind (zeros2 (num_words - 4) 1) (fun y =>
  for_each (fun '(x, y) idx =>
              rbind (getitem word_array idx) (fun v =>
              rbind (setitem y (idx - 2) 0 v) (fun y =>
              rbind (getitems word_array (map (Z.add idx) shift)) (fun row =>
              rbind (setrow x (idx - 2) row) (fun x =>
              Ok (x, y))))))
           (range 2 (num_words - 2)) (x, y))).

(** ASCII text: the letters, the digits and the underscore are the word
    characters, and [lower] shifts the capital letters. *)
Definition ascii_is_word (c : Ascii.ascii) : bool :=
  let n := Ascii.nat_of_ascii c in
  (48 <=? n) && (n <=? 57) || (65 <=? n) && (n <=? 90) ||
  (97 <=? n) && (n <=? 122) || (n =? 95).

Definition ascii_lower_char (c : Ascii.ascii) : Ascii.ascii :=
  let n := Ascii.nat_of_ascii c in
  if (65 <=? n) && (n <=? 90) then chr (n + 32) else c.

Fixpoint ascii_lower (s : string) : string :=
  match s with
  | EmptyString => EmptyString
  | String c s' => String (ascii_lower_char c) (ascii_lower s')
  end.

End dataloader.


(** The feature row and the target of the window of five words that starts
    at word [i]: the two words on each side of the middle one, and the
    middle one. *)
Definition features (a : list Z) (i : nat) : list Z :=
  [nth i a 0%Z; nth (i + 1) a 0%Z; nth (i + 3) a 0%Z; nth (i + 4) a 0%Z].

Definition target (a : list Z) (i : nat) : list Z := [nth (i + 2) a 0%Z].

(** What [re.findall] can return for the pattern of [load_books]: a
    non-empty run of word characters and apostrophes, or one punctuation
    mark that is not such a character. *)
Fixpoint all_chars (p : Ascii.ascii -> bool) (s : string) : bool :=
  match s with
  | EmptyString => true
  | String c s' => p c && all_chars p s'
  end.

Definition is_token (is_word : Ascii.ascii -> bool) (t : string) : Prop :=
  (t <> EmptyString /\ all_chars (dataloader.in_word is_word) t = true) \/
  (exists c, t = String c EmptyString /\ dataloader.in_punctuation c = true /\
             dataloader.in_word is_word c = false).

(** What holds of the variables of [load_books] at every point of the loop. *)
Definition consistent (is_word : Ascii.ascii -> bool) (st : dataloader.reading) : Prop :=
  dataloader.num_words st = length (dataloader.word_list st) /\
  NoDup (map fst (dataloader.word_counter st)) /\
  Forall (fun t => 1 <= snd t) (dataloader.word_counter st) /\
  (forall w, dataloader.count (dataloader.word_counter st) w =
             count_occ String.string_dec (dataloader.word_list st) w) /\
  Forall (is_token is_word) (dataloader.word_list st).

(** The order by key a stable sort establishes. *)
Definition key_le {A} (key : A -> Z) (x y : A) : Prop := (key x <= key y)%Z.

(** A line [load_books] reads as text once it is inside the book: it holds
    none of the four markers. *)
Definition plain (line : string) : bool :=
  negb (dataloader.contains "*** START" line) &&
  negb (dataloader.contains "CHAPTER" line) &&
  negb (dataloader.contains "*** END" line) &&
  negb (dataloader.contains "Project Gutenberg" line).

(** A short book. *)
Definition book : list string :=
  [ "The Project Gutenberg EBook";
    "*** START OF THIS PROJECT GUTENBERG EBOOK ***";
    "CHAPTER I";
    "The cat sat; the Cat's mat.";
    "";
    "Don't sit, cat!";
    "*** END OF THIS PROJECT GUTENBERG EBOOK ***";
    "not read any more" ].

(** Two counters: three words of different counts, and two words of equal
    count around a more frequent one. *)
Definition counts_three : dataloader.counter := [("the", 2); ("cat", 3); ("sat", 1)].

Definition counts_tie : dataloader.counter := [("the", 2); ("cat", 3); ("sat", 2)].

(** * Properties *)

(** ** Comparison of binary64 floats *)

Section FloatOrder.

Local Ltac cmp_cases :=
  repeat match goal with
    | |- context [Z.compare ?a ?b] => destruct (Z.compare_spec a b)
    | H : context [Z.compare ?a ?b] |- _ => destruct (Z.compare_spec a b)
    | |- context [Pos.compare_cont Eq ?a ?b] =>
        change (Pos.compare_cont Eq a b) with (Pos.compare a b);
        destruct (Pos.compare_spec a b)
    | H : context [Pos.compare_cont Eq ?a ?b] |- _ =>
        change (Pos.compare_cont Eq a b) with (Pos.compare a b) in H;
        destruct (Pos.compare_spec a b)
    end; simpl in *; subst; try discriminate; try lia; try reflexivity.

Local Ltac by_cases3 x y z :=
  destruct x as [[]|[]| |[] ? ?], y as [[]|[]| |[] ? ?], z as [[]|[]| |[] ? ?];
  simpl; try discriminate; try reflexivity; try congruence.

Local Ltac by_cases2 x y :=
  destruct x as [[]|[]| |[] ? ?], y as [[]|[]| |[] ? ?];
  simpl; try discriminate; try reflexivity; try congruence.

Lemma SFcompare_refl (x : spec_float) : x <> S754_nan -> SFcompare x x = Some Eq.
Proof.
  destruct x as [s|s| |s m e]; try destruct s; simpl; intros Hx;
    try congruence; rewrite Z.compare_refl;
    change (Pos.compare_cont Eq m m) with (Pos.compare m m);
    rewrite Pos.compare_refl; reflexivity.
Qed.

Lemma SFleb_trans (x y z : spec_float) :
  SFleb x y = true -> SFleb y z = true -> SFleb x z = true.
Proof. unfold SFleb. by_cases3 x y z; intros H1 H2; cmp_cases. Qed.

Lemma SFltb_leb_trans (x y z : spec_float) :
  SFltb x y = true -> SFleb y z = true -> SFltb x z = true.
Proof. unfold SFleb, SFltb. by_cases3 x y z; intros H1 H2; cmp_cases. Qed.

Lemma SFleb_false_ltb (x y : spec_float) :
  x <> S754_nan -> y <> S754_nan -> SFleb x y = false -> SFltb y x = true.
Proof. unfold SFleb, SFltb. by_cases2 x y; intros _ _ H; cmp_cases. Qed.

Lemma SFltb_leb (x y : spec_float) : SFltb x y = true -> SFleb x y = true.
Proof. unfold SFltb, SFleb. destruct (SFcompare x y) as [[]|]; congruence. Qed.

Lemma SFltb_not_leb (x y : spec_float) : SFltb x y = true -> SFleb y x = false.
Proof. unfold SFleb, SFltb. by_cases2 x y; intros H; cmp_cases. Qed.

Lemma SFeqb_leb (x y : spec_float) : SFeqb x y = true -> SFleb x y = true.
Proof. unfold SFeqb, SFleb. destruct (SFcompare x y) as [[]|]; congruence. Qed.

Lemma is_nan_Prim2SF (x : float) :
  PrimFloat.is_nan x = true <-> Prim2SF x = S754_nan.
Proof.
  unfold PrimFloat.is_nan. rewrite FloatAxioms.eqb_spec. unfold SFeqb. split.
  - intros Hn. destruct (Prim2SF x) eqn:E; try reflexivity;
      rewrite SFcompare_refl in Hn by congruence; discriminate.
  - intros ->. reflexivity.
Qed.

Lemma is_nan_false (x : float) :
  PrimFloat.is_nan x = false <-> Prim2SF x <> S754_nan.
Proof.
  rewrite <- is_nan_Prim2SF. destruct (PrimFloat.is_nan x); split; congruence.
Qed.

Lemma leb_trans (x y z : float) :
  (x <=? y)%float = true -> (y <=? z)%float = true -> (x <=? z)%float = true.
Proof. rewrite !FloatAxioms.leb_spec. apply SFleb_trans. Qed.

Lemma ltb_leb_trans (x y z : float) :
  (x <? y)%float = true -> (y <=? z)%float = true -> (x <? z)%float = true.
Proof. rewrite !FloatAxioms.ltb_spec, FloatAxioms.leb_spec. apply SFltb_leb_trans. Qed.

Lemma leb_false_ltb (x y : float) :
  PrimFloat.is_nan x = false -> PrimFloat.is_nan y = false ->
  (x <=? y)%float = false -> (y <? x)%float = true.
Proof.
  rewrite !is_nan_false, FloatAxioms.leb_spec, FloatAxioms.ltb_spec.
  apply SFleb_false_ltb.
Qed.

Lemma ltb_leb (x y : float) : (x <? y)%float = true -> (x <=? y)%float = true.
Proof. rewrite FloatAxioms.ltb_spec, FloatAxioms.leb_spec. apply SFltb_leb. Qed.

Lemma ltb_not_leb (x y : float) : (x <? y)%float = true -> (y <=? x)%float = false.
Proof. rewrite FloatAxioms.ltb_spec, FloatAxioms.leb_spec. apply SFltb_not_leb. Qed.

Lemma eqb_leb (x y : float) : (x =? y)%float = true -> (x <=? y)%float = true.
Proof. rewrite FloatAxioms.eqb_spec, FloatAxioms.leb_spec. apply SFeqb_leb. Qed.

Lemma leb_refl (x : float) : PrimFloat.is_nan x = false -> (x <=? x)%float = true.
Proof.
  rewrite is_nan_false, FloatAxioms.leb_spec. intros Hx. unfold SFleb.
  rewrite SFcompare_refl by assumption. reflexivity.
Qed.

Lemma leb_nan_l (x y : float) : PrimFloat.is_nan x = true -> (x <=? y)%float = false.
Proof. rewrite is_nan_Prim2SF, FloatAxioms.leb_spec. intros ->. reflexivity. Qed.

Lemma leb_nan_r (x y : float) : PrimFloat.is_nan y = true -> (x <=? y)%float = false.
Proof.
  rewrite is_nan_Prim2SF, FloatAxioms.leb_spec. intros ->. unfold SFleb.
  destruct (Prim2SF x); reflexivity.
Qed.

Lemma leb_not_nan (x y : float) :
  (x <=? y)%float = true -> PrimFloat.is_nan x = false /\ PrimFloat.is_nan y = false.
Proof.
  intros Hle. split.
  - destruct (PrimFloat.is_nan x) eqn:E; [|reflexivity].
    rewrite leb_nan_l in Hle by assumption. discriminate.
  - destruct (PrimFloat.is_nan y) eqn:E; [|reflexivity].
    rewrite leb_nan_r in Hle by assumption. discriminate.
Qed.

End FloatOrder.

(** ** Integers held in floats *)

Section FloatOfInt.
Open Scope Z_scope.

Lemma digits2_pos_size (p : positive) : digits2_pos p = Pos.size p.
Proof. induction p; simpl; congruence. Qed.

Lemma iter_xO_Z (p d : positive) :
  Zpos (Pos.iter xO p d) = Zpos p * 2 ^ Zpos d.
Proof.
  induction d using Pos.peano_ind.
  - simpl. lia.
  - rewrite Pos.iter_succ, Pos2Z.inj_xO, IHd, Pos2Z.inj_succ, Z.pow_succ_r by lia. lia.
Qed.

Lemma iter_xO_digits (p d : positive) :
  digits2_pos (Pos.iter xO p d) = (digits2_pos p + d)%positive.
Proof.
  induction d using Pos.peano_ind.
  - simpl. lia.
  - rewrite Pos.iter_succ. simpl. rewrite IHd. lia.
Qed.

Lemma digits2_pos_le_53 (p : positive) :
  Zpos p < 2 ^ 53 -> Zpos (digits2_pos p) <= 53.
Proof.
  intros Hp. rewrite digits2_pos_size.
  pose proof (Pos.size_le p) as Hle.
  destruct (Z_le_gt_dec (Zpos (Pos.size p)) 53) as [|Hgt]; [assumption|exfalso].
  assert (Hz : 2 ^ Zpos (Pos.size p) <= Zpos p~0).
  { rewrite <- (Pos2Z.inj_pow 2). apply Pos2Z.pos_le_pos. assumption. }
  assert (H54 : 2 ^ 54 <= 2 ^ Zpos (Pos.size p)) by (apply Z.pow_le_mono_r; lia).
  lia.
Qed.

(** A 53-bit mantissa with an exponent in range is kept as it is. *)
Lemma binary_round_aux_exact (s : bool) (m : positive) (e : Z) :
  Zpos (digits2_pos m) = 53 -> -1074 <= e <= 971 ->
  binary_round_aux prec emax s (Zpos m) e loc_Exact = S754_finite s m e.
Proof.
  intros Hd He. unfold binary_round_aux, shr_fexp, fexp, SpecFloat.emin.
  cbn [Zdigits2 shr_record_of_loc]. rewrite Hd.
  replace (Z.max (53 + e - prec) (3 - emax - prec) - e) with 0
    by (unfold prec, emax; lia).
  cbn [shr shr_m loc_of_shr_record round_nearest_even Zdigits2]. rewrite Hd.
  replace (Z.max (53 + e - prec) (3 - emax - prec) - e) with 0
    by (unfold prec, emax; lia).
  cbn [shr shr_m].
  replace (e <=? emax - prec) with true
    by (symmetry; apply Z.leb_le; unfold prec, emax; lia).
  reflexivity.
Qed.

Lemma normalize_exact (p : positive) :
  Zpos p < 2 ^ 53 ->
  exists m e, binary_normalize prec emax (Zpos p) 0 false = S754_finite false m e /\
              np.SF_trunc (S754_finite false m e) = Zpos p.
Proof.
  intros Hp. pose proof (digits2_pos_le_53 p Hp) as HD.
  cbn [binary_normalize]. unfold binary_round, shl_align, fexp, SpecFloat.emin.
  replace (Z.max (Zpos (digits2_pos p) + 0 - prec) (3 - emax - prec))
    with (Zpos (digits2_pos p) - 53) by (unfold prec, emax; lia).
  destruct (Zpos (digits2_pos p) - 53 - 0) as [|q|q] eqn:Hq; try lia.
  - rewrite binary_round_aux_exact by lia. eexists _, _. split; reflexivity.
  - rewrite binary_round_aux_exact by (rewrite ?iter_xO_digits; lia).
    eexists _, _. split; [reflexivity|].
    assert (Hz : Zpos (digits2_pos p) - 53 = Zneg q) by lia.
    rewrite Hz. cbn [np.SF_trunc cond_Zopp].
    rewrite iter_xO_Z. apply Z.div_mul. lia.
Qed.

Lemma Prim2SF_fl (a : nat) :
  Z.of_nat a < 2 ^ 53 ->
  Prim2SF (fl a) <> S754_nan /\ np.SF_trunc (Prim2SF (fl a)) = Z.of_nat a.
Proof.
  intros Ha. unfold fl. rewrite of_uint63_spec, Uint63.of_Z_spec.
  rewrite Z.mod_small by (change wB with (2 ^ 63); lia).
  destruct (Z.of_nat a) as [|p|p] eqn:E; try lia.
  - split; [discriminate|reflexivity].
  - destruct (normalize_exact p Ha) as (m & e & -> & Ht).
    split; [discriminate|assumption].
Qed.

Lemma SFeqb_trunc (x y : spec_float) :
  SFeqb x y = true -> np.SF_trunc x = np.SF_trunc y.
Proof.
  unfold SFeqb.
  destruct x as [[]|[]| |[] mx ex], y as [[]|[]| |[] my ey];
    simpl; try discriminate; try reflexivity;
    destruct (Z.compare_spec ex ey); try discriminate;
    change (Pos.compare_cont Eq mx my) with (Pos.compare mx my);
    destruct (Pos.compare_spec mx my); try discriminate; subst; reflexivity.
Qed.

(** Below [2^53] distinct integers are distinct floats. *)
Lemma fl_eqb (a b : nat) :
  Z.of_nat a < 2 ^ 53 -> Z.of_nat b < 2 ^ 53 ->
  (fl a =? fl b)%float = bool_decide (a = b).
Proof.
  intros Ha Hb. rewrite FloatAxioms.eqb_spec.
  destruct (Prim2SF_fl a Ha) as [Hna Hta], (Prim2SF_fl b Hb) as [Hnb Htb].
  case_bool_decide as Hab.
  - subst b. unfold SFeqb. rewrite SFcompare_refl by assumption. reflexivity.
  - destruct (SFeqb (Prim2SF (fl a)) (Prim2SF (fl b))) eqn:E; [|reflexivity].
    apply SFeqb_trunc in E. lia.
Qed.

Lemma astype_uint8_fl (a : nat) :
  Z.of_nat a < 2 ^ 53 -> np.astype_uint8 (fl a) = (a mod 256)%nat.
Proof.
  intros Ha. unfold np.astype_uint8.
  destruct (Prim2SF_fl a Ha) as [_ ->].
  change 256 with (Z.of_nat 256). rewrite <- Nat2Z.inj_mod. apply Nat2Z.id.
Qed.

Lemma astype_uint8_lt (x : float) : (np.astype_uint8 x < 256)%nat.
Proof.
  unfold np.astype_uint8.
  pose proof (Z.mod_pos_bound (np.SF_trunc (Prim2SF x)) 256). lia.
Qed.

End FloatOfInt.

(** ** The scan of [np.argmin] *)

Section Argmin.

Lemma argmin_scan_lt (xs : vec) (mp : float) (mi i : nat) :
  mi < i -> np.argmin_scan mp mi i xs < i + length xs.
Proof.
  revert mp mi i. induction xs as [|x xs IH]; intros mp mi i Hmi; simpl.
  - lia.
  - destruct (negb (mp <=? x)%float).
    + destruct (PrimFloat.is_nan x); [lia|].
      specialize (IH x i (S i)). lia.
    + specialize (IH mp mi (S i)). lia.
Qed.

Lemma argmin_lt (xs : vec) (j : nat) : np.argmin xs = Ok j -> j < length xs.
Proof.
  destruct xs as [|x xs]; simpl; [discriminate|].
  intros [= <-]. destruct (PrimFloat.is_nan x); [lia|].
  pose proof (argmin_scan_lt xs x 0 1). lia.
Qed.

Lemma argmin_ok (xs : vec) : xs <> [] -> exists j, np.argmin xs = Ok j.
Proof. destruct xs; [congruence|]. intros _. eexists. reflexivity. Qed.

(** The invariant of the scan: [mp], at index [mi], is the first minimum of
    the entries [pre] already seen, none of which is a NaN. *)
Lemma argmin_scan_spec (xs pre : vec) (mp : float) (mi : nat) :
  pre !! mi = Some mp ->
  Forall (fun d => PrimFloat.is_nan d = false) pre ->
  (forall k x, pre !! k = Some x -> (mp <=? x)%float = true) ->
  (forall k x, k < mi -> pre !! k = Some x -> (mp <? x)%float = true) ->
  (Forall (fun d => PrimFloat.is_nan d = false) xs ->
   nearest_first (pre ++ xs) (np.argmin_scan mp mi (length pre) xs)) /\
  (Exists (fun d => PrimFloat.is_nan d = true) xs ->
   first_nan (pre ++ xs) (np.argmin_scan mp mi (length pre) xs)).
Proof.
  revert pre mp mi. induction xs as [|x xs IH]; intros pre mp mi Hmi Hpre Hmin Hfirst.
  - simpl. rewrite app_nil_r. split.
    + intros _. exists mp. auto.
    + intros Hex. inversion Hex.
  - assert (Hmp : PrimFloat.is_nan mp = false).
    { rewrite Forall_lookup in Hpre. eapply Hpre, Hmi. }
    assert (Hshift : (pre ++ [x]) ++ xs = pre ++ x :: xs)
      by (rewrite <- app_assoc; reflexivity).
    assert (Hlen : length (pre ++ [x]) = S (length pre))
      by (rewrite length_app; simpl; lia).
    simpl. destruct (mp <=? x)%float eqn:Hle; simpl.
    + (* the running minimum stays *)
      destruct (leb_not_nan _ _ Hle) as [_ Hx].
      assert (A1 : (pre ++ [x]) !! mi = Some mp).
      { rewrite lookup_app_l by (eapply lookup_lt_Some, Hmi). assumption. }
      assert (A2 : Forall (fun d => PrimFloat.is_nan d = false) (pre ++ [x])).
      { apply Forall_app. split; [assumption|]. constructor; [assumption|constructor]. }
      assert (A3 : forall k y, (pre ++ [x]) !! k = Some y -> (mp <=? y)%float = true).
      { intros k y Hk. apply lookup_app_Some in Hk as [Hk|[_ Hk]]; [eauto|].
        destruct (k - length pre); simpl in Hk; [|discriminate].
        injection Hk as <-. assumption. }
      assert (A4 : forall k y, k < mi -> (pre ++ [x]) !! k = Some y ->
                               (mp <? y)%float = true).
      { intros k y Hlt Hk. apply lookup_app_Some in Hk as [Hk|[Hge Hk]]; [eauto|].
        apply lookup_lt_Some in Hmi. lia. }
      destruct (IH _ _ _ A1 A2 A3 A4) as [IH1 IH2].
      rewrite Hlen, Hshift in IH1, IH2. split.
      * intros Hall. apply IH1. inversion Hall; assumption.
      * intros Hex. apply IH2. inversion Hex as [? ? Hn|]; subst; [congruence|assumption].
    + destruct (PrimFloat.is_nan x) eqn:Hx.
      * (* a NaN ends the scan *)
        split.
        -- intros Hall. inversion Hall; congruence.
        -- intros _. exists x. split; [|split].
           ++ rewrite lookup_app_r by lia. rewrite Nat.sub_diag. reflexivity.
           ++ assumption.
           ++ intros k y Hlt Hk. rewrite lookup_app_l in Hk by assumption.
              rewrite Forall_lookup in Hpre. eapply Hpre, Hk.
      * (* a new minimum *)
        assert (Hxmp : (x <? mp)%float = true) by (apply leb_false_ltb; assumption).
        assert (A1 : (pre ++ [x]) !! length pre = Some x).
        { rewrite lookup_app_r by lia. rewrite Nat.sub_diag. reflexivity. }
        assert (A2 : Forall (fun d => PrimFloat.is_nan d = false) (pre ++ [x])).
        { apply Forall_app. split; [assumption|]. constructor; [assumption|constructor]. }
        assert (A3 : forall k y, (pre ++ [x]) !! k = Some y -> (x <=? y)%float = true).
        { intros k y Hk. apply lookup_app_Some in Hk as [Hk|[_ Hk]].
          - apply ltb_leb. eapply ltb_leb_trans; eauto.
          - destruct (k - length pre); simpl in Hk; [|discriminate].
            injection Hk as <-. apply leb_refl. assumption. }
        assert (A4 : forall k y, k < length pre -> (pre ++ [x]) !! k = Some y ->
                                 (x <? y)%float = true).
        { intros k y Hlt Hk. rewrite lookup_app_l in Hk by assumption.
          eapply ltb_leb_trans; eauto. }
        destruct (IH _ _ _ A1 A2 A3 A4) as [IH1 IH2].
        rewrite Hlen, Hshift in IH1, IH2. split.
        -- intros Hall. apply IH1. inversion Hall; assumption.
        -- intros Hex. apply IH2.
           inversion Hex as [? ? Hn|]; subst; [congruence|assumption].
Qed.

Lemma argmin_spec (xs : vec) (j : nat) :
  np.argmin xs = Ok j ->
  (Forall (fun d => PrimFloat.is_nan d = false) xs -> nearest_first xs j) /\
  (Exists (fun d => PrimFloat.is_nan d = true) xs -> first_nan xs j).
Proof.
  destruct xs as [|x xs]; simpl; [discriminate|]. intros [= <-].
  destruct (PrimFloat.is_nan x) eqn:Hx.
  - split.
    + intros Hall. inversion Hall; congruence.
    + intros _. exists x. split; [reflexivity|]. split; [assumption|]. intros; lia.
  - destruct (argmin_scan_spec xs [x] x 0) as [H1 H2].
    + reflexivity.
    + constructor; [assumption|constructor].
    + intros [|k] y Hk; simpl in Hk; [|discriminate].
      injection Hk as <-. apply leb_refl. assumption.
    + intros; lia.
    + simpl in H1, H2. split.
      * intros Hall. apply H1. inversion Hall; assumption.
      * intros Hex. apply H2. inversion Hex; subst; [congruence|assumption].
Qed.

End Argmin.

(** ** The E-step: [_get_nearest_means] *)

Section Assign.

Lemma collect_Forall2 {A B} (f : A -> result B) (xs : list A) (ys : list B) :
  KMeans.collect f xs = Ok ys <-> Forall2 (fun x y => f x = Ok y) xs ys.
Proof.
  revert ys. induction xs as [|x xs IH]; intros ys; simpl.
  - split.
    + intros [= <-]. constructor.
    + intros Hall. inversion Hall. reflexivity.
  - destruct (f x) as [y|e] eqn:Hx; simpl.
    + destruct (KMeans.collect f xs) as [ys'|e] eqn:Hxs; simpl.
      * split.
        -- intros [= <-]. constructor; [assumption|]. apply IH. reflexivity.
        -- intros Hall. inversion Hall as [|? y' ? ys'' Hy Hrest]; subst.
           apply IH in Hrest. congruence.
      * split; [discriminate|].
        intros Hall. inversion Hall as [|? y' ? ys'' Hy Hrest]; subst.
        apply IH in Hrest. discriminate.
    + split; [discriminate|].
      intros Hall. inversion Hall; congruence.
Qed.

Lemma collect_ok {A B} (f : A -> result B) (xs : list A) :
  Forall (fun x => exists y, f x = Ok y) xs -> exists ys, KMeans.collect f xs = Ok ys.
Proof.
  induction 1 as [|x xs [y Hy] _ [ys Hys]]; simpl.
  - eexists. reflexivity.
  - rewrite Hy, Hys. eexists. reflexivity.
Qed.

Lemma assign_loop_collect (ps : list vec) (i : nat) (means : ndarray) (labels : vec) :
  i + length ps <= length labels ->
  KMeans.assign_loop ps i means labels =
  rbind (KMeans.collect (fun p => KMeans.nearest_mean p means) ps)
        (fun js => Ok (take i labels ++ map fl js ++ drop (i + length ps) labels)).
Proof.
  revert i labels. induction ps as [|p ps IH]; intros i labels Hlen; simpl.
  - rewrite Nat.add_0_r, take_drop. reflexivity.
  - destruct (KMeans.nearest_mean p means) as [j|e]; simpl; [|reflexivity].
    simpl in Hlen. rewrite IH by (rewrite length_insert; lia).
    destruct (KMeans.collect _ ps) as [js|e]; simpl; [|reflexivity].
    f_equal.
    rewrite (take_S_r _ _ (fl j)) by (apply list_lookup_insert_eq; lia).
    rewrite take_insert_ge by lia.
    rewrite drop_insert_lt by lia.
    rewrite <- app_assoc. simpl.
    replace (S (i + length ps)) with (i + S (length ps)) by lia. reflexivity.
Qed.

Lemma get_nearest_means_collect (img : matrix) (means : ndarray) :
  KMeans.get_nearest_means img means =
  rbind (KMeans.collect (fun p => KMeans.nearest_mean p means) (rows img))
        (fun js => Ok (map fl js)).
Proof.
  unfold KMeans.get_nearest_means.
  rewrite assign_loop_collect by (unfold np.zeros, len; rewrite length_replicate; lia).
  destruct (KMeans.collect _ (rows img)) as [js|e]; simpl; [|reflexivity].
  rewrite drop_ge by (unfold np.zeros, len; rewrite length_replicate; lia).
  rewrite app_nil_r. reflexivity.
Qed.

Lemma nearest_mean_argmin (p : vec) (m : matrix) :
  length p = ncols m ->
  KMeans.nearest_mean p (Arr2 m) = np.argmin (distances p m).
Proof.
  intros Hp. unfold KMeans.nearest_mean, np.sub_broadcast, np.broadcastable.
  rewrite Hp, Nat.eqb_refl. simpl. f_equal.
  unfold np.linalg_norm_axis1, distances. rewrite map_map. reflexivity.
Qed.

Lemma length_distances (p : vec) (m : matrix) :
  length (distances p m) = length (rows m).
Proof. unfold distances. apply length_map. Qed.

(** With at least one centroid of the pixels' dimension, the E-step labels
    every pixel with the [argmin] of its distances. *)
Lemma get_nearest_means_ok (img means : matrix) :
  wf_matrix img -> ncols means = ncols img -> rows means <> [] ->
  exists js,
    KMeans.get_nearest_means img (Arr2 means) = Ok (map fl js) /\
    Forall2 (fun p j => np.argmin (distances p means) = Ok j) (rows img) js.
Proof.
  intros Hwf Hc Hne. unfold wf_matrix in Hwf. rewrite get_nearest_means_collect.
  destruct (collect_ok (fun p => KMeans.nearest_mean p (Arr2 means)) (rows img))
    as [js Hjs].
  - eapply Forall_impl; [exact Hwf|]. intros p Hp. simpl in Hp.
    rewrite nearest_mean_argmin by congruence.
    apply argmin_ok. intros Hnil.
    apply (f_equal length) in Hnil. rewrite length_distances in Hnil.
    destruct (rows means); [congruence|discriminate].
  - exists js. rewrite Hjs. split; [reflexivity|].
    apply collect_Forall2 in Hjs.
    apply Forall2_same_length_lookup. split.
    + eapply Forall2_length, Hjs.
    + intros i p j Hp Hj.
      pose proof (Forall2_lookup_lr _ _ _ _ _ _ Hjs Hp Hj) as Hn.
      rewrite Forall_lookup in Hwf. specialize (Hwf _ _ Hp). cbv beta in Hn, Hwf.
      rewrite nearest_mean_argmin in Hn by congruence. assumption.
Qed.

End Assign.

(** ** The M-step: [_get_centroids] *)

Section Recompute.

Lemma collect_map {A B} (f : A -> result B) (g : A -> B) (xs : list A) :
  Forall (fun x => f x = Ok (g x)) xs -> KMeans.collect f xs = Ok (map g xs).
Proof.
  induction 1 as [|x xs Hx _ IH]; simpl; [reflexivity|].
  rewrite Hx, IH. reflexivity.
Qed.

Lemma select_wf (c : nat) (rs : list vec) (mask : list bool) :
  Forall (fun r => length r = c) rs ->
  Forall (fun r => length r = c) (np.select rs mask).
Proof.
  intros Hrs. revert mask. induction Hrs as [|r rs Hr _ IH]; intros [|[] mask]; simpl;
    try constructor; auto.
Qed.

Lemma select_all (rs : list vec) : np.select rs (replicate (length rs) true) = rs.
Proof. induction rs as [|r rs IH]; simpl; congruence. Qed.

(** The running column sums, one coordinate at a time. *)
Lemma fold_add_rows_lookup (c : nat) (pts : list vec) (acc : vec) (j : nat) :
  Forall (fun r => length r = c) pts -> length acc = c -> j < c ->
  fold_left np.add_rows pts acc !! j =
  Some (fold_left PrimFloat.add (map (fun p => nth j p 0%float) pts)
                  (nth j acc 0%float)).
Proof.
  intros Hpts. revert acc. induction Hpts as [|r pts Hr _ IH]; intros acc Hacc Hj; simpl.
  - rewrite nth_lookup.
    destruct (lookup_lt_is_Some_2 acc j ltac:(lia)) as [x ->]. reflexivity.
  - assert (Hlen : length (np.add_rows acc r) = c).
    { unfold np.add_rows. rewrite length_zip_with. lia. }
    rewrite IH by assumption. do 2 f_equal.
    rewrite !nth_lookup. unfold np.add_rows. rewrite lookup_zip_with.
    destruct (lookup_lt_is_Some_2 acc j ltac:(lia)) as [x ->].
    destruct (lookup_lt_is_Some_2 r j ltac:(lia)) as [y ->]. reflexivity.
Qed.

Lemma length_fold_add_rows (c : nat) (pts : list vec) (acc : vec) :
  Forall (fun r => length r = c) pts -> length acc = c ->
  length (fold_left np.add_rows pts acc) = c.
Proof.
  intros Hpts. revert acc. induction Hpts as [|r pts Hr _ IH]; intros acc Hacc; simpl.
  - assumption.
  - apply IH. unfold np.add_rows. rewrite length_zip_with. lia.
Qed.

Lemma length_mean_axis0 (c : nat) (pts : list vec) :
  Forall (fun r => length r = c) pts -> length (np.mean_axis0 (Matrix c pts)) = c.
Proof.
  intros Hpts. unfold np.mean_axis0. rewrite length_map. simpl.
  apply length_fold_add_rows; [assumption|apply length_replicate].
Qed.

(** [mean(axis=0)] is the arithmetic mean, coordinate by coordinate. *)
Lemma mean_axis0_lookup (c : nat) (pts : list vec) (j : nat) :
  Forall (fun r => length r = c) pts -> j < c ->
  np.mean_axis0 (Matrix c pts) !! j = Some (mean_coord pts j).
Proof.
  intros Hpts Hj. unfold np.mean_axis0, mean_coord, np.sum, len. simpl.
  rewrite list_lookup_fmap.
  rewrite (fold_add_rows_lookup c) by (try apply length_replicate; assumption).
  simpl. do 3 f_equal. rewrite nth_lookup, lookup_replicate_2 by assumption.
  reflexivity.
Qed.

(** The mean of no point at all is a row of NaNs. *)
Lemma mean_axis0_empty (c : nat) : np.mean_axis0 (Matrix c []) = replicate c nan.
Proof.
  unfold np.mean_axis0, len. simpl. induction c as [|c IH]; simpl; [reflexivity|].
  rewrite IH. reflexivity.
Qed.

Lemma centroid_of_ok (K : Z) (img : matrix) (labels : vec) (k : nat) :
  length labels = len img ->
  KMeans.centroid_of img labels k =
  Ok (np.mean_axis0 (Matrix (ncols img) (cluster_points img labels k))).
Proof.
  intros Hlen. unfold KMeans.centroid_of, np.bool_index.
  rewrite length_map, Hlen, Nat.eqb_refl. reflexivity.
Qed.

Lemma get_centroids_ok (K : Z) (img : matrix) (labels : vec) :
  length labels = len img ->
  KMeans.get_centroids K img labels =
  Ok (np.array (ncols img)
        (map (fun k => np.mean_axis0 (Matrix (ncols img) (cluster_points img labels k)))
             (seq 0 (Z.to_nat K)))).
Proof.
  intros Hlen. unfold KMeans.get_centroids, KMeans.range_K.
  rewrite (collect_map _ (fun k => np.mean_axis0
                             (Matrix (ncols img) (cluster_points img labels k)))).
  - reflexivity.
  - apply Forall_forall. intros k _. apply (centroid_of_ok K). assumption.
Qed.

Lemma array_nonempty (c : nat) (rs : list vec) :
  rs <> [] -> np.array c rs = Arr2 (Matrix c rs).
Proof. destruct rs; [congruence|reflexivity]. Qed.

End Recompute.



(** ** Sampling the initial centroids: [_init_means] *)

Section Initialize.
Context {G : Type} {RS : RandomState G}.

Lemma swap_Permutation (x : list nat) (i j : nat) : np.swap x i j ≡ₚ x.
Proof.
  unfold np.swap.
  destruct (x !! i) as [xi|] eqn:Hi; [|reflexivity].
  destruct (x !! j) as [xj|] eqn:Hj; [|reflexivity].
  apply Permutation_insert_swap; assumption.
Qed.

Lemma shuffle_Permutation (i : nat) (x : list nat) (g : G) :
  fst (np.shuffle i x g) ≡ₚ x.
Proof.
  revert x g. induction i as [|i IH]; intros x g; simpl; [reflexivity|].
  destruct (random_interval g (S i)) as [j g'].
  rewrite IH. apply swap_Permutation.
Qed.

Lemma sampled_NoDup (n k : nat) (g : G) : NoDup (sampled n k g).
Proof.
  unfold sampled. eapply sublist_NoDup; [|apply sublist_take].
  rewrite shuffle_Permutation. apply NoDup_seq.
Qed.

Lemma sampled_lt (n k : nat) (g : G) : Forall (fun i => i < n) (sampled n k g).
Proof.
  apply Forall_forall. intros i Hi. unfold sampled in Hi.
  apply elem_of_take in Hi as (pos & Hpos & _).
  apply list_elem_of_lookup_2 in Hpos.
  rewrite shuffle_Permutation in Hpos. apply elem_of_seq in Hpos. lia.
Qed.

Lemma length_sampled (n k : nat) (g : G) : k <= n -> length (sampled n k g) = k.
Proof.
  intros Hk. unfold sampled. rewrite length_take.
  rewrite (Permutation_length (shuffle_Permutation _ _ _)), length_seq. lia.
Qed.

Lemma sampled_all (n : nat) (g : G) : sampled n n g ≡ₚ seq 0 n.
Proof.
  unfold sampled. rewrite take_ge.
  - apply shuffle_Permutation.
  - rewrite (Permutation_length (shuffle_Permutation _ _ _)), length_seq. lia.
Qed.

Lemma random_choice_ok (n : nat) (K : Z) (w : world G) :
  (0 <= K <= Z.of_nat n)%Z ->
  np.random_choice n K w =
  (Ok (sampled n (Z.to_nat K) (rng w)),
   World (after_shuffle n (rng w)) (calls w)).
Proof.
  intros HK. unfold np.random_choice.
  replace (Nat.eqb n 0 && negb (Z.eqb K 0)) with false.
  2:{ destruct (Nat.eqb_spec n 0), (Z.eqb_spec K 0); simpl; try reflexivity. lia. }
  replace (Z.of_nat n <? K)%Z with false by (symmetry; apply Z.ltb_ge; lia).
  replace (K <? 0)%Z with false by (symmetry; apply Z.ltb_ge; lia).
  unfold bind, np.random_permutation, ret, sampled, after_shuffle.
  destruct (np.shuffle (n - 1) (seq 0 n) (rng w)) as [x g']. reflexivity.
Qed.

Lemma random_choice_fail (n : nat) (K : Z) (w : world G) :
  (K < 0 \/ Z.of_nat n < K)%Z ->
  exists msg, np.random_choice n K w = (Raise (ValueError msg), w).
Proof.
  intros HK. unfold np.random_choice.
  destruct (Nat.eqb n 0 && negb (Z.eqb K 0)); [eexists; reflexivity|].
  destruct (Z.ltb_spec (Z.of_nat n) K); [eexists; reflexivity|].
  destruct (Z.ltb_spec K 0); [eexists; reflexivity|]. lia.
Qed.

Lemma take_rows_ok (rs : list vec) (idx : list nat) :
  Forall (fun i => i < length rs) idx ->
  exists out, np.take_rows rs idx = Ok out /\
              Forall2 (fun i r => rs !! i = Some r) idx out.
Proof.
  induction 1 as [|i idx Hi _ (out & Hout & Hall)]; simpl.
  - eexists. split; [reflexivity|constructor].
  - destruct (lookup_lt_is_Some_2 rs i Hi) as [r Hr].
    rewrite Hr, Hout. simpl. eexists. split; [reflexivity|].
    constructor; assumption.
Qed.

Lemma init_means_ok (K : Z) (img : matrix) (w : world G) :
  (0 <= K <= Z.of_nat (len img))%Z ->
  exists rs,
    KMeans._init_means K img w =
    (Ok (Arr2 (Matrix (ncols img) rs)),
     World (after_shuffle (len img) (rng w)) (calls w ++ [EInit])) /\
    Forall2 (fun i r => rows img !! i = Some r)
            (sampled (len img) (Z.to_nat K) (rng w)) rs.
Proof.
  intros HK. unfold KMeans._init_means, bind at 1, log.
  unfold bind at 1. rewrite random_choice_ok by assumption. cbn [rng calls].
  destruct (take_rows_ok (rows img) (sampled (len img) (Z.to_nat K) (rng w)))
    as (rs & Hrs & Hall); [apply sampled_lt|].
  exists rs. split; [|assumption].
  unfold bind, lift, ret, np.int_index. rewrite Hrs. reflexivity.
Qed.

Lemma init_means_fail (K : Z) (img : matrix) (w : world G) :
  (K < 0 \/ Z.of_nat (len img) < K)%Z ->
  exists msg,
    KMeans._init_means K img w =
    (Raise (ValueError msg), World (rng w) (calls w ++ [EInit])).
Proof.
  intros HK. unfold KMeans._init_means, bind at 1, log.
  unfold bind at 1.
  destruct (random_choice_fail (len img) K (World (rng w) (calls w ++ [EInit])) HK)
    as [msg ->].
  exists msg. reflexivity.
Qed.

End Initialize.

(** ** The loop of [cluster] *)

Section Run.
Context {G : Type} {RS : RandomState G}.

Lemma bind_ret_r {A} (m : M G A) (w : world G) : bind m ret w = m w.
Proof. unfold bind, ret. destruct (m w) as [[a|e] w']; reflexivity. Qed.

(** The last pass of a loop, taken apart. *)
Lemma for_range_S_r (n : nat) (body : KMeans.locals -> M G KMeans.locals)
      (st : KMeans.locals) (w : world G) :
  KMeans.for_range (S n) body st w = bind (KMeans.for_range n body st) body w.
Proof.
  revert st w. induction n as [|n IH]; intros st w.
  - simpl. rewrite bind_ret_r. reflexivity.
  - change (KMeans.for_range (S (S n)) body st w)
      with (bind (body st) (fun st' => KMeans.for_range (S n) body st') w).
    change (KMeans.for_range (S n) body st)
      with (bind (body st) (fun st' => KMeans.for_range n body st')).
    unfold bind. destruct (body st w) as [[st1|e] w1]; [|reflexivity].
    rewrite IH. reflexivity.
Qed.

Lemma rounds_trace_S (n : nat) :
  rounds_trace (S n) = rounds_trace n ++ [EAssign; ERecompute].
Proof.
  unfold rounds_trace. induction n as [|n IH]; [reflexivity|].
  change (replicate (S (S n)) [EAssign; ERecompute])
    with ([EAssign; ERecompute] :: replicate (S n) [EAssign; ERecompute]).
  rewrite concat_cons. rewrite IH at 1. reflexivity.
Qed.

(** Assign on well-shaped centroids yields a label array. *)
Lemma get_nearest_means_labels (K : Z) (img : matrix) (c : ndarray) :
  wf_matrix img -> (1 <= K)%Z -> centroid_shape K img c ->
  exists a, KMeans.get_nearest_means img c = Ok a /\ label_array K img a.
Proof.
  intros Hwf HK (rs & -> & Hrs).
  destruct (get_nearest_means_ok img (Matrix (ncols img) rs)) as (js & Hjs & Hall).
  - assumption.
  - reflexivity.
  - simpl. destruct rs; [simpl in Hrs; lia|discriminate].
  - exists (map fl js). split; [assumption|]. exists js. split; [reflexivity|]. split.
    + symmetry. eapply Forall2_length, Hall.
    + apply Forall_forall. intros j Hj.
      apply list_elem_of_lookup in Hj as [i Hi].
      destruct (Forall2_lookup_r _ _ _ _ _ Hall Hi) as (p & _ & Harg).
      apply argmin_lt in Harg. rewrite length_distances in Harg. simpl in Harg. lia.
Qed.

(** Recompute on a label array yields well-shaped centroids. *)
Lemma get_centroids_shape (K : Z) (img : matrix) (a : vec) :
  (1 <= K)%Z -> length a = len img ->
  exists c, KMeans.get_centroids K img a = Ok c /\ centroid_shape K img c.
Proof.
  intros HK Hlen. rewrite get_centroids_ok by assumption.
  eexists. split; [reflexivity|]. eexists. split.
  - apply array_nonempty. destruct (Z.to_nat K) eqn:E; [lia|discriminate].
  - rewrite length_map, length_seq. reflexivity.
Qed.

Lemma length_label_array (K : Z) (img : matrix) (a : vec) :
  label_array K img a -> length a = len img.
Proof. intros (js & -> & Hlen & _). rewrite length_map. assumption. Qed.

(** Every round succeeds and keeps the shapes. *)
Lemma Run_rounds_ok (K : Z) (img : matrix) (c0 : ndarray) (n : nat) :
  wf_matrix img -> (1 <= K)%Z -> centroid_shape K img c0 ->
  exists a c,
    Run_labels K img c0 (S n) = Ok a /\ label_array K img a /\
    KMeans.get_centroids K img a = Ok c /\
    Run_centroids K img c0 (S n) = Ok c /\ centroid_shape K img c.
Proof.
  intros Hwf HK Hc0. unfold Run_labels.
  replace (S n - 1) with n by lia.
  assert (Hprev : exists c', Run_centroids K img c0 n = Ok c' /\ centroid_shape K img c').
  { induction n as [|n (c' & Hrun & Hs)]; [exists c0; split; [reflexivity|assumption]|].
    destruct (get_nearest_means_labels K img c' Hwf HK Hs) as (a & Ha & Hla).
    destruct (get_centroids_shape K img a HK (length_label_array _ _ _ Hla))
      as (c & Hc & Hshape).
    exists c. simpl. rewrite Hrun. simpl. rewrite Ha. simpl. split; assumption. }
  destruct Hprev as (c' & Hrun & Hs).
  destruct (get_nearest_means_labels K img c' Hwf HK Hs) as (a & Ha & Hla).
  destruct (get_centroids_shape K img a HK (length_label_array _ _ _ Hla))
    as (c & Hc & Hshape).
  exists a, c. simpl. rewrite Hrun. simpl. rewrite Ha. simpl.
  repeat split; assumption.
Qed.

(** One pass of the loop. *)
Lemma step_ok (K : Z) (img : matrix) (c : ndarray) (l : option vec) (w : world G) :
  wf_matrix img -> (1 <= K)%Z -> centroid_shape K img c ->
  exists a c',
    KMeans.get_nearest_means img c = Ok a /\ label_array K img a /\
    KMeans.get_centroids K img a = Ok c' /\ centroid_shape K img c' /\
    KMeans.step K img (KMeans.Locals c l) w =
    (Ok (KMeans.Locals c' (Some a)), World (rng w) (calls w ++ [EAssign; ERecompute])).
Proof.
  intros Hwf HK Hc.
  destruct (get_nearest_means_labels K img c Hwf HK Hc) as (a & Ha & Hla).
  destruct (get_centroids_shape K img a HK (length_label_array _ _ _ Hla))
    as (c' & Hc' & Hshape).
  exists a, c'. repeat split; try assumption.
  unfold KMeans.step, KMeans._get_nearest_means, KMeans._get_centroids.
  unfold bind, log, lift, ret. cbn [KMeans.centroids rng calls].
  rewrite Ha, Hc', <- app_assoc. reflexivity.
Qed.

(** After [n] passes the local [centroids] holds the centroids of round
    [n], and after at least one pass [labels] holds the assignment made
    from the centroids of the round before. *)
Lemma for_range_rounds (K : Z) (img : matrix) (c0 : ndarray) (n : nat) (w : world G) :
  wf_matrix img -> (1 <= K)%Z -> centroid_shape K img c0 ->
  exists a c,
    Run_labels K img c0 (S n) = Ok a /\ label_array K img a /\
    KMeans.get_centroids K img a = Ok c /\
    Run_centroids K img c0 (S n) = Ok c /\ centroid_shape K img c /\
    KMeans.for_range (S n) (KMeans.step K img) (KMeans.Locals c0 None) w =
    (Ok (KMeans.Locals c (Some a)), World (rng w) (calls w ++ rounds_trace (S n))).
Proof.
  intros Hwf HK Hc0. induction n as [|n IH].
  - destruct (step_ok K img c0 None w Hwf HK Hc0) as (a & c & Ha & Hla & Hc & Hs & Hstep).
    exists a, c. unfold Run_labels. simpl. rewrite Ha. simpl.
    repeat split; try assumption.
    unfold bind. rewrite Hstep. reflexivity.
  - destruct IH as (a & c & _ & _ & _ & Hrun & Hs & Hloop).
    destruct (step_ok K img c (Some a) (World (rng w) (calls w ++ rounds_trace (S n)))
                      Hwf HK Hs) as (a' & c' & Ha' & Hla' & Hc' & Hs' & Hstep).
    exists a', c'. unfold Run_labels.
    replace (S (S n) - 1) with (S n) by lia.
    change (Run_centroids K img c0 (S (S n)))
      with (rbind (Run_centroids K img c0 (S n))
                  (fun c => rbind (KMeans.get_nearest_means img c)
                                  (fun a => KMeans.get_centroids K img a))).
    rewrite Hrun. simpl rbind. rewrite Ha'. simpl rbind.
    repeat split; try assumption.
    rewrite for_range_S_r. unfold bind. rewrite Hloop, Hstep. cbn [rng calls].
    rewrite (rounds_trace_S (S n)), app_assoc. reflexivity.
Qed.

End Run.

(** ** The whole of [cluster] *)

Section Cluster.
Context {G : Type} {RS : RandomState G}.

(** The 8-bit index of a label never exceeds the label. *)
Lemma astype_uint8_fl_lt (j n : nat) : j < n -> np.astype_uint8 (fl j) < n.
Proof.
  intros Hj. destruct (Z_lt_dec (Z.of_nat j) (2 ^ 53)) as [Hs|Hb].
  - rewrite astype_uint8_fl by assumption.
    pose proof (Nat.Div0.mod_le j 256). lia.
  - pose proof (astype_uint8_lt (fl j)).
    change (2 ^ 53)%Z with 9007199254740992%Z in Hb. lia.
Qed.

Lemma reconstruct_ok (K : Z) (img : matrix) (c : ndarray) (a : vec) :
  centroid_shape K img c -> label_array K img a ->
  exists rs js im,
    c = Arr2 (Matrix (ncols img) rs) /\ a = map fl js /\
    length rs = Z.to_nat K /\ length js = len img /\
    Forall (fun j => j < Z.to_nat K) js /\
    KMeans.reconstruct (KMeans.Locals c (Some a)) =
    Ok (KMeans.Output c a (Matrix (ncols img) im)) /\
    Forall2 (fun j r => rs !! np.astype_uint8 (fl j) = Some r) js im.
Proof.
  intros (rs & -> & Hrs) (js & -> & Hlen & Hjs).
  destruct (take_rows_ok rs (map np.astype_uint8 (map fl js))) as (im & Him & Hall).
  - rewrite Forall_fmap, Forall_fmap. eapply Forall_impl; [exact Hjs|].
    intros j Hj. cbn in Hj |- *. apply astype_uint8_fl_lt. lia.
  - exists rs, js, im. repeat split; try assumption.
    + unfold KMeans.reconstruct. cbn [KMeans.labels KMeans.centroids np.int_index rows ncols].
      rewrite Him. reflexivity.
    + rewrite Forall2_fmap_l, Forall2_fmap_l in Hall. exact Hall.
Qed.

(** A run with [1 <= K <= n] and at least one pass succeeds, and this is
    what it computes. *)
Lemma cluster_ok (K : Z) (img : matrix) (iterations : Z) (w : world G) :
  wf_matrix img -> (1 <= K <= Z.of_nat (len img))%Z -> (1 <= iterations)%Z ->
  exists rs0 a c im,
    KMeans._init_means K img w =
      (Ok (Arr2 (Matrix (ncols img) rs0)),
       World (after_shuffle (len img) (rng w)) (calls w ++ [EInit])) /\
    Forall2 (fun i r => rows img !! i = Some r)
            (sampled (len img) (Z.to_nat K) (rng w)) rs0 /\
    Run_labels K img (Arr2 (Matrix (ncols img) rs0)) (Z.to_nat iterations) = Ok a /\
    label_array K img a /\
    KMeans.get_centroids K img a = Ok c /\
    Run_centroids K img (Arr2 (Matrix (ncols img) rs0)) (Z.to_nat iterations) = Ok c /\
    centroid_shape K img c /\
    KMeans.reconstruct (KMeans.Locals c (Some a)) = Ok (KMeans.Output c a im) /\
    KMeans.cluster K img iterations w =
      (Ok (KMeans.Output c a im),
       World (after_shuffle (len img) (rng w))
             (calls w ++ EInit :: rounds_trace (Z.to_nat iterations))).
Proof.
  intros Hwf HK Hit.
  destruct (init_means_ok K img w) as (rs0 & Hinit & Hsampled); [lia|].
  assert (Hshape0 : centroid_shape K img (Arr2 (Matrix (ncols img) rs0))).
  { exists rs0. split; [reflexivity|].
    rewrite <- (Forall2_length _ _ _ Hsampled). apply length_sampled. lia. }
  destruct (Z.to_nat iterations) as [|n] eqn:En; [lia|].
  destruct (for_range_rounds K img _ n
              (World (after_shuffle (len img) (rng w)) (calls w ++ [EInit]))
              Hwf ltac:(lia) Hshape0)
    as (a & c & Ha & Hla & Hc & Hrun & Hs & Hloop).
  destruct (reconstruct_ok K img c a Hs Hla)
    as (rs & js & im & _ & _ & _ & _ & _ & Hrec & _).
  exists rs0, a, c, (Matrix (ncols img) im). repeat split; try assumption.
  unfold KMeans.cluster, bind, lift. rewrite Hinit, En, Hloop, Hrec. cbn [rng calls].
  rewrite <- app_assoc. reflexivity.
Qed.

End Cluster.

(** C1. With a valid [K] and [iterations >= 1], the run makes exactly
    [iterations] rounds of Assign then Recompute, each round starting from
    the centroids of the round before; the assignment it ends with is the one
    of the last Assign, made from the centroids of round [iterations - 1],
    and the centroids it ends with are the final Recompute of that
    assignment. *)
Theorem cluster_rounds {G : Type} {RS : RandomState G}
        (K : Z) (img : matrix) (iterations : Z) (w : world G) :
  wf_matrix img -> (1 <= K <= Z.of_nat (len img))%Z -> (1 <= iterations)%Z ->
  exists c0 w0 a c im,
    KMeans._init_means K img w = (Ok c0, w0) /\
    Run_labels K img c0 (Z.to_nat iterations) = Ok a /\
    KMeans.get_centroids K img a = Ok c /\
    Run_centroids K img c0 (Z.to_nat iterations) = Ok c /\
    KMeans.cluster K img iterations w =
      (Ok (KMeans.Output c a im),
       World (rng w0) (calls w0 ++ rounds_trace (Z.to_nat iterations))).
Proof.
  intros Hwf HK Hit.
  destruct (cluster_ok K img iterations w Hwf HK Hit)
    as (rs0 & a & c & im & Hinit & _ & Ha & _ & Hc & Hrun & _ & _ & Hcl).
  eexists _, _, a, c, im. split; [exact Hinit|].
  repeat split; try assumption.
  rewrite Hcl. cbn [rng calls]. rewrite <- app_assoc. reflexivity.
Qed.

(** Five rounds on the two-group image with two clusters. *)
Lemma cluster_rounds_witness :
  exists c0 w0 a c im,
    KMeans._init_means 2 img_two_groups (Lcg.seeded 1) = (Ok c0, w0) /\
    Run_labels 2 img_two_groups c0 (Z.to_nat 5) = Ok a /\
    KMeans.get_centroids 2 img_two_groups a = Ok c /\
    Run_centroids 2 img_two_groups c0 (Z.to_nat 5) = Ok c /\
    KMeans.cluster 2 img_two_groups 5 (Lcg.seeded 1) =
      (Ok (KMeans.Output c a im),
       World (rng w0) (calls w0 ++ rounds_trace (Z.to_nat 5))).
Proof.
  apply (cluster_rounds 2 img_two_groups 5 (Lcg.seeded 1)).
  - repeat constructor.
  - unfold len. simpl. lia.
  - lia.
Defined.




(** C5. In every round, every value of the assignment Assign produces is
    an integer of [[0, K)]. *)
Theorem labels_in_range (K : Z) (img : matrix) (c0 : ndarray) (r : nat) :
  wf_matrix img -> (1 <= K)%Z -> centroid_shape K img c0 -> 1 <= r ->
  exists a,
    Run_labels K img c0 r = Ok a /\ length a = len img /\
    Forall (fun l => exists j, (0 <= Z.of_nat j < K)%Z /\ l = fl j) a.
Proof.
  intros Hwf HK Hc0 Hr.
  destruct r as [|n]; [lia|].
  destruct (Run_rounds_ok K img c0 n Hwf HK Hc0) as (a & c & Ha & Hla & _).
  exists a. split; [assumption|]. split; [eapply length_label_array, Hla|].
  destruct Hla as (js & -> & _ & Hjs).
  rewrite Forall_fmap. eapply Forall_impl; [exact Hjs|].
  intros j Hj. cbn in Hj |- *. exists j. split; [lia|reflexivity].
Qed.

(** The third round on the two-group image from one centroid in each group. *)
Lemma labels_in_range_witness :
  exists a,
    Run_labels 2 img_two_groups (Arr2 (Matrix 2 [[0; 0]; [10; 10]]%float)) 3 = Ok a /\
    length a = len img_two_groups /\
    Forall (fun l => exists j, (0 <= Z.of_nat j < 2)%Z /\ l = fl j) a.
Proof.
  apply (labels_in_range 2 img_two_groups (Arr2 (Matrix 2 [[0; 0]; [10; 10]]%float)) 3).
  - repeat constructor.
  - lia.
  - eexists. split; reflexivity.
  - lia.
Defined.

(** ** The shuffle as a function of its draws *)

Section Shuffle.
Context {G : Type} {RS : RandomState G}.

Lemma shuffle_draws (i : nat) (x : list nat) (g : G) :
  fst (np.shuffle i x g) = shuffle_with i (draws i g) x.
Proof.
  revert x g. induction i as [|i IH]; intros x g; simpl; [reflexivity|].
  destruct (random_interval g (S i)) as [j g']. apply IH.
Qed.

Lemma admissible_draws (i : nat) (g : G) : admissible i (draws i g).
Proof.
  revert g. induction i as [|i IH]; intros g; simpl; [exact I|].
  pose proof (random_interval_le g (S i)) as Hle.
  destruct (random_interval g (S i)) as [j g']. split; [exact Hle|apply IH].
Qed.

Lemma length_swap (x : list nat) (i j : nat) : length (np.swap x i j) = length x.
Proof.
  unfold np.swap. destruct (x !! i), (x !! j); try reflexivity.
  rewrite !length_insert. reflexivity.
Qed.

Lemma swap_app (y t : list nat) (i j : nat) :
  i < length y -> j < length y -> np.swap (y ++ t) i j = np.swap y i j ++ t.
Proof.
  intros Hi Hj. unfold np.swap. rewrite !lookup_app_l by assumption.
  destruct (lookup_lt_is_Some_2 y i Hi) as [yi ->].
  destruct (lookup_lt_is_Some_2 y j Hj) as [yj ->].
  rewrite insert_app_l by assumption.
  rewrite insert_app_l by (rewrite length_insert; assumption). reflexivity.
Qed.

(** After the exchange, position [i] holds what position [j] held. *)
Lemma swap_lookup (x : list nat) (i j xi xj : nat) :
  x !! i = Some xi -> x !! j = Some xj -> np.swap x i j !! i = Some xj.
Proof.
  intros Hi Hj. unfold np.swap. rewrite Hi, Hj.
  destruct (decide (i = j)) as [->|Hne].
  - rewrite list_lookup_insert_eq
      by (rewrite length_insert; eapply lookup_lt_Some, Hj). congruence.
  - rewrite list_lookup_insert_ne by congruence.
    apply list_lookup_insert_eq. eapply lookup_lt_Some, Hi.
Qed.

Lemma swap_lookup_other (x : list nat) (i j k : nat) :
  k <> i -> k <> j -> np.swap x i j !! k = x !! k.
Proof.
  intros Hi Hj. unfold np.swap. destruct (x !! i), (x !! j); try reflexivity.
  rewrite !list_lookup_insert_ne by congruence. reflexivity.
Qed.

Lemma length_shuffle_with (i : nat) (js x : list nat) :
  length (shuffle_with i js x) = length x.
Proof.
  revert js x. induction i as [|i IH]; intros [|j js] x; simpl; try reflexivity.
  rewrite IH. apply length_swap.
Qed.

(** The steps from [i] down leave the positions above [i] alone. *)
Lemma shuffle_with_above (i : nat) (js x : list nat) (k : nat) :
  admissible i js -> i < k -> shuffle_with i js x !! k = x !! k.
Proof.
  revert js x. induction i as [|i IH]; intros [|j js] x Hjs Hk; simpl in *;
    try reflexivity; try contradiction.
  destruct Hjs as [Hj Hjs]. rewrite IH by (assumption || lia).
  apply swap_lookup_other; lia.
Qed.

Lemma shuffle_with_app (i : nat) (js y t : list nat) :
  admissible i js -> i < length y ->
  shuffle_with i js (y ++ t) = shuffle_with i js y ++ t.
Proof.
  revert js y. induction i as [|i IH]; intros [|j js] y Hjs Hi; simpl in *;
    try reflexivity; try contradiction.
  destruct Hjs as [Hj Hjs]. rewrite swap_app by lia.
  apply IH; [assumption|]. rewrite length_swap. lia.
Qed.

(** A list ends with its last entry. *)
Lemma split_last (x : list nat) (n z : nat) :
  length x = S n -> x !! n = Some z -> x = take n x ++ [z].
Proof.
  intros Hlen Hz. rewrite <- (take_drop n x) at 1. f_equal.
  rewrite (drop_S _ _ _ Hz), drop_ge by lia. reflexivity.
Qed.

(** Every arrangement of [x] is reached by exactly one admissible sequence
    of draws. *)
Lemma shuffle_with_bijective (i : nat) (x sigma : list nat) :
  NoDup x -> length x = S i -> sigma ≡ₚ x ->
  exists js,
    admissible i js /\ shuffle_with i js x = sigma /\
    forall js', admissible i js' -> shuffle_with i js' x = sigma -> js' = js.
Proof.
  revert x sigma. induction i as [|n IH]; intros x sigma Hnd Hlen Hperm.
  - destruct x as [|a [|? ?]]; try discriminate.
    apply Permutation_singleton_r in Hperm. subst sigma.
    exists []. split; [exact I|]. split; [reflexivity|].
    intros [|? ?] Hadm _; [reflexivity|contradiction].
  - assert (Hls : length sigma = S (S n)) by (rewrite Hperm; assumption).
    destruct (lookup_lt_is_Some_2 sigma (S n) ltac:(lia)) as [z Hz].
    assert (Hzx : z ∈ x) by (rewrite <- Hperm; eapply list_elem_of_lookup_2, Hz).
    apply list_elem_of_lookup in Hzx as [j Hj].
    assert (Hjm : j <= (S n)) by (apply lookup_lt_Some in Hj; lia).
    destruct (lookup_lt_is_Some_2 x (S n) ltac:(lia)) as [xm Hxm].
    pose proof (swap_lookup x (S n) j xm z Hxm Hj) as Hlast.
    pose proof (length_swap x (S n) j) as Hlen1. rewrite Hlen in Hlen1.
    pose proof (split_last _ _ _ Hlen1 Hlast) as Hx1.
    pose proof (split_last _ _ _ Hls Hz) as Hsig.
    set (x' := take (S n) (np.swap x (S n) j)) in *.
    assert (Hperm' : take (S n) sigma ≡ₚ x').
    { apply (Permutation_app_inv_r [z]). rewrite <- Hsig, <- Hx1, Hperm.
      symmetry. apply swap_Permutation. }
    assert (Hnd' : NoDup x').
    { eapply sublist_NoDup; [|apply sublist_take].
      rewrite swap_Permutation. assumption. }
    assert (Hlen' : length x' = S n).
    { unfold x'. rewrite length_take, Hlen1. lia. }
    destruct (IH x' (take (S n) sigma) Hnd' Hlen' Hperm') as (js & Hadm & Hrun & Huniq).
    exists (j :: js). split; [split; assumption|]. split.
    + change (shuffle_with (S n) (j :: js) x)
        with (shuffle_with n js (np.swap x (S n) j)).
      rewrite Hx1, shuffle_with_app by (assumption || lia).
      rewrite Hrun. symmetry. assumption.
    + intros [|j2 js2] Hadm2 Hrun2; [contradiction|].
      destruct Hadm2 as [Hj2 Hadm2].
      cbn [shuffle_with] in Hrun2.
      destruct (lookup_lt_is_Some_2 x j2 ltac:(lia)) as [z2 Hz2].
      assert (z2 = z).
      { pose proof (shuffle_with_above n js2 (np.swap x (S n) j2) (S n) Hadm2 ltac:(lia)) as Hk.
        rewrite Hrun2, Hz, (swap_lookup x (S n) j2 xm z2 Hxm Hz2) in Hk. congruence. }
      subst z2. assert (j2 = j) as -> by exact (NoDup_lookup x j2 j z Hnd Hz2 Hj).
      f_equal. apply Huniq; [assumption|].
      rewrite Hx1, shuffle_with_app in Hrun2 by (assumption || lia).
      rewrite Hsig in Hrun2. apply app_inj_tail in Hrun2 as [Hrun2 _]. exact Hrun2.
Qed.

Lemma permutation_draws (n : nat) (sigma : list nat) :
  sigma ≡ₚ seq 0 n ->
  exists js,
    admissible (n - 1) js /\ shuffle_with (n - 1) js (seq 0 n) = sigma /\
    forall js', admissible (n - 1) js' ->
                shuffle_with (n - 1) js' (seq 0 n) = sigma -> js' = js.
Proof.
  intros Hperm. destruct n as [|n].
  - apply Permutation_nil_r in Hperm. subst sigma.
    exists []. split; [exact I|]. split; [reflexivity|].
    intros [|? ?] Hadm _; [reflexivity|contradiction].
  - replace (S n - 1) with n by lia.
    apply shuffle_with_bijective; [apply NoDup_seq|apply length_seq|assumption].
Qed.

End Shuffle.

(** C6. For [1 <= K <= n] Initialize returns [K] rows: the points at the
    first [K] entries of the shuffled [arange(n)], which are in range and
    pairwise distinct.  The shuffle is a function of its draws, and every
    arrangement of [arange(n)] comes from exactly one admissible sequence of
    draws, so that uniform draws make the sample uniform among the samples
    without replacement.  For [K > n] Initialize fails with a [ValueError]
    and leaves the generator as it was. *)
Theorem init_means_sample {G : Type} {RS : RandomState G}
        (K : Z) (img : matrix) (w : world G) :
  ((1 <= K <= Z.of_nat (len img))%Z ->
   exists idx rs w',
     KMeans._init_means K img w = (Ok (Arr2 (Matrix (ncols img) rs)), w') /\
     idx = take (Z.to_nat K)
             (shuffle_with (len img - 1) (draws (len img - 1) (rng w))
                           (seq 0 (len img))) /\
     admissible (len img - 1) (draws (len img - 1) (rng w)) /\
     length idx = Z.to_nat K /\ length rs = Z.to_nat K /\ NoDup idx /\
     Forall (fun i => i < len img) idx /\
     Forall2 (fun i r => rows img !! i = Some r) idx rs) /\
  ((Z.of_nat (len img) < K)%Z ->
   exists msg,
     KMeans._init_means K img w =
     (Raise (ValueError msg), World (rng w) (calls w ++ [EInit]))) /\
  (forall sigma, sigma ≡ₚ seq 0 (len img) ->
   exists js,
     admissible (len img - 1) js /\
     shuffle_with (len img - 1) js (seq 0 (len img)) = sigma /\
     forall js', admissible (len img - 1) js' ->
                 shuffle_with (len img - 1) js' (seq 0 (len img)) = sigma ->
                 js' = js).
Proof.
  split; [|split].
  - intros HK. destruct (init_means_ok K img w) as (rs & Hinit & Hall); [lia|].
    assert (Hlen : length (sampled (len img) (Z.to_nat K) (rng w)) = Z.to_nat K)
      by (apply length_sampled; lia).
    exists (sampled (len img) (Z.to_nat K) (rng w)), rs. eexists.
    split; [exact Hinit|]. split.
    { unfold sampled. rewrite shuffle_draws. reflexivity. }
    split; [apply admissible_draws|].
    split; [assumption|]. split.
    { rewrite <- (Forall2_length _ _ _ Hall). assumption. }
    split; [apply sampled_NoDup|]. split; [apply sampled_lt|assumption].
  - intros HK. apply init_means_fail. lia.
  - apply permutation_draws.
Qed.

(** Two initial centroids for the two-group image. *)
Lemma init_means_sample_witness :
  exists idx rs w',
    KMeans._init_means 2 img_two_groups (Lcg.seeded 1) =
      (Ok (Arr2 (Matrix (ncols img_two_groups) rs)), w') /\
    idx = take (Z.to_nat 2)
            (shuffle_with (len img_two_groups - 1)
                          (draws (len img_two_groups - 1) (rng (Lcg.seeded 1)))
                          (seq 0 (len img_two_groups))) /\
    admissible (len img_two_groups - 1)
               (draws (len img_two_groups - 1) (rng (Lcg.seeded 1))) /\
    length idx = Z.to_nat 2 /\ length rs = Z.to_nat 2 /\ NoDup idx /\
    Forall (fun i => i < len img_two_groups) idx /\
    Forall2 (fun i r => rows img_two_groups !! i = Some r) idx rs.
Proof.
  apply (proj1 (init_means_sample 2 img_two_groups (Lcg.seeded 1))).
  unfold len. simpl. lia.
Defined.

(** ** Invalid arguments *)

(** C2, as stated, fails for [K = 0]: the sampling succeeds with no
    centroid, and the error is raised inside the first Assign; and for
    [iterations = 0] the error is not an invalid-argument error. *)
Lemma cluster_zero_K_enters_assign :
  KMeans.cluster 0 img_one_pixel 1 (Lcg.seeded 0) =
    (Raise (ValueError "attempt to get argmin of an empty sequence"),
     World 0%N [EInit; EAssign]) /\
  ~ fails_before_any_round (KMeans.cluster 0 img_one_pixel 1 (Lcg.seeded 0)) /\
  KMeans.cluster 1 img_one_pixel 0 (Lcg.seeded 0) =
    (Raise (UnboundLocalError "labels"), World 0%N [EInit]) /\
  ~ fails_before_any_round (KMeans.cluster 1 img_one_pixel 0 (Lcg.seeded 0)).
Proof.
  split; [reflexivity|]. split.
  - intros [_ Hcalls]. vm_compute in Hcalls.
    inversion Hcalls as [|? ? _ Hrest]; subst.
    inversion Hrest as [|? ? Hev _]; subst. discriminate.
  - split; [reflexivity|].
    intros [[msg Hmsg] _]. vm_compute in Hmsg. discriminate.
Qed.

Section InvalidArguments.
Context {G : Type} {RS : RandomState G}.

Lemma cluster_bad_K (K : Z) (img : matrix) (iterations : Z) (w : world G) :
  (K < 0 \/ Z.of_nat (len img) < K)%Z ->
  exists msg,
    KMeans.cluster K img iterations w =
    (Raise (ValueError msg), World (rng w) (calls w ++ [EInit])).
Proof.
  intros HK. destruct (init_means_fail K img w HK) as [msg Hinit].
  exists msg. unfold KMeans.cluster, bind. rewrite Hinit. reflexivity.
Qed.

Lemma cluster_zero_K (img : matrix) (iterations : Z) (w : world G) :
  wf_matrix img -> 1 <= len img -> (1 <= iterations)%Z ->
  KMeans.cluster 0 img iterations w =
  (Raise (ValueError "attempt to get argmin of an empty sequence"),
   World (after_shuffle (len img) (rng w)) (calls w ++ [EInit; EAssign])).
Proof.
  intros Hwf Hn Hit.
  destruct (init_means_ok 0 img w) as (rs & Hinit & Hall); [lia|].
  change (Z.to_nat 0) with 0 in Hall. unfold sampled in Hall. rewrite take_0 in Hall.
  apply Forall2_nil_inv_l in Hall. subst rs.
  unfold KMeans.cluster, bind at 1. rewrite Hinit.
  destruct (Z.to_nat iterations) as [|m] eqn:Em; [lia|].
  unfold bind at 1. cbn [KMeans.for_range]. unfold bind at 1.
  unfold KMeans.step, KMeans._get_nearest_means.
  unfold bind at 1, bind at 1, log, lift. cbn [rng calls KMeans.centroids].
  rewrite get_nearest_means_collect.
  unfold len in Hn. destruct (rows img) as [|p ps] eqn:Hrows; [simpl in Hn; lia|].
  assert (Hp : length p = ncols img).
  { unfold wf_matrix in Hwf. rewrite Hrows in Hwf. inversion Hwf; assumption. }
  cbn [KMeans.collect]. rewrite nearest_mean_argmin by (simpl; assumption).
  cbn. rewrite <- app_assoc. reflexivity.
Qed.

Lemma cluster_no_iteration (K : Z) (img : matrix) (iterations : Z) (w : world G) :
  (0 <= K <= Z.of_nat (len img))%Z -> (iterations < 1)%Z ->
  KMeans.cluster K img iterations w =
  (Raise (UnboundLocalError "labels"),
   World (after_shuffle (len img) (rng w)) (calls w ++ [EInit])).
Proof.
  intros HK Hit.
  destruct (init_means_ok K img w HK) as (rs & Hinit & _).
  unfold KMeans.cluster, bind. rewrite Hinit.
  replace (Z.to_nat iterations) with 0 by lia. reflexivity.
Qed.

End InvalidArguments.

(** C2 (as amended). On an image of at least one pixel: a negative [K] or
    a [K] above the number of pixels makes the sampling fail with a
    [ValueError] before any round and before any draw; [K = 0] with at least
    one iteration fails with a [ValueError] raised inside the first Assign,
    after the shuffle; fewer than one iteration with [0 <= K <= n] fails with
    an [UnboundLocalError] after the shuffle, no round having been entered. *)
Theorem cluster_invalid_arguments {G : Type} {RS : RandomState G}
        (K : Z) (img : matrix) (iterations : Z) (w : world G) :
  wf_matrix img -> 1 <= len img ->
  ((K < 0 \/ Z.of_nat (len img) < K)%Z ->
   exists msg,
     KMeans.cluster K img iterations w =
     (Raise (ValueError msg), World (rng w) (calls w ++ [EInit]))) /\
  (K = 0%Z -> (1 <= iterations)%Z ->
   KMeans.cluster K img iterations w =
   (Raise (ValueError "attempt to get argmin of an empty sequence"),
    World (after_shuffle (len img) (rng w)) (calls w ++ [EInit; EAssign]))) /\
  ((0 <= K <= Z.of_nat (len img))%Z -> (iterations < 1)%Z ->
   KMeans.cluster K img iterations w =
   (Raise (UnboundLocalError "labels"),
    World (after_shuffle (len img) (rng w)) (calls w ++ [EInit]))).
Proof.
  intros Hwf Hn. split; [|split].
  - apply cluster_bad_K.
  - intros -> Hit. apply cluster_zero_K; assumption.
  - apply cluster_no_iteration.
Qed.

(** Five clusters asked of the four pixels of the two-group image. *)
Lemma cluster_invalid_arguments_witness :
  ((5 < 0 \/ Z.of_nat (len img_two_groups) < 5)%Z ->
   exists msg,
     KMeans.cluster 5 img_two_groups 3 (Lcg.seeded 0) =
     (Raise (ValueError msg), World (rng (Lcg.seeded 0)) (calls (Lcg.seeded 0) ++ [EInit]))) /\
  (5%Z = 0%Z -> (1 <= 3)%Z ->
   KMeans.cluster 5 img_two_groups 3 (Lcg.seeded 0) =
   (Raise (ValueError "attempt to get argmin of an empty sequence"),
    World (after_shuffle (len img_two_groups) (rng (Lcg.seeded 0)))
          (calls (Lcg.seeded 0) ++ [EInit; EAssign]))) /\
  ((0 <= 5 <= Z.of_nat (len img_two_groups))%Z -> (3 < 1)%Z ->
   KMeans.cluster 5 img_two_groups 3 (Lcg.seeded 0) =
   (Raise (UnboundLocalError "labels"),
    World (after_shuffle (len img_two_groups) (rng (Lcg.seeded 0)))
          (calls (Lcg.seeded 0) ++ [EInit]))).
Proof.
  apply (cluster_invalid_arguments 5 img_two_groups 3 (Lcg.seeded 0)).
  - repeat constructor.
  - unfold len. simpl. lia.
Defined.

(** ** Determinism *)

Section Determinism.
Context {G : Type} {RS : RandomState G}.

Lemma tracing_ret {A} (a : A) : tracing (ret (G := G) a).
Proof. intros g. exists (Ok a), g, []. intros c. rewrite app_nil_r. reflexivity. Qed.

Lemma tracing_raise {A} (e : exn) : tracing (raise (G := G) (A := A) e).
Proof. intros g. exists (Raise e), g, []. intros c. rewrite app_nil_r. reflexivity. Qed.

Lemma tracing_lift {A} (r : result A) : tracing (lift (G := G) r).
Proof. intros g. exists r, g, []. intros c. rewrite app_nil_r. reflexivity. Qed.

Lemma tracing_log (ev : event) : tracing (log (G := G) ev).
Proof. intros g. exists (Ok tt), g, [ev]. intros c. reflexivity. Qed.

Lemma tracing_bind {A B} (m : M G A) (k : A -> M G B) :
  tracing m -> (forall a, tracing (k a)) -> tracing (bind m k).
Proof.
  intros Hm Hk g. destruct (Hm g) as (r & g1 & evs1 & H1).
  destruct r as [a|e].
  - destruct (Hk a g1) as (r2 & g2 & evs2 & H2).
    exists r2, g2, (evs1 ++ evs2). intros c. unfold bind.
    rewrite H1, H2, app_assoc. reflexivity.
  - exists (Raise e), g1, evs1. intros c. unfold bind. rewrite H1. reflexivity.
Qed.

Lemma tracing_random_choice (n : nat) (K : Z) : tracing (np.random_choice n K).
Proof.
  unfold np.random_choice.
  destruct (_ && _); [apply tracing_raise|].
  destruct (_ <? _)%Z; [apply tracing_raise|].
  destruct (_ <? _)%Z; [apply tracing_raise|].
  apply tracing_bind; [|intros; apply tracing_ret].
  intros g. unfold np.random_permutation. cbn [rng calls].
  destruct (np.shuffle (n - 1) (seq 0 n) g) as [x g'].
  exists (Ok x), g', []. intros c. rewrite app_nil_r. reflexivity.
Qed.

Lemma tracing_for_range (n : nat) (body : KMeans.locals -> M G KMeans.locals) :
  (forall st, tracing (body st)) -> forall st, tracing (KMeans.for_range n body st).
Proof.
  intros Hbody. induction n as [|n IH]; intros st; simpl.
  - apply tracing_ret.
  - apply tracing_bind; [apply Hbody|apply IH].
Qed.

Lemma tracing_cluster (K : Z) (img : matrix) (iterations : Z) :
  tracing (KMeans.cluster K img iterations).
Proof.
  unfold KMeans.cluster.
  apply tracing_bind.
  - unfold KMeans._init_means.
    apply tracing_bind; [apply tracing_log|intros _].
    apply tracing_bind; [apply tracing_random_choice|intros idx].
    apply tracing_bind; [apply tracing_lift|intros m; apply tracing_ret].
  - intros c0. apply tracing_bind; [|intros st; apply tracing_lift].
    apply tracing_for_range. intros st. unfold KMeans.step.
    apply tracing_bind.
    + apply tracing_bind; [apply tracing_log|intros _; apply tracing_lift].
    + intros a. apply tracing_bind; [|intros c; apply tracing_ret].
      apply tracing_bind; [apply tracing_log|intros _; apply tracing_lift].
Qed.

End Determinism.

(** C7. Once the seed is fixed the run is deterministic: two executions
    that seed the generator with the same [s] and cluster the same image with
    the same [K] and iteration count return the same centroids and
    assignment (or the same error) and leave the same generator state,
    whatever the process state was before. *)
Theorem cluster_deterministic_given_seed {G : Type} {RS : RandomState G}
        (K : Z) (img : matrix) (iterations : Z) (s : nat) (w1 w2 : world G) :
  fst ((np.random_seed s ;;; KMeans.cluster K img iterations) w1) =
  fst ((np.random_seed s ;;; KMeans.cluster K img iterations) w2) /\
  rng (snd ((np.random_seed s ;;; KMeans.cluster K img iterations) w1)) =
  rng (snd ((np.random_seed s ;;; KMeans.cluster K img iterations) w2)).
Proof.
  unfold bind at 1 2 3 4, np.random_seed.
  destruct (tracing_cluster K img iterations (seed_state s)) as (r & g' & evs & Hrun).
  rewrite !Hrun. split; reflexivity.
Qed.

(** Without the seed the outcome does depend on the generator state. *)
Lemma cluster_depends_on_generator :
  labels_of (KMeans.cluster 4 img_two_groups 1 (Lcg.seeded 1)) <>
  labels_of (KMeans.cluster 4 img_two_groups 1 (Lcg.seeded 2)).
Proof. vm_compute. discriminate. Qed.

(** ** A single cluster *)

Section SingleCluster.

Lemma all_zero (js : list nat) :
  Forall (fun j => j < 1) js -> js = replicate (length js) 0.
Proof.
  induction 1 as [|j js Hj _ IH]; simpl; [reflexivity|].
  rewrite <- IH. f_equal. lia.
Qed.

Lemma cluster_points_all (img : matrix) :
  cluster_points img (replicate (len img) (fl 0)) 0 = rows img.
Proof.
  unfold cluster_points, len. rewrite <- (select_all (rows img)) at 3.
  f_equal. induction (length (rows img)) as [|n IH]; simpl; [reflexivity|].
  rewrite IH. reflexivity.
Qed.

End SingleCluster.

(** C8. With [K = 1], a non-empty image and at least one round, the run
    returns a single centroid, the arithmetic mean of all the points, and an
    assignment that is zero everywhere. *)
Theorem cluster_single_centroid {G : Type} {RS : RandomState G}
        (img : matrix) (iterations : Z) (w : world G) :
  wf_matrix img -> 1 <= len img -> (1 <= iterations)%Z ->
  exists m im w',
    KMeans.cluster 1 img iterations w =
    (Ok (KMeans.Output (Arr2 (Matrix (ncols img) [m]))
                       (replicate (len img) (fl 0)) im), w') /\
    length m = ncols img /\
    forall j, j < ncols img -> m !! j = Some (mean_coord (rows img) j).
Proof.
  intros Hwf Hn Hit.
  destruct (cluster_ok 1 img iterations w Hwf ltac:(lia) Hit)
    as (rs0 & a & c & im & _ & _ & _ & Hla & Hc & _ & _ & _ & Hcl).
  destruct Hla as (js & -> & Hlen & Hjs).
  change (Z.to_nat 1) with 1 in Hjs.
  rewrite (all_zero js Hjs), Hlen in Hc, Hcl.
  assert (Hrep : map fl (replicate (len img) 0) = replicate (len img) (fl 0)).
  { clear. induction (len img) as [|n IH]; simpl; [reflexivity|]. rewrite IH. reflexivity. }
  rewrite Hrep in Hc, Hcl.
  rewrite get_centroids_ok in Hc by apply length_replicate.
  change (Z.to_nat 1) with 1 in Hc. cbn [seq map np.array] in Hc.
  rewrite cluster_points_all in Hc. injection Hc as <-.
  eexists _, im, _. split; [exact Hcl|]. split.
  - apply length_mean_axis0, Hwf.
  - intros j Hj. apply mean_axis0_lookup; [apply Hwf|assumption].
Qed.

(** Two rounds on the two-group image with a single cluster. *)
Lemma cluster_single_centroid_witness :
  exists m im w',
    KMeans.cluster 1 img_two_groups 2 (Lcg.seeded 3) =
    (Ok (KMeans.Output (Arr2 (Matrix (ncols img_two_groups) [m]))
                       (replicate (len img_two_groups) (fl 0)) im), w') /\
    length m = ncols img_two_groups /\
    forall j, j < ncols img_two_groups ->
              m !! j = Some (mean_coord (rows img_two_groups) j).
Proof.
  apply (cluster_single_centroid img_two_groups 2 (Lcg.seeded 3)).
  - repeat constructor.
  - unfold len. simpl. lia.
  - lia.
Defined.

(** ** Reconstruction through 8-bit indices *)

(** C10. The labels, held as floats, are cast to unsigned 8-bit integers
    before they index the centroids: in a successful run on fewer than
    [2^53] pixels, the colour written for a pixel of label [a] is row
    [a mod 256] of the centroids, which for [a >= 256] is not row [a]. *)
Theorem reconstruct_through_uint8 {G : Type} {RS : RandomState G}
        (K : Z) (img : matrix) (iterations : Z) (w : world G) :
  wf_matrix img -> (1 <= K <= Z.of_nat (len img))%Z -> (1 <= iterations)%Z ->
  (Z.of_nat (len img) < 2 ^ 53)%Z ->
  exists rs js im w',
    KMeans.cluster K img iterations w =
    (Ok (KMeans.Output (Arr2 (Matrix (ncols img) rs)) (map fl js)
                       (Matrix (ncols img) im)), w') /\
    length rs = Z.to_nat K /\ length js = len img /\ length im = len img /\
    forall i a, js !! i = Some a ->
      a < Z.to_nat K /\
      (exists r, im !! i = Some r /\ rs !! (a mod 256) = Some r) /\
      (256 <= a -> a mod 256 <> a).
Proof.
  intros Hwf HK Hit Hn.
  destruct (cluster_ok K img iterations w Hwf HK Hit)
    as (rs0 & a & c & im & _ & _ & _ & Hla & _ & _ & Hs & Hrec & Hcl).
  destruct (reconstruct_ok K img c a Hs Hla)
    as (rs & js & im' & -> & -> & Hrs & Hlen & Hlt & Hrec' & Hall).
  rewrite Hrec' in Hrec. injection Hrec as <-.
  eexists rs, js, im', _. split; [exact Hcl|].
  rewrite Forall_lookup in Hlt.
  split; [assumption|]. split; [assumption|]. split.
  { rewrite <- (Forall2_length _ _ _ Hall). assumption. }
  intros i a Hi. specialize (Hlt _ _ Hi). cbn in Hlt. split; [assumption|]. split.
  - destruct (Forall2_lookup_l _ _ _ _ _ Hall Hi) as (r & Hr & Hrs').
    exists r. split; [assumption|].
    rewrite astype_uint8_fl in Hrs'; [assumption|lia].
  - intros Ha. pose proof (Nat.mod_upper_bound a 256). lia.
Qed.

(** Five rounds on the two-group image with two clusters. *)
Lemma reconstruct_through_uint8_witness :
  exists rs js im w',
    KMeans.cluster 2 img_two_groups 5 (Lcg.seeded 1) =
    (Ok (KMeans.Output (Arr2 (Matrix (ncols img_two_groups) rs)) (map fl js)
                       (Matrix (ncols img_two_groups) im)), w') /\
    length rs = Z.to_nat 2 /\ length js = len img_two_groups /\
    length im = len img_two_groups /\
    forall i a, js !! i = Some a ->
      a < Z.to_nat 2 /\
      (exists r, im !! i = Some r /\ rs !! (a mod 256) = Some r) /\
      (256 <= a -> a mod 256 <> a).
Proof.
  apply (reconstruct_through_uint8 2 img_two_groups 5 (Lcg.seeded 1)).
  - repeat constructor.
  - unfold len. simpl. lia.
  - lia.
  - unfold len. simpl. lia.
Defined.

(** With 257 colours the wrap is visible: the pixel labelled 256 is
    written with the colour of centroid 0, which is not that of centroid
    256. *)
Lemma reconstruct_wraps_at_256 :
  exists out w' r0 r256,
    KMeans.cluster 257 img_257 1 (Lcg.seeded 0) = (Ok out, w') /\
    KMeans.out_labels out !! 251 = Some (fl 256) /\
    np.int_index (KMeans.out_centroids out) [0; 256] = Ok (Matrix 3 [r0; r256]) /\
    rows (KMeans.image_reconstructed out) !! 251 = Some r0 /\
    apart r0 r256.
Proof.
  eexists _, _, _, _. split; [vm_compute; reflexivity|].
  split; [vm_compute; reflexivity|]. split; [vm_compute; reflexivity|].
  split; vm_compute; reflexivity.
Qed.

(** ** As many clusters as points *)

Section AllPoints.

Lemma select_none (rs : list vec) (mask : list bool) :
  (forall i, mask !! i <> Some true) -> np.select rs mask = [].
Proof.
  revert mask. induction rs as [|r rs IH]; intros [|b mask] Hmask; try reflexivity.
  simpl. destruct b.
  - exfalso. apply (Hmask 0). reflexivity.
  - apply IH. intros i. apply (Hmask (S i)).
Qed.

(** A mask with a single [True] selects that one row. *)
Lemma select_single (rs : list vec) (mask : list bool) (t : nat) (r : vec) :
  length mask = length rs -> rs !! t = Some r ->
  (forall i, mask !! i = Some true <-> i = t) ->
  np.select rs mask = [r].
Proof.
  revert mask t. induction rs as [|r0 rs IH]; intros [|b mask] t Hlen Ht Hmask;
    try discriminate.
  simpl. destruct t as [|t].
  - injection Ht as ->.
    assert (b = true) as ->.
    { destruct (Hmask 0) as [_ H0]. specialize (H0 eq_refl). injection H0 as ->.
      reflexivity. }
    f_equal. apply select_none. intros i Hi.
    destruct (Hmask (S i)) as [HS _]. specialize (HS Hi). discriminate.
  - assert (b = false) as ->.
    { destruct b; [|reflexivity]. destruct (Hmask 0) as [H0 _].
      specialize (H0 eq_refl). discriminate. }
    apply (IH mask t).
    + simpl in Hlen. lia.
    + exact Ht.
    + intros i. destruct (Hmask (S i)) as [H1 H2]. split.
      * intros Hi. specialize (H1 Hi). lia.
      * intros ->. apply H2. reflexivity.
Qed.

Lemma eqb_zero_not_nan (d : float) :
  (d =? 0)%float = true -> PrimFloat.is_nan d = false.
Proof. intros Hd. apply eqb_leb in Hd. apply (leb_not_nan _ _ Hd). Qed.

Lemma ltb_zero_not_nan (d : float) :
  (0 <? d)%float = true -> PrimFloat.is_nan d = false.
Proof. intros Hd. apply ltb_leb in Hd. apply (leb_not_nan _ _ Hd). Qed.

(** When the centroids are the separated points themselves, in the order
    [idx], each point is nearest to its own copy. *)
Lemma argmin_own_copy (img : matrix) (idx : list nat) (rs : list vec)
      (i j : nat) (p : vec) :
  separated img -> NoDup idx ->
  Forall2 (fun i r => rows img !! i = Some r) idx rs ->
  i ∈ idx -> rows img !! i = Some p ->
  np.argmin (distances p (Matrix (ncols img) rs)) = Ok j ->
  idx !! j = Some i.
Proof.
  intros (_ & Hself & Hapart) Hnd Hall Hi Hp Harg.
  apply list_elem_of_lookup in Hi as [j0 Hj0].
  destruct (Forall2_lookup_l _ _ _ _ _ Hall Hj0) as (p' & Hp' & Hpp').
  assert (p' = p) as -> by congruence.
  assert (Hpp : (distance p p =? 0)%float = true).
  { rewrite Forall_lookup in Hself. apply (Hself _ _ Hp). }
  (* how far each centroid is *)
  assert (Hdist : forall k d, distances p (Matrix (ncols img) rs) !! k = Some d ->
            exists i' r, idx !! k = Some i' /\ rows img !! i' = Some r /\
                         d = distance p r /\ (i' <> i -> (0 <? d)%float = true) /\
                         (i' = i -> r = p)).
  { intros k d Hk. unfold distances in Hk. simpl in Hk.
    rewrite list_lookup_fmap in Hk.
    destruct (rs !! k) as [r|] eqn:Hr; [|discriminate]. injection Hk as <-.
    destruct (Forall2_lookup_r _ _ _ _ _ Hall Hr) as (i' & Hi' & Hri').
    exists i', r. repeat split; try assumption.
    - intros Hne. apply (Hapart i i' p r); auto.
    - intros ->. congruence. }
  destruct (argmin_spec _ _ Harg) as [Hnear _].
  destruct Hnear as (d & Hd & Hmin & _).
  { apply Forall_lookup. intros k x Hk.
    destruct (Hdist k x Hk) as (i' & r & _ & _ & -> & Hfar & Hsame).
    destruct (decide (i' = i)) as [->|Hne].
    - rewrite (Hsame eq_refl). apply eqb_zero_not_nan. assumption.
    - apply ltb_zero_not_nan. auto. }
  destruct (Hdist j d Hd) as (i' & r & Hi' & _ & Hdr & Hfar & _).
  destruct (decide (i' = i)) as [->|Hne]; [assumption|exfalso].
  specialize (Hfar Hne).
  assert (Hle : (d <=? distance p p)%float = true).
  { apply (Hmin j0). unfold distances. simpl.
    rewrite list_lookup_fmap, Hp'. reflexivity. }
  pose proof (leb_trans _ _ _ Hle (eqb_leb _ _ Hpp)) as Hd0.
  rewrite (ltb_not_leb _ _ Hfar) in Hd0. discriminate.
Qed.

(** The labels being the inverse of the sampling order [idx], cluster [k]
    holds the one point that was sampled as centroid [k]. *)
Lemma cluster_points_own (img : matrix) (idx js : list nat) (k t : nat) (r : vec) :
  (Z.of_nat (len img) < 2 ^ 53)%Z -> NoDup idx -> length idx = len img ->
  Forall2 (fun i j => idx !! j = Some i) (seq 0 (len img)) js ->
  idx !! k = Some t -> rows img !! t = Some r ->
  cluster_points img (map fl js) k = [r].
Proof.
  intros Hn Hnd Hlen Hinv Hk Ht.
  assert (Hljs : length js = len img).
  { rewrite <- (Forall2_length _ _ _ Hinv), length_seq. reflexivity. }
  assert (Hklt : k < len img) by (rewrite <- Hlen; eapply lookup_lt_Some, Hk).
  unfold cluster_points. apply (select_single _ _ t); [|assumption|].
  - rewrite !length_map. exact Hljs.
  - intros i. rewrite !list_lookup_fmap. split.
    + intros Hi. destruct (js !! i) as [j|] eqn:Hj; [|discriminate].
      simpl in Hi. injection Hi as Hi.
      destruct (Forall2_lookup_r _ _ _ _ _ Hinv Hj) as (i' & Hi' & Hidx).
      apply lookup_seq in Hi' as [-> _]. simpl in Hidx.
      assert (Hjlt : j < len img) by (rewrite <- Hlen; eapply lookup_lt_Some, Hidx).
      rewrite fl_eqb in Hi by lia. apply bool_decide_eq_true in Hi. subst j.
      congruence.
    + intros ->.
      assert (Htlt : t < len img) by (eapply lookup_lt_Some, Ht).
      destruct (Forall2_lookup_l _ _ _ _ _ Hinv (lookup_seq_lt 0 _ _ Htlt))
        as (j & Hj & Hidx).
      simpl in Hidx. rewrite Hj. simpl.
      assert (j = k) as -> by (eapply NoDup_lookup; eassumption).
      rewrite fl_eqb by lia. rewrite bool_decide_eq_true_2 by reflexivity.
      reflexivity.
Qed.

End AllPoints.

(** C9, as stated, fails when points repeat: of three equal pixels all
    are bound to centroid 0, whose value after the round is not the pixels'
    value (the mean of three copies is rounded), and the other two centroids
    are NaN rows. *)
Lemma cluster_equal_points_share_centroid :
  exists c im w',
    KMeans.cluster 3 img_three_equal 1 (Lcg.seeded 0) =
    (Ok (KMeans.Output (Arr2 (Matrix 1 [[c]; [nan]; [nan]]))
                       [fl 0; fl 0; fl 0] im), w') /\
    (c =? fl 51 / 255)%float = false.
Proof. eexists _, _, _. split; vm_compute; reflexivity. Qed.

(** C9 (as amended). With [K] equal to the number of points, fewer than
    [2^53] of them and separated, one iteration leaves as centroids the
    points themselves, in the order they were sampled, and binds each point
    to the centroid that is the point itself; the assignment is a
    permutation of the cluster indices. *)
Theorem cluster_points_as_centroids {G : Type} {RS : RandomState G}
        (img : matrix) (w : world G) :
  wf_matrix img -> 1 <= len img -> (Z.of_nat (len img) < 2 ^ 53)%Z ->
  separated img ->
  exists rs js im w',
    KMeans.cluster (Z.of_nat (len img)) img 1 w =
    (Ok (KMeans.Output (Arr2 (Matrix (ncols img) rs)) (map fl js) im), w') /\
    rs ≡ₚ rows img /\
    js ≡ₚ seq 0 (len img) /\
    forall i p, rows img !! i = Some p ->
                exists j, js !! i = Some j /\ rs !! j = Some p.
Proof.
  intros Hwf Hn Hbig Hsep.
  destruct (cluster_ok (Z.of_nat (len img)) img 1 w Hwf ltac:(lia) ltac:(lia))
    as (rs0 & a & c & im & _ & Hsampled & Ha & _ & Hc & _ & _ & _ & Hcl).
  rewrite Nat2Z.id in Hsampled.
  set (idx := sampled (len img) (len img) (rng w)) in *.
  assert (Hperm : idx ≡ₚ seq 0 (len img)) by apply sampled_all.
  assert (Hnd : NoDup idx) by apply sampled_NoDup.
  assert (Hlen : length idx = len img) by (apply length_sampled; lia).
  (* the E-step binds each point to its own copy *)
  destruct (get_nearest_means_ok img (Matrix (ncols img) rs0) Hwf eq_refl)
    as (js & Hjs & Harg).
  { simpl. intros ->. apply Forall2_length in Hsampled. simpl in Hsampled. lia. }
  change (Z.to_nat 1) with 1 in Ha. unfold Run_labels in Ha. simpl in Ha.
  rewrite Hjs in Ha. injection Ha as <-.
  assert (Hinv : Forall2 (fun i j => idx !! j = Some i) (seq 0 (len img)) js).
  { apply Forall2_same_length_lookup. split.
    - rewrite length_seq. eapply Forall2_length, Harg.
    - intros i i' j Hi' Hj. apply lookup_seq in Hi' as [-> Hi].
      destruct (lookup_lt_is_Some_2 (rows img) i Hi) as [p Hp].
      apply (argmin_own_copy img idx rs0 i j p); try assumption.
      + rewrite Hperm. apply elem_of_seq. lia.
      + exact (Forall2_lookup_lr _ _ _ _ _ _ Harg Hp Hj). }
  (* the M-step gives every centroid back *)
  rewrite get_centroids_ok in Hc
    by (rewrite length_map; symmetry; eapply Forall2_length, Harg).
  rewrite Nat2Z.id in Hc.
  assert (Hrows : map (fun k => np.mean_axis0
                     (Matrix (ncols img) (cluster_points img (map fl js) k)))
                      (seq 0 (len img)) = rs0).
  { apply list_eq. intros k. rewrite list_lookup_fmap.
    destruct (decide (k < len img)) as [Hk|Hk].
    - rewrite lookup_seq_lt by assumption. simpl.
      destruct (lookup_lt_is_Some_2 idx k ltac:(lia)) as [t Ht].
      destruct (Forall2_lookup_l _ _ _ _ _ Hsampled Ht) as (r & Hr & Htr).
      rewrite (cluster_points_own img idx js k t r) by assumption.
      rewrite Hr. f_equal.
      destruct Hsep as (Hmean & _ & _). rewrite Forall_lookup in Hmean.
      apply (Hmean _ _ Htr).
    - rewrite lookup_seq_ge by lia. simpl. symmetry. apply lookup_ge_None.
      rewrite <- (Forall2_length _ _ _ Hsampled). lia. }
  rewrite Hrows in Hc.
  rewrite array_nonempty in Hc
    by (intros ->; apply Forall2_length in Hsampled; simpl in Hsampled; lia).
  injection Hc as <-.
  eexists rs0, js, im, _. split; [exact Hcl|]. split; [|split].
  - assert (Hrs0 : rs0 = (fun i => default [] (rows img !! i)) <$> idx).
    { apply list_eq. intros k. rewrite list_lookup_fmap.
      destruct (idx !! k) as [t|] eqn:Ht; simpl.
      - destruct (Forall2_lookup_l _ _ _ _ _ Hsampled Ht) as (r & -> & ->). reflexivity.
      - apply lookup_ge_None. rewrite <- (Forall2_length _ _ _ Hsampled).
        apply lookup_ge_None. assumption. }
    rewrite Hrs0, Hperm.
    replace ((fun i => default [] (rows img !! i)) <$> seq 0 (len img)) with (rows img);
      [reflexivity|].
    apply list_eq. intros k. rewrite list_lookup_fmap.
    destruct (decide (k < len img)) as [Hk|Hk].
    + rewrite lookup_seq_lt by assumption. simpl.
      destruct (lookup_lt_is_Some_2 (rows img) k Hk) as [r ->]. reflexivity.
    + rewrite lookup_seq_ge by lia. simpl. apply lookup_ge_None.
      unfold len in Hk. lia.
  - apply NoDup_Permutation.
    + apply NoDup_alt. intros i1 i2 j H1 H2.
      destruct (Forall2_lookup_r _ _ _ _ _ Hinv H1) as (x1 & Hx1 & Hj1).
      destruct (Forall2_lookup_r _ _ _ _ _ Hinv H2) as (x2 & Hx2 & Hj2).
      apply lookup_seq in Hx1 as [-> _]. apply lookup_seq in Hx2 as [-> _].
      simpl in Hj1, Hj2. congruence.
    + apply NoDup_seq.
    + intros j. rewrite elem_of_seq. split.
      * intros Hj. apply list_elem_of_lookup in Hj as [i Hi].
        destruct (Forall2_lookup_r _ _ _ _ _ Hinv Hi) as (x & _ & Hjx).
        apply lookup_lt_Some in Hjx. lia.
      * intros [_ Hj]. simpl in Hj.
        destruct (lookup_lt_is_Some_2 idx j ltac:(lia)) as [t Ht].
        assert (Htlt : t < len img).
        { apply list_elem_of_lookup_2 in Ht. rewrite Hperm in Ht.
          apply elem_of_seq in Ht. lia. }
        destruct (Forall2_lookup_l _ _ _ _ _ Hinv (lookup_seq_lt 0 _ _ Htlt))
          as (j' & Hj' & Hidx).
        simpl in Hidx. assert (j' = j) as -> by (eapply NoDup_lookup; eassumption).
        eapply list_elem_of_lookup_2, Hj'.
  - intros i p Hp.
    assert (Hi : i < len img) by (eapply lookup_lt_Some, Hp).
    destruct (Forall2_lookup_l _ _ _ _ _ Hinv (lookup_seq_lt 0 _ _ Hi))
      as (j & Hj & Hidx).
    simpl in Hidx. exists j. split; [assumption|].
    destruct (Forall2_lookup_l _ _ _ _ _ Hsampled Hidx) as (r & Hr & Hir).
    congruence.
Qed.

(** The four distinct pixels of the two-group image with four clusters. *)
Lemma cluster_points_as_centroids_witness :
  exists rs js im w',
    KMeans.cluster (Z.of_nat (len img_two_groups)) img_two_groups 1 (Lcg.seeded 7) =
    (Ok (KMeans.Output (Arr2 (Matrix (ncols img_two_groups) rs)) (map fl js) im), w') /\
    rs ≡ₚ rows img_two_groups /\
    js ≡ₚ seq 0 (len img_two_groups) /\
    forall i p, rows img_two_groups !! i = Some p ->
                exists j, js !! i = Some j /\ rs !! j = Some p.
Proof.
  apply (cluster_points_as_centroids img_two_groups (Lcg.seeded 7)).
  - repeat constructor.
  - unfold len. simpl. lia.
  - unfold len. simpl. lia.
  - split; [|split].
    + repeat constructor.
    + repeat constructor.
    + intros i j p q Hp Hq Hne.
      destruct i as [|[|[|[|i]]]], j as [|[|[|[|j]]]]; simpl in Hp, Hq;
        try discriminate; try congruence;
        injection Hp as <-; injection Hq as <-; reflexivity.
Defined.


(** ** Reading and writing the image *)

Section ImageIO.

Lemma chunks_concat {A} (ls : list (list A)) (k : nat) :
  Forall (fun l => length l = k) ls -> chunks (length ls) k (concat ls) = ls.
Proof.
  induction 1 as [|l ls Hl _ IH]; simpl; [reflexivity|].
  subst k. rewrite take_app_length, drop_app_length, IH. reflexivity.
Qed.

Lemma length_chunks {A} (n k : nat) (l : list A) : length (chunks n k l) = n.
Proof. revert l. induction n as [|n IH]; intros l; simpl; [|rewrite IH]; reflexivity. Qed.

Lemma length_concat_uniform {A} (ls : list (list A)) (k : nat) :
  Forall (fun l => length l = k) ls -> length (concat ls) = length ls * k.
Proof.
  induction 1 as [|l ls Hl _ IH]; simpl; [reflexivity|].
  rewrite length_app, IH, Hl. reflexivity.
Qed.

(** Scaling a byte to a float and back loses nothing. *)
Lemma unscale_scale_byte (b : Byte.byte) : unscale_byte (scale_byte b) = b.
Proof. destruct b; vm_compute; reflexivity. Qed.

Lemma scale_byte_unit (b : Byte.byte) :
  (0 <=? scale_byte b)%float = true /\ (scale_byte b <=? 1)%float = true.
Proof. destruct b; vm_compute; split; reflexivity. Qed.

Lemma wf_array3_pixels {A} (a : array3 A) :
  wf_array3 a ->
  Forall (fun px => length px = snd (shape3 a)) (concat (planes a)) /\
  length (concat (planes a)) = fst (fst (shape3 a)) * snd (fst (shape3 a)).
Proof.
  intros [Hw Hplanes]. split.
  - apply Forall_concat. eapply Forall_impl; [exact Hplanes|].
    intros plane [_ Hpx]. exact Hpx.
  - rewrite <- Hw. apply length_concat_uniform.
    eapply Forall_impl; [exact Hplanes|]. intros plane [Hh _]. exact Hh.
Qed.

End ImageIO.

(** X1. [_load_image] turns a well-formed decoded array of shape
    [(w, h, c)] into a well-formed matrix of [w * h] rows and [c] columns
    whose entries all lie between 0 and 1, and hands the shape back
    unchanged. *)
Theorem load_image_unit_range (a : array3 Byte.byte) :
  wf_array3 a ->
  exists m,
    _load_image (Decoded3 a) = Ok (m, shape3 a) /\
    wf_matrix m /\ ncols m = snd (shape3 a) /\
    len m = fst (fst (shape3 a)) * snd (fst (shape3 a)) /\
    Forall (Forall (fun x => (0 <=? x)%float = true /\ (x <=? 1)%float = true))
           (rows m).
Proof.
  intros Hwf. destruct (wf_array3_pixels a Hwf) as [Hpx Hlen].
  eexists. split; [reflexivity|]. unfold wf_matrix, len. simpl.
  split; [|split; [reflexivity|split]].
  - rewrite Forall_fmap. eapply Forall_impl; [exact Hpx|].
    intros px Hl. simpl. rewrite length_map. exact Hl.
  - rewrite length_map. exact Hlen.
  - rewrite Forall_fmap. apply Forall_forall. intros px _. simpl.
    rewrite Forall_fmap. apply Forall_forall. intros b _. apply scale_byte_unit.
Qed.

(** An image of one row of two pixels. *)
Lemma load_image_unit_range_witness :
  exists m,
    _load_image (Decoded3 img_tiny) = Ok (m, shape3 img_tiny) /\
    wf_matrix m /\ ncols m = snd (shape3 img_tiny) /\
    len m = fst (fst (shape3 img_tiny)) * snd (fst (shape3 img_tiny)) /\
    Forall (Forall (fun x => (0 <=? x)%float = true /\ (x <=? 1)%float = true))
           (rows m).
Proof.
  apply (load_image_unit_range img_tiny).
  split; [reflexivity|]. repeat constructor.
Defined.

(** X2. Writing back what was loaded gives the decoded image again: the
    scaling by 255 and the truncation to bytes lose nothing, and the two
    reshapes undo each other. *)
Theorem image_from_numpy_load_image (a : array3 Byte.byte) :
  wf_array3 a ->
  rbind (_load_image (Decoded3 a))
        (fun loaded => _image_from_numpy (fst loaded) (snd loaded)) = Ok a.
Proof.
  intros Hwf. destruct (wf_array3_pixels a Hwf) as [Hpx Hlen].
  destruct Hwf as [Hw Hplanes].
  destruct a as [[[w h] c] ps]. simpl in *.
  unfold _image_from_numpy, reshape3, len. simpl.
  rewrite length_map, Hlen, Nat.eqb_refl. do 2 f_equal.
  assert (Hid : map (map unscale_byte) (map (map scale_byte) (concat ps)) = concat ps).
  { rewrite map_map. rewrite <- (map_id (concat ps)) at 2.
    apply map_ext. intros px. rewrite map_map.
    rewrite <- (map_id px) at 2. apply map_ext. apply unscale_scale_byte. }
  rewrite Hid, <- Hlen, chunks_concat by assumption.
  rewrite <- Hw. apply chunks_concat.
  eapply Forall_impl; [exact Hplanes|]. intros plane [Hh _]. exact Hh.
Qed.

Lemma image_from_numpy_load_image_witness :
  rbind (_load_image (Decoded3 img_tiny))
        (fun loaded => _image_from_numpy (fst loaded) (snd loaded)) = Ok img_tiny.
Proof.
  apply (image_from_numpy_load_image img_tiny).
  split; [reflexivity|]. repeat constructor.
Defined.

Section Pipeline.
Context {G : Type} {RS : RandomState G}.

Lemma chunks_exact {A} (n k : nat) (l : list A) :
  length l = n * k ->
  Forall (fun x => length x = k) (chunks n k l) /\ concat (chunks n k l) = l.
Proof.
  revert l. induction n as [|n IH]; intros l Hl; simpl in *.
  - split; [constructor|]. destruct l; [reflexivity|discriminate].
  - destruct (IH (drop k l)) as [Hall Hcat]; [rewrite length_drop; lia|].
    split.
    + constructor; [rewrite length_take; lia|assumption].
    + rewrite Hcat. apply take_drop.
Qed.

Lemma elem_of_concat {A} (x : A) (ls : list (list A)) :
  x ∈ concat ls <-> exists l, x ∈ l /\ l ∈ ls.
Proof.
  rewrite list_elem_of_In, in_concat. split.
  - intros (l & Hl & Hx). exists l. rewrite !list_elem_of_In. split; assumption.
  - intros (l & Hx & Hl). exists l. rewrite <- !list_elem_of_In. split; assumption.
Qed.

Lemma load_image_ok (a : array3 Byte.byte) :
  wf_array3 a ->
  exists m,
    _load_image (Decoded3 a) = Ok (m, shape3 a) /\
    wf_matrix m /\ ncols m = snd (shape3 a) /\
    len m = fst (fst (shape3 a)) * snd (fst (shape3 a)).
Proof.
  intros Hwf. destruct (wf_array3_pixels a Hwf) as [Hpx Hlen].
  eexists. split; [reflexivity|]. unfold wf_matrix, len. simpl.
  split; [|split; [reflexivity|]].
  - rewrite Forall_fmap. eapply Forall_impl; [exact Hpx|].
    intros px Hl. simpl. rewrite length_map. exact Hl.
  - rewrite length_map. exact Hlen.
Qed.

(** The centroids Recompute returns have the width of the image. *)
Lemma get_centroids_width (K : Z) (img : matrix) (a : vec) (rs : list vec) :
  wf_matrix img -> length a = len img ->
  KMeans.get_centroids K img a = Ok (Arr2 (Matrix (ncols img) rs)) ->
  Forall (fun r => length r = ncols img) rs.
Proof.
  intros Hwf Hlen Hc. rewrite get_centroids_ok in Hc by assumption.
  injection Hc as Hc.
  remember (map (fun k => np.mean_axis0
              (Matrix (ncols img) (cluster_points img a k))) (seq 0 (Z.to_nat K)))
    as l eqn:El.
  destruct l as [|r l]; [discriminate|]. injection Hc as <-. rewrite El.
  rewrite Forall_fmap. apply Forall_forall. intros k' _. simpl.
  apply length_mean_axis0, select_wf, Hwf.
Qed.

Lemma image_from_numpy_ok (c : nat) (im : list vec) (w h : nat) :
  length im = w * h -> Forall (fun r => length r = c) im ->
  exists ps,
    _image_from_numpy (Matrix c im) (w, h, c) = Ok (Array3 (w, h, c) ps) /\
    wf_array3 (Array3 (w, h, c) ps) /\
    concat ps = map (map unscale_byte) im.
Proof.
  intros Hlen Hwf. unfold _image_from_numpy, reshape3, len. simpl.
  rewrite Hlen, Nat.eqb_refl.
  assert (Hrows : chunks (w * h) c (concat (map (map unscale_byte) im))
                  = map (map unscale_byte) im).
  { rewrite <- Hlen, <- (length_map (map unscale_byte) im). apply chunks_concat.
    rewrite Forall_fmap. eapply Forall_impl; [exact Hwf|].
    intros r Hr. simpl. rewrite length_map. exact Hr. }
  rewrite Hrows.
  destruct (chunks_exact w h (map (map unscale_byte) im)) as [Hall Hcat];
    [rewrite length_map; exact Hlen|].
  eexists. split; [reflexivity|]. split; [|exact Hcat].
  split; simpl; [apply length_chunks|].
  apply Forall_forall. intros plane Hplane. split.
  - rewrite Forall_forall in Hall. apply Hall, Hplane.
  - apply Forall_forall. intros px Hpx.
    assert (Hin : px ∈ map (map unscale_byte) im).
    { rewrite <- Hcat. apply elem_of_concat. exists plane. split; assumption. }
    apply list_elem_of_fmap in Hin as (r & -> & Hr). rewrite length_map.
    rewrite Forall_forall in Hwf. apply Hwf, Hr.
Qed.

End Pipeline.

(** X3. Compressing a well-formed image of [n = w * h] pixels into [K]
    colours, [1 <= K <= n], with at least one iteration succeeds: the array
    written has the shape of the one read, and its pixels are taken from a
    palette of [K] colours, the centroids scaled back to bytes. *)
Theorem cluster_image_palette {G : Type} {RS : RandomState G}
        (K : Z) (a : array3 Byte.byte) (iterations : Z) (w : world G) :
  wf_array3 a ->
  (1 <= K <= Z.of_nat (fst (fst (shape3 a)) * snd (fst (shape3 a))))%Z ->
  (1 <= iterations)%Z ->
  exists out palette w',
    cluster_image K (Decoded3 a) iterations w = (Ok out, w') /\
    shape3 out = shape3 a /\ wf_array3 out /\
    length palette = Z.to_nat K /\
    Forall (Forall (fun px => px ∈ palette)) (planes out).
Proof.
  intros Hwf HK Hit.
  destruct (load_image_ok a Hwf) as (m & Hload & Hwfm & Hcols & Hlen).
  rewrite <- Hlen in HK.
  destruct (cluster_ok K m iterations w Hwfm HK Hit)
    as (rs0 & lbl & c & im & _ & _ & _ & Hla & Hc & _ & Hs & Hrec & Hcl).
  destruct (reconstruct_ok K m c lbl Hs Hla)
    as (rs & js & im' & -> & -> & Hrs & Hljs & _ & Hrec' & Hall).
  rewrite Hrec' in Hrec. injection Hrec as <-.
  pose proof (get_centroids_width K m _ rs Hwfm (length_label_array _ _ _ Hla) Hc)
    as Hwidth.
  assert (Hin : Forall (fun r => r ∈ rs) im').
  { apply Forall_forall. intros r Hr. apply list_elem_of_lookup in Hr as [i Hi].
    destruct (Forall2_lookup_r _ _ _ _ _ Hall Hi) as (j & _ & Hj).
    eapply list_elem_of_lookup_2, Hj. }
  destruct a as [[[wd h] ch] ps]. cbn [shape3 planes fst snd] in *.
  destruct (image_from_numpy_ok (ncols m) im' wd h) as (out & Hout & Hwfo & Hcat).
  { rewrite <- (Forall2_length _ _ _ Hall), Hljs. exact Hlen. }
  { eapply Forall_impl; [exact Hin|]. intros r Hr.
    rewrite Forall_forall in Hwidth. apply Hwidth, Hr. }
  rewrite Hcols in Hout, Hwfo.
  exists (Array3 (wd, h, ch) out), (map (map unscale_byte) rs). eexists.
  split; [|split; [reflexivity|split; [exact Hwfo|split]]].
  - unfold cluster_image, bind, lift. rewrite Hload. cbn [fst snd].
    rewrite Hcl. cbn [KMeans.image_reconstructed]. rewrite Hcols, Hout. reflexivity.
  - rewrite length_map. exact Hrs.
  - simpl. apply Forall_forall. intros plane Hplane.
    apply Forall_forall. intros px Hpx.
    assert (Hpx' : px ∈ map (map unscale_byte) im').
    { rewrite <- Hcat. apply elem_of_concat. exists plane. split; assumption. }
    apply list_elem_of_fmap in Hpx' as (r & -> & Hr).
    apply list_elem_of_fmap. exists r. split; [reflexivity|].
    rewrite Forall_forall in Hin. apply Hin, Hr.
Qed.

(** The two-pixel image, compressed to two colours in one iteration. *)
Lemma cluster_image_palette_witness :
  exists out palette w',
    cluster_image 2 (Decoded3 img_tiny) 1 (Lcg.seeded 1) = (Ok out, w') /\
    shape3 out = shape3 img_tiny /\ wf_array3 out /\
    length palette = Z.to_nat 2 /\
    Forall (Forall (fun px => px ∈ palette)) (planes out).
Proof.
  apply (cluster_image_palette 2 img_tiny 1 (Lcg.seeded 1)).
  - split; [reflexivity|]. repeat constructor.
  - simpl. lia.
  - lia.
Defined.


(** ** The name of the compressed file *)

Section Filename.

Lemma append_cons (x : Ascii.ascii) (a b : string) :
  String x a +:+ b = String x (a +:+ b).
Proof. reflexivity. Qed.

Lemma append_nil_l (b : string) : EmptyString +:+ b = b.
Proof. reflexivity. Qed.

Lemma append_assoc (a b c : string) : (a +:+ b) +:+ c = a +:+ (b +:+ c).
Proof.
  induction a as [|x a IH]; [reflexivity|].
  rewrite !append_cons, IH. reflexivity.
Qed.

Lemma append_inv_head (a b c : string) : a +:+ b = a +:+ c -> b = c.
Proof.
  induction a as [|x a IH]; [auto|].
  rewrite !append_cons. intros [= H]. auto.
Qed.

Lemma split_nonempty (sep : Ascii.ascii) (s : string) : split sep s <> [].
Proof.
  destruct s as [|c s]; simpl; [discriminate|].
  destruct (Ascii.eqb c sep); [discriminate|].
  destruct (split sep s); discriminate.
Qed.

Lemma split_no_sep (sep : Ascii.ascii) (s : string) :
  has_char sep s = false -> split sep s = [s].
Proof.
  induction s as [|c s IH]; simpl; [reflexivity|].
  intros H. apply orb_false_iff in H as [Hc Hs].
  rewrite Hc, (IH Hs). reflexivity.
Qed.

(** The pieces of [a + sep + b] are those of [a], then those of [b]. *)
Lemma split_app (sep : Ascii.ascii) (a b : string) :
  split sep (a +:+ String sep b) = split sep a ++ split sep b.
Proof.
  induction a as [|c a IH]; [rewrite append_nil_l|rewrite append_cons]; simpl.
  - rewrite Ascii.eqb_refl. reflexivity.
  - destruct (Ascii.eqb c sep); rewrite IH; [reflexivity|].
    pose proof (split_nonempty sep a) as Hne.
    destruct (split sep a) as [|x xs]; [congruence|reflexivity].
Qed.

Lemma py_index_first {A} (x : A) (l : list A) : py_index (x :: l) 0 = Ok x.
Proof.
  unfold py_index. simpl length.
  replace (0 <? 0)%Z with false by reflexivity.
  replace ((0 <=? 0) && (0 <? Z.of_nat (S (length l))))%Z with true; [reflexivity|].
  symmetry. apply andb_true_iff. split; [reflexivity|]. apply Z.ltb_lt. lia.
Qed.

Lemma py_index_last {A} (l : list A) (x : A) : py_index (l ++ [x]) (-1) = Ok x.
Proof.
  unfold py_index. rewrite length_app. simpl length.
  replace (-1 <? 0)%Z with true by reflexivity.
  replace (Z.of_nat (length l + 1) + -1)%Z with (Z.of_nat (length l)) by lia.
  replace ((0 <=? Z.of_nat (length l)) &&
           (Z.of_nat (length l) <? Z.of_nat (length l + 1)))%Z with true.
  - rewrite Nat2Z.id, lookup_app_r, Nat.sub_diag by lia. reflexivity.
  - symmetry. apply andb_true_iff. split; [apply Z.leb_le|apply Z.ltb_lt]; lia.
Qed.

(** The name is made of the first and of the last piece. *)
Lemma compressed_filename_pieces (s first last : string) (mid : list string) :
  split dot s = first :: mid ++ [last] ->
  compressed_filename s = Ok (first +:+ "_compressed." +:+ last).
Proof.
  intros Hs. unfold compressed_filename. rewrite Hs, py_index_first. simpl rbind.
  rewrite app_comm_cons, py_index_last. reflexivity.
Qed.

(** A name is its first piece followed by nothing or by a full stop. *)
Lemma split_head (s : string) :
  exists first segs rest,
    split dot s = first :: segs /\ s = first +:+ rest /\
    (rest = EmptyString \/ exists r, rest = String dot r).
Proof.
  induction s as [|c s (first & segs & rest & Hs & Heq & Hrest)]; simpl.
  - exists EmptyString, [], EmptyString. auto.
  - destruct (Ascii.eqb c dot) eqn:Hc.
    + apply Ascii.eqb_eq in Hc. subst c.
      exists EmptyString, (split dot s), (String dot s). eauto.
    + rewrite Hs. exists (String c first), segs, rest.
      split; [reflexivity|]. split; [rewrite append_cons; congruence|assumption].
Qed.

End Filename.

(** X4. For a name with a single full stop the compressed file keeps the
    stem and the extension: [stem.ext] becomes [stem_compressed.ext]. *)
Theorem compressed_filename_one_dot (stem ext : string) :
  has_char dot stem = false -> has_char dot ext = false ->
  compressed_filename (stem +:+ String dot ext) =
  Ok (stem +:+ "_compressed." +:+ ext).
Proof.
  intros Hstem Hext. apply (compressed_filename_pieces _ stem ext []).
  rewrite split_app, (split_no_sep _ _ Hstem), (split_no_sep _ _ Hext). reflexivity.
Qed.

(** The image [pic.png]. *)
Lemma compressed_filename_one_dot_witness :
  compressed_filename ("pic" +:+ String dot "png") =
  Ok ("pic" +:+ "_compressed." +:+ "png").
Proof. apply (compressed_filename_one_dot "pic" "png"); reflexivity. Defined.

(** X5. With several full stops in the name, only what precedes the first
    and what follows the last are kept: whatever lies between them, a
    directory included, is dropped from the name of the compressed file. *)
Theorem compressed_filename_drops_middle (stem mid ext : string) :
  has_char dot stem = false -> has_char dot ext = false ->
  compressed_filename (stem +:+ String dot (mid +:+ String dot ext)) =
  Ok (stem +:+ "_compressed." +:+ ext).
Proof.
  intros Hstem Hext. apply (compressed_filename_pieces _ stem ext (split dot mid)).
  rewrite !split_app, (split_no_sep _ _ Hstem), (split_no_sep _ _ Hext). reflexivity.
Qed.

(** The image [./pic.png] of the current directory. *)
Lemma compressed_filename_drops_middle_witness :
  compressed_filename ("" +:+ String dot ("/pic" +:+ String dot "png")) =
  Ok ("" +:+ "_compressed." +:+ "png").
Proof. apply (compressed_filename_drops_middle "" "/pic" "png"); reflexivity. Defined.

(** X6. A name without a full stop is used both as stem and as extension:
    [pic] becomes [pic_compressed.pic]. *)
Theorem compressed_filename_no_dot (s : string) :
  has_char dot s = false ->
  compressed_filename s = Ok (s +:+ "_compressed." +:+ s).
Proof.
  intros Hs. unfold compressed_filename. rewrite (split_no_sep _ _ Hs).
  rewrite py_index_first. cbn [rbind].
  rewrite (py_index_last [] s : py_index [s] (-1) = Ok s). reflexivity.
Qed.

Lemma compressed_filename_no_dot_witness :
  compressed_filename "pic" = Ok ("pic" +:+ "_compressed." +:+ "pic").
Proof. apply (compressed_filename_no_dot "pic"). reflexivity. Defined.

(** X7. Whatever the name of the image, naming the compressed file never
    fails, and the name differs from that of the image: the image is never
    overwritten. *)
Theorem compressed_filename_differs (s : string) :
  exists t, compressed_filename s = Ok t /\ t <> s.
Proof.
  destruct (split_head s) as (first & segs & rest & Hs & Heq & Hrest).
  assert (Hlast : exists last, compressed_filename s =
                               Ok (first +:+ "_compressed." +:+ last)).
  { destruct segs as [|x segs _] using rev_ind.
    - exists first. unfold compressed_filename. rewrite Hs, py_index_first.
      cbn [rbind].
      rewrite (py_index_last [] first : py_index [first] (-1) = Ok first).
      reflexivity.
    - exists x. apply (compressed_filename_pieces _ first x segs). exact Hs. }
  destruct Hlast as [last Hlast].
  eexists. split; [exact Hlast|]. intros Habs. rewrite Heq in Habs.
  apply append_inv_head in Habs.
  destruct Hrest as [->|[r ->]]; [discriminate|].
  vm_compute in Habs. discriminate.
Qed.

(** ** The clusters partition the pixels; a reproduced round is final *)

Section Partition.

Lemma concat_map_cons_at {A} (j : nat) (r : A) (f g : nat -> list A) (l : list nat) :
  NoDup l -> j ∈ l ->
  (forall k, k ∈ l -> f k = if bool_decide (j = k) then r :: g k else g k) ->
  concat (map f l) ≡ₚ r :: concat (map g l).
Proof.
  intros Hnd Hj Hf. induction Hnd as [|k l Hk Hnd IH]; [inversion Hj|].
  simpl. rewrite Hf by left. apply elem_of_cons in Hj as [<-|Hj].
  - rewrite bool_decide_eq_true_2 by reflexivity. simpl. do 2 f_equiv.
    clear IH Hnd. induction l as [|k l IH]; [reflexivity|].
    simpl. rewrite Hf by (right; left). rewrite bool_decide_eq_false_2.
    + rewrite IH; [reflexivity| |].
      * intros Hin. apply Hk. right. exact Hin.
      * intros k' Hk'. apply Hf. apply elem_of_cons in Hk' as [->|Hk'];
          [left|right; right; exact Hk'].
    + intros ->. apply Hk. left.
  - rewrite bool_decide_eq_false_2 by (intros ->; contradiction).
    rewrite IH; [symmetry; apply Permutation_middle|exact Hj|].
    intros k' Hk'. apply Hf. right. exact Hk'.
Qed.

Lemma select_partition (n : nat) (rs : list vec) (js : list nat) :
  (Z.of_nat n <= 2 ^ 53)%Z ->
  length js = length rs -> Forall (fun j => j < n) js ->
  concat (map (fun k => np.select rs (map (fun l => l =? fl k)%float (map fl js)))
              (seq 0 n)) ≡ₚ rs.
Proof.
  intros Hn. revert js. induction rs as [|r rs IH]; intros js Hlen Hjs.
  - clear. induction (seq 0 n) as [|k l IHl]; [reflexivity|].
    simpl. destruct js; exact IHl.
  - destruct js as [|j js]; [discriminate|]. injection Hlen as Hlen.
    apply Forall_cons in Hjs as [Hj Hjs].
    rewrite (concat_map_cons_at j r _
               (fun k => np.select rs (map (fun l => l =? fl k)%float (map fl js)))).
    + f_equiv. apply IH; assumption.
    + apply NoDup_seq.
    + apply elem_of_seq. lia.
    + intros k Hk. apply elem_of_seq in Hk. simpl.
      rewrite fl_eqb by lia. reflexivity.
Qed.

End Partition.

(** X9. The clusters partition the pixels: for a label array over [K]
    clusters (integer labels below [K], which floats represent exactly up to
    [2^53]), the selections [img[labels == k]] for [k] in [range(K)]
    together hold every pixel exactly once. *)
Theorem cluster_points_partition (K : Z) (img : matrix) (a : vec) :
  label_array K img a -> (K <= 2 ^ 53)%Z ->
  concat (map (cluster_points img a) (seq 0 (Z.to_nat K))) ≡ₚ rows img.
Proof.
  intros (js & -> & Hlen & Hjs) HK. unfold cluster_points.
  apply select_partition; [lia|exact Hlen|exact Hjs].
Qed.

Lemma cluster_points_partition_witness :
  concat (map (cluster_points img_two_groups (map fl [1; 0; 1; 0]))
              (seq 0 (Z.to_nat 2))) ≡ₚ rows img_two_groups.
Proof.
  apply (cluster_points_partition 2 img_two_groups (map fl [1; 0; 1; 0])).
  - exists [1; 0; 1; 0]. split; [reflexivity|]. split; [reflexivity|].
    repeat constructor.
  - lia.
Defined.

Section FixedPoint.
Context {G : Type} {RS : RandomState G}.

Lemma step_run (K : Z) (img : matrix) (c c' : ndarray) (a : vec) (l : option vec)
      (w : world G) :
  KMeans.get_nearest_means img c = Ok a ->
  KMeans.get_centroids K img a = Ok c' ->
  KMeans.step K img (KMeans.Locals c l) w =
  (Ok (KMeans.Locals c' (Some a)), World (rng w) (calls w ++ [EAssign; ERecompute])).
Proof.
  intros Ha Hc.
  unfold KMeans.step, KMeans._get_nearest_means, KMeans._get_centroids,
    bind, log, lift, ret. simpl. rewrite Ha, Hc. simpl.
  rewrite <- app_assoc. reflexivity.
Qed.

End FixedPoint.

(** X10. Once a round reproduces its centroids, the loop of [cluster] has
    converged: if assigning to [c] gives the labels [a] and recomputing
    from [a] gives [c] again, every further number of rounds ends with the
    same centroids and labels. *)
Theorem for_range_fixed_point {G : Type} {RS : RandomState G}
        (K : Z) (img : matrix) (c : ndarray) (a : vec) (l : option vec)
        (n : nat) (w : world G) :
  KMeans.get_nearest_means img c = Ok a ->
  KMeans.get_centroids K img a = Ok c ->
  KMeans.for_range (S n) (KMeans.step K img) (KMeans.Locals c l) w =
  (Ok (KMeans.Locals c (Some a)), World (rng w) (calls w ++ rounds_trace (S n))).
Proof.
  intros Ha Hc. revert l w. induction n as [|n IH]; intros l w.
  - cbn [KMeans.for_range]. unfold bind. rewrite (step_run K img c c a l w Ha Hc).
    unfold ret, rounds_trace. simpl. reflexivity.
  - change (KMeans.for_range (S (S n)) (KMeans.step K img) (KMeans.Locals c l) w)
      with (bind (KMeans.step K img (KMeans.Locals c l))
                 (KMeans.for_range (S n) (KMeans.step K img)) w).
    unfold bind at 1. rewrite (step_run K img c c a l w Ha Hc).
    rewrite IH. cbn [rng calls]. rewrite <- app_assoc. reflexivity.
Qed.

(** The two groups with their means as centroids. *)
Lemma for_range_fixed_point_witness :
  KMeans.for_range (S 3) (KMeans.step 2 img_two_groups)
    (KMeans.Locals (Arr2 (Matrix 2 [[0; 0.5]; [10; 10.5]]%float)) None) (Lcg.seeded 0) =
  (Ok (KMeans.Locals (Arr2 (Matrix 2 [[0; 0.5]; [10; 10.5]]%float))
                     (Some [0; 0; 1; 1]%float)),
   World (rng (Lcg.seeded 0)) (calls (Lcg.seeded 0) ++ rounds_trace (S 3))).
Proof.
  apply (for_range_fixed_point 2 img_two_groups
           (Arr2 (Matrix 2 [[0; 0.5]; [10; 10.5]]%float)) [0; 0; 1; 1]%float None 3
           (Lcg.seeded 0)).
  - vm_compute. reflexivity.
  - vm_compute. reflexivity.
Defined.

(** ** An empty cluster *)

Section NotANumber.

Lemma sub_nan_r (x y : float) : PrimFloat.is_nan y = true -> PrimFloat.is_nan (x - y) = true.
Proof.
  rewrite !is_nan_Prim2SF, FloatAxioms.sub_spec. intros ->.
  destruct (Prim2SF x); reflexivity.
Qed.

Lemma mul_nan_l (x y : float) : PrimFloat.is_nan x = true -> PrimFloat.is_nan (x * y) = true.
Proof.
  rewrite !is_nan_Prim2SF, FloatAxioms.mul_spec. intros ->. reflexivity.
Qed.

Lemma add_nan_l (x y : float) : PrimFloat.is_nan x = true -> PrimFloat.is_nan (x + y) = true.
Proof.
  rewrite !is_nan_Prim2SF, FloatAxioms.add_spec. intros ->. reflexivity.
Qed.

Lemma add_nan_r (x y : float) : PrimFloat.is_nan y = true -> PrimFloat.is_nan (x + y) = true.
Proof.
  rewrite !is_nan_Prim2SF, FloatAxioms.add_spec. intros ->.
  destruct (Prim2SF x); reflexivity.
Qed.

Lemma sqrt_nan (x : float) : PrimFloat.is_nan x = true -> PrimFloat.is_nan (PrimFloat.sqrt x) = true.
Proof.
  rewrite !is_nan_Prim2SF, FloatAxioms.sqrt_spec. intros ->. reflexivity.
Qed.

Lemma fold_add_nan (xs : vec) (acc : float) :
  PrimFloat.is_nan acc = true -> PrimFloat.is_nan (fold_left PrimFloat.add xs acc) = true.
Proof.
  revert acc. induction xs as [|x xs IH]; intros acc Hacc; simpl; [exact Hacc|].
  apply IH, add_nan_l, Hacc.
Qed.

(** The distance to a centroid whose first coordinate is NaN is NaN. *)
Lemma distance_nan (p q : vec) (x y : float) :
  length p = length q -> PrimFloat.is_nan y = true ->
  PrimFloat.is_nan (distance (x :: p) (y :: q)) = true.
Proof.
  intros Hlen Hy. unfold distance, np.sub_row. simpl length.
  rewrite Hlen, Nat.eqb_refl. simpl. apply sqrt_nan. unfold np.sum. simpl.
  apply fold_add_nan, add_nan_r, mul_nan_l, sub_nan_r, Hy.
Qed.

End NotANumber.

(** X11. An empty cluster poisons the next assignment.  When no pixel
    carries the label [k0] and the pixels have at least one channel,
    [_get_centroids] gives cluster [k0] a centroid of NaNs, and the
    following [_get_nearest_means] assigns no pixel by proximity: every
    pixel gets the first cluster whose distance is NaN, one at or before
    [k0]. *)
Theorem empty_cluster_poisons_assignment (K : Z) (img : matrix) (a : vec) (k0 : nat) :
  wf_matrix img -> 1 <= ncols img -> length a = len img ->
  k0 < Z.to_nat K -> cluster_points img a k0 = [] ->
  exists means js,
    KMeans.get_centroids K img a = Ok (Arr2 means) /\
    rows means !! k0 = Some (replicate (ncols img) nan) /\
    KMeans.get_nearest_means img (Arr2 means) = Ok (map fl js) /\
    Forall2 (fun p j => j <= k0 /\ first_nan (distances p means) j) (rows img) js.
Proof.
  intros Hwf Hc Hlen Hk0 Hempty.
  pose (rs := map (fun k => np.mean_axis0 (Matrix (ncols img) (cluster_points img a k)))
                  (seq 0 (Z.to_nat K))).
  assert (Hrs : rs !! k0 = Some (replicate (ncols img) nan)).
  { unfold rs. rewrite list_lookup_fmap, lookup_seq_lt by exact Hk0.
    simpl. rewrite Hempty, mean_axis0_empty. reflexivity. }
  assert (Hne : rs <> []) by (intros E; rewrite E in Hrs; discriminate).
  destruct (get_nearest_means_ok img (Matrix (ncols img) rs) Hwf eq_refl Hne)
    as (js & Hjs & Hall).
  exists (Matrix (ncols img) rs), js.
  split; [rewrite (get_centroids_ok K img a Hlen); fold rs;
          rewrite (array_nonempty _ _ Hne); reflexivity|].
  split; [exact Hrs|]. split; [exact Hjs|].
  apply Forall2_same_length_lookup in Hall as [Hlenj Hall].
  apply Forall2_same_length_lookup. split; [exact Hlenj|].
  intros i p j Hpi Hji. pose proof (Hall i p j Hpi Hji) as Hj.
  assert (Hp : p ∈ rows img) by (eapply list_elem_of_lookup_2, Hpi).
  assert (Hnan : exists d, distances p (Matrix (ncols img) rs) !! k0 = Some d /\
                           PrimFloat.is_nan d = true).
  { unfold distances. cbn [rows]. rewrite list_lookup_fmap, Hrs. simpl.
    eexists. split; [reflexivity|].
    assert (Hlp : length p = ncols img).
    { unfold wf_matrix in Hwf. rewrite Forall_forall in Hwf. apply Hwf, Hp. }
    destruct p as [|x p]; [simpl in Hlp; lia|].
    destruct (ncols img) as [|c]; [lia|]. simpl replicate.
    apply distance_nan; [|reflexivity].
    rewrite length_replicate. simpl in Hlp. lia. }
  destruct Hnan as (d & Hd & Hdn).
  destruct (argmin_spec _ _ Hj) as [_ Hfirst].
  assert (Hfn : first_nan (distances p (Matrix (ncols img) rs)) j).
  { apply Hfirst. apply Exists_exists. exists d. split; [|exact Hdn].
    eapply list_elem_of_lookup_2, Hd. }
  split; [|exact Hfn].
  destruct Hfn as (dj & _ & _ & Hbefore).
  destruct (decide (j <= k0)) as [|Hgt]; [assumption|].
  rewrite (Hbefore k0 d) in Hdn; [discriminate|lia|exact Hd].
Qed.

(** All four pixels in cluster 0 of two. *)
Lemma empty_cluster_poisons_assignment_witness :
  exists means js,
    KMeans.get_centroids 2 img_two_groups [0; 0; 0; 0]%float = Ok (Arr2 means) /\
    rows means !! 1 = Some (replicate (ncols img_two_groups) nan) /\
    KMeans.get_nearest_means img_two_groups (Arr2 means) = Ok (map fl js) /\
    Forall2 (fun p j => j <= 1 /\ first_nan (distances p means) j)
            (rows img_two_groups) js.
Proof.
  apply (empty_cluster_poisons_assignment 2 img_two_groups [0; 0; 0; 0]%float 1).
  - repeat constructor.
  - simpl. lia.
  - reflexivity.
  - simpl. lia.
  - vm_compute. reflexivity.
Defined.

(** ** The initial centroids are pixels *)

Section InitialCentroids.
Context {G : Type} {RS : RandomState G}.

Lemma Forall2_lookup_map (l : list vec) (idx : list nat) (rs : list vec) :
  Forall2 (fun i r => l !! i = Some r) idx rs ->
  rs = map (fun i => default [] (l !! i)) idx.
Proof.
  induction 1 as [|i r idx rs Hi _ IH]; [reflexivity|].
  simpl. rewrite Hi, <- IH. reflexivity.
Qed.

Lemma map_lookup_seq (l : list vec) :
  map (fun i => default [] (l !! i)) (seq 0 (length l)) = l.
Proof.
  apply list_eq. intros i. rewrite list_lookup_fmap.
  destruct (decide (i < length l)) as [Hi|Hi].
  - rewrite lookup_seq_lt by exact Hi. simpl.
    destruct (lookup_lt_is_Some_2 l i Hi) as [r Hr]. rewrite Hr. reflexivity.
  - rewrite lookup_seq_ge by lia. simpl. symmetry. apply lookup_ge_None. lia.
Qed.

End InitialCentroids.

(** X12. The initial centroids are pixels of the image, none taken twice:
    for [0 <= K <= n] the rows [_init_means] returns form a sub-multiset of
    the rows of the image, and for [K = n] they are all the pixels in some
    order. *)
Theorem init_means_pixels {G : Type} {RS : RandomState G}
        (K : Z) (img : matrix) (w : world G) :
  (0 <= K <= Z.of_nat (len img))%Z ->
  exists rs w',
    KMeans._init_means K img w = (Ok (Arr2 (Matrix (ncols img) rs)), w') /\
    rs ⊆+ rows img /\
    (K = Z.of_nat (len img) -> rs ≡ₚ rows img).
Proof.
  intros HK. destruct (init_means_ok K img w HK) as (rs & Hinit & Hall).
  exists rs. eexists. split; [exact Hinit|].
  apply Forall2_lookup_map in Hall.
  pose proof (map_lookup_seq (rows img)) as Hrows. fold (len img) in Hrows.
  set (f := fun i => default [] (rows img !! i)) in *.
  assert (Hsub : sampled (len img) (Z.to_nat K) (rng w) ⊆+ seq 0 (len img)).
  { unfold sampled. etransitivity.
    - apply sublist_submseteq, sublist_take.
    - apply Permutation_submseteq, shuffle_Permutation. }
  split.
  - rewrite Hall. rewrite <- Hrows. apply fmap_submseteq, Hsub.
  - intros ->. rewrite Nat2Z.id in Hall. rewrite Hall. rewrite <- Hrows.
    apply fmap_Permutation, sampled_all.
Qed.

Lemma init_means_pixels_witness :
  exists rs w',
    KMeans._init_means 4 img_two_groups (Lcg.seeded 1) =
      (Ok (Arr2 (Matrix (ncols img_two_groups) rs)), w') /\
    rs ⊆+ rows img_two_groups /\
    (4%Z = Z.of_nat (len img_two_groups) -> rs ≡ₚ rows img_two_groups).
Proof.
  apply (init_means_pixels 4 img_two_groups (Lcg.seeded 1)).
  unfold len. simpl. lia.
Defined.

(** ** Training windows *)

Section TrainingSet.

Lemma index_ok (n i : nat) : i < n -> dataloader.index n (Z.of_nat i) = Ok i.
Proof.
  intros Hi. unfold dataloader.index.
  replace ((0 <=? Z.of_nat i) && (Z.of_nat i <? Z.of_nat n))%Z with true.
  - rewrite Nat2Z.id. reflexivity.
  - symmetry. apply andb_true_iff. split; [apply Z.leb_le|apply Z.ltb_lt]; lia.
Qed.

Lemma getitem_ok (a : list Z) (i : nat) :
  i < length a -> dataloader.getitem a (Z.of_nat i) = Ok (nth i a 0%Z).
Proof.
  intros Hi. unfold dataloader.getitem. rewrite index_ok by exact Hi. simpl.
  destruct (lookup_lt_is_Some_2 a i Hi) as [v Hv]. rewrite Hv.
  rewrite (nth_lookup_Some _ _ _ _ Hv). reflexivity.
Qed.

Lemma getitems_shift (a : list Z) (s : nat) :
  s + 4 < length a ->
  dataloader.getitems a (map (Z.add (2 + Z.of_nat s)) dataloader.shift) =
  Ok (features a s).
Proof.
  intros Hs. unfold dataloader.getitems, dataloader.shift. cbn [map].
  replace (2 + Z.of_nat s + -2)%Z with (Z.of_nat s) by lia.
  replace (2 + Z.of_nat s + -1)%Z with (Z.of_nat (s + 1)) by lia.
  replace (2 + Z.of_nat s + 1)%Z with (Z.of_nat (s + 3)) by lia.
  replace (2 + Z.of_nat s + 2)%Z with (Z.of_nat (s + 4)) by lia.
  cbn [KMeans.collect]. rewrite !getitem_ok by lia. reflexivity.
Qed.

(** The pass of the loop for the window at [s], the windows before it
    filled in and the [S r] from it on still zero. *)
Lemma loop_body (a : list Z) (s r : nat) (X Y : list (list Z)) :
  s + 4 < length a -> length X = s -> length Y = s ->
  rbind (dataloader.getitem a (2 + Z.of_nat s)) (fun v =>
  rbind (dataloader.setitem (Y ++ replicate (S r) [0%Z]) (2 + Z.of_nat s - 2) 0 v) (fun y =>
  rbind (dataloader.getitems a (map (Z.add (2 + Z.of_nat s)) dataloader.shift)) (fun row =>
  rbind (dataloader.setrow (X ++ replicate (S r) (replicate 4 0%Z)) (2 + Z.of_nat s - 2) row)
        (fun x => Ok (x, y))))) =
  Ok ((X ++ [features a s]) ++ replicate r (replicate 4 0%Z),
      (Y ++ [target a s]) ++ replicate r [0%Z]).
Proof.
  intros Hs HX HY.
  replace (2 + Z.of_nat s)%Z with (Z.of_nat (s + 2)) at 1 by lia.
  rewrite getitem_ok by lia. cbn [rbind].
  replace (2 + Z.of_nat s - 2)%Z with (Z.of_nat s) by lia.
  unfold dataloader.setitem, dataloader.setrow.
  rewrite !index_ok by (rewrite length_app, length_replicate; lia). cbn [rbind].
  rewrite lookup_app_r by lia. rewrite HY, Nat.sub_diag. cbn [replicate lookup list_lookup].
  change (dataloader.index (length [0%Z]) 0) with (@Ok nat 0). cbn [rbind].
  rewrite getitems_shift by exact Hs. cbn [rbind].
  rewrite !insert_app_r_alt by lia. rewrite HX, HY, !Nat.sub_diag.
  cbn [replicate list_insert insert]. rewrite <- !app_assoc. reflexivity.
Qed.

Lemma loop_windows (a : list Z) (r s : nat) :
  s + r + 4 = length a ->
  dataloader.for_each
    (fun '(x, y) idx =>
       rbind (dataloader.getitem a idx) (fun v =>
       rbind (dataloader.setitem y (idx - 2) 0 v) (fun y =>
       rbind (dataloader.getitems a (map (Z.add idx) dataloader.shift)) (fun row =>
       rbind (dataloader.setrow x (idx - 2) row) (fun x => Ok (x, y))))))
    (map (fun k => (2 + Z.of_nat k)%Z) (seq s r))
    (map (features a) (seq 0 s) ++ replicate r (replicate 4 0%Z),
     map (target a) (seq 0 s) ++ replicate r [0%Z]) =
  Ok (map (features a) (seq 0 (s + r)), map (target a) (seq 0 (s + r))).
Proof.
  revert s. induction r as [|r IH]; intros s Hlen.
  - simpl. rewrite !app_nil_r, Nat.add_0_r. reflexivity.
  - cbn [seq map dataloader.for_each].
    rewrite loop_body by (rewrite ?length_map, ?length_seq; lia). cbn [rbind].
    replace (s + S r) with (S s + r) by lia. rewrite <- IH by lia.
    rewrite !seq_S, !map_app. reflexivity.
Qed.

End TrainingSet.

(** X13. [build_training_set] on an array of [n >= 4] words returns [n - 4]
    windows, in the order of the text: feature row [i] holds the words at
    [i], [i + 1], [i + 3], [i + 4] and target row [i] the word at [i + 2].
    No index leaves the array, and [window_size] plays no part. *)
Theorem build_training_set_windows (word_array : list Z) (window_size : Z) :
  4 <= length word_array ->
  dataloader.build_training_set word_array window_size =
  Ok (map (features word_array) (seq 0 (length word_array - 4)),
      map (target word_array) (seq 0 (length word_array - 4))).
Proof.
  intros Hn. unfold dataloader.build_training_set, dataloader.zeros2.
  replace (Z.of_nat (length word_array) - 4 <? 0)%Z with false
    by (symmetry; apply Z.ltb_ge; lia).
  cbn [rbind]. unfold dataloader.range.
  replace (Z.to_nat (Z.of_nat (length word_array) - 2 - 2)) with (length word_array - 4) by lia.
  replace (Z.to_nat (Z.of_nat (length word_array) - 4)) with (length word_array - 4) by lia.
  apply (loop_windows word_array (length word_array - 4) 0). lia.
Qed.

Lemma build_training_set_windows_witness :
  dataloader.build_training_set [10; 11; 12; 13; 14; 15]%Z 2 =
  Ok (map (features [10; 11; 12; 13; 14; 15]%Z)
          (seq 0 (length [10; 11; 12; 13; 14; 15]%Z - 4)),
      map (target [10; 11; 12; 13; 14; 15]%Z)
          (seq 0 (length [10; 11; 12; 13; 14; 15]%Z - 4))).
Proof.
  apply (build_training_set_windows [10; 11; 12; 13; 14; 15]%Z 2). simpl. lia.
Defined.

(** X14. On fewer than four words [build_training_set] fails with the
    [ValueError] of [np.zeros] for a negative dimension, before the loop. *)
Theorem build_training_set_short (word_array : list Z) (window_size : Z) :
  length word_array < 4 ->
  dataloader.build_training_set word_array window_size =
  Raise (ValueError "negative dimensions are not allowed").
Proof.
  intros Hn. unfold dataloader.build_training_set, dataloader.zeros2.
  replace (Z.of_nat (length word_array) - 4 <? 0)%Z with true
    by (symmetry; apply Z.ltb_lt; lia).
  reflexivity.
Qed.

Lemma build_training_set_short_witness :
  dataloader.build_training_set [10; 11; 12]%Z 2 =
  Raise (ValueError "negative dimensions are not allowed").
Proof. apply (build_training_set_short [10; 11; 12]%Z 2). simpl. lia. Defined.

(** ** Reading the book *)

Section Counter.

Lemma count_incr (w w' : string) (c : dataloader.counter) :
  dataloader.count (dataloader.incr w c) w' =
  if String.eqb w w' then S (dataloader.count c w') else dataloader.count c w'.
Proof.
  induction c as [|[k n] c IH]; simpl.
  - reflexivity.
  - destruct (String.eqb_spec k w) as [->|Hkw]; simpl.
    + destruct (String.eqb_spec w w'); reflexivity.
    + destruct (String.eqb_spec k w') as [->|Hkw'].
      * destruct (String.eqb_spec w w'); [congruence|reflexivity].
      * exact IH.
Qed.

Lemma keys_incr (w : string) (c : dataloader.counter) :
  map fst (dataloader.incr w c) =
  map fst c ++ (if bool_decide (w ∈ map fst c) then [] else [w]).
Proof.
  induction c as [|[k n] c IH]; simpl; [reflexivity|].
  destruct (String.eqb_spec k w) as [->|Hkw]; simpl.
  - rewrite bool_decide_eq_true_2 by left. rewrite app_nil_r. reflexivity.
  - rewrite IH.
    replace (bool_decide (w ∈ k :: map fst c)) with (bool_decide (w ∈ map fst c));
      [reflexivity|].
    apply bool_decide_ext. rewrite elem_of_cons. intuition congruence.
Qed.

Lemma NoDup_incr (w : string) (c : dataloader.counter) :
  NoDup (map fst c) -> NoDup (map fst (dataloader.incr w c)).
Proof.
  intros Hnd. rewrite keys_incr. destruct (bool_decide_reflect (w ∈ map fst c)).
  - rewrite app_nil_r. exact Hnd.
  - apply NoDup_app. split; [exact Hnd|]. split; [|apply NoDup_singleton].
    intros x Hx Hx'. apply list_elem_of_singleton in Hx'. congruence.
Qed.

Lemma positive_incr (w : string) (c : dataloader.counter) :
  Forall (fun t => 1 <= snd t) c -> Forall (fun t => 1 <= snd t) (dataloader.incr w c).
Proof.
  induction 1 as [|[k n] c Hn Hc IH]; simpl.
  - repeat constructor.
  - destruct (String.eqb k w); constructor; simpl in *; try assumption; lia.
Qed.

Lemma count_update (ws : list string) (c : dataloader.counter) (w : string) :
  dataloader.count (dataloader.update c ws) w =
  dataloader.count c w + count_occ String.string_dec ws w.
Proof.
  unfold dataloader.update. revert c. induction ws as [|x ws IH]; intros c; simpl.
  - lia.
  - rewrite IH, count_incr. destruct (String.string_dec x w) as [->|Hne].
    + rewrite String.eqb_refl. lia.
    + destruct (String.eqb_spec x w); [contradiction|lia].
Qed.

Lemma NoDup_update (ws : list string) (c : dataloader.counter) :
  NoDup (map fst c) -> NoDup (map fst (dataloader.update c ws)).
Proof.
  unfold dataloader.update. revert c. induction ws as [|x ws IH]; intros c Hc; simpl.
  - exact Hc.
  - apply IH, NoDup_incr, Hc.
Qed.

Lemma positive_update (ws : list string) (c : dataloader.counter) :
  Forall (fun t => 1 <= snd t) c ->
  Forall (fun t => 1 <= snd t) (dataloader.update c ws).
Proof.
  unfold dataloader.update. revert c. induction ws as [|x ws IH]; intros c Hc; simpl.
  - exact Hc.
  - apply IH, positive_incr, Hc.
Qed.

Lemma count_key (c : dataloader.counter) (w : string) (n : nat) :
  NoDup (map fst c) -> (w, n) ∈ c -> dataloader.count c w = n.
Proof.
  induction c as [|[k m] c IH]; intros Hnd Hin; [inversion Hin|].
  simpl in *. apply NoDup_cons in Hnd as [Hk Hnd].
  apply elem_of_cons in Hin as [Heq|Hin].
  - injection Heq as -> ->. rewrite String.eqb_refl. reflexivity.
  - destruct (String.eqb_spec k w) as [->|Hne]; [|apply IH; assumption].
    exfalso. apply Hk. apply list_elem_of_fmap. exists (w, n). split; [reflexivity|exact Hin].
Qed.

Lemma count_zero (c : dataloader.counter) (w : string) :
  w ∉ map fst c -> dataloader.count c w = 0.
Proof.
  induction c as [|[k m] c IH]; intros Hin; [reflexivity|]. simpl in *.
  destruct (String.eqb_spec k w) as [->|Hne].
  - exfalso. apply Hin. left.
  - apply IH. intros H. apply Hin. right. exact H.
Qed.

End Counter.

Section Tokens.
Variable is_word : Ascii.ascii -> bool.

Lemma findall_starts_word (s : string) :
  dataloader.starts_word is_word s = true ->
  exists t ts, dataloader.findall is_word s = t :: ts /\
               t <> EmptyString /\ all_chars (dataloader.in_word is_word) t = true.
Proof.
  induction s as [|c s IH]; simpl; [discriminate|]. intros Hc. rewrite Hc.
  destruct (dataloader.starts_word is_word s) eqn:Hs.
  - destruct (IH eq_refl) as (t & ts & -> & Hne & Hall).
    exists (String c t), ts. split; [reflexivity|]. split; [discriminate|].
    simpl. rewrite Hc, Hall. reflexivity.
  - exists (String c EmptyString). eexists. split; [reflexivity|].
    split; [discriminate|]. simpl. rewrite Hc. reflexivity.
Qed.

Lemma findall_tokens (s : string) : Forall (is_token is_word) (dataloader.findall is_word s).
Proof.
  induction s as [|c s IH]; simpl; [constructor|].
  destruct (dataloader.in_word is_word c) eqn:Hc.
  - destruct (dataloader.starts_word is_word s) eqn:Hs.
    + destruct (findall_starts_word s Hs) as (t & ts & Heq & Hne & Hall).
      rewrite Heq in IH |- *. apply Forall_cons in IH as [_ IH].
      constructor; [|exact IH]. left. split; [discriminate|].
      simpl. rewrite Hc, Hall. reflexivity.
    + constructor; [|exact IH]. left. split; [discriminate|].
      simpl. rewrite Hc. reflexivity.
  - destruct (dataloader.in_punctuation c) eqn:Hp; [|exact IH].
    constructor; [|exact IH]. right. exists c. auto.
Qed.

End Tokens.

Section Reading.
Variable is_word : Ascii.ascii -> bool.
Variable lower : string -> string.

Abbreviation read_lines := (dataloader.read_lines is_word lower).
Abbreviation tokens line :=
  (dataloader.findall is_word (dataloader.strip dataloader.newline (lower line))).

Lemma read_lines_consistent (lines : list string) (st : dataloader.reading) :
  consistent is_word st ->
  consistent is_word (read_lines lines st) /\
  dataloader.num_lines (read_lines lines st) <= dataloader.num_lines st + length lines.
Proof.
  revert st. induction lines as [|line lines IH]; intros st Hst; simpl.
  - split; [exact Hst|lia].
  - destruct (dataloader.contains "*** START" line).
    { destruct (IH (dataloader.Reading (dataloader.word_counter st)
                      (dataloader.word_list st) (dataloader.num_lines st)
                      (dataloader.num_words st) true)) as [H1 H2]; [exact Hst|].
      split; [exact H1|]. simpl in H2. lia. }
    destruct (dataloader.contains "CHAPTER" line).
    { destruct (IH st Hst). split; [assumption|lia]. }
    destruct (dataloader.contains "*** END" line).
    { split; [exact Hst|lia]. }
    destruct (dataloader.contains "Project Gutenberg" line).
    { destruct (IH st Hst). split; [assumption|lia]. }
    destruct (negb (dataloader.in_book st)).
    { destruct (IH st Hst). split; [assumption|lia]. }
    destruct Hst as (Hnw & Hnd & Hpos & Hcount & Htok).
    match goal with |- context [read_lines lines ?st'] =>
      destruct (IH st') as [H1 H2] end.
    + unfold consistent. simpl. repeat split.
      * rewrite length_app. lia.
      * apply NoDup_update, Hnd.
      * apply positive_update, Hpos.
      * intros w. rewrite count_update, count_occ_app, Hcount. reflexivity.
      * apply Forall_app. split; [exact Htok|apply findall_tokens].
    + split; [exact H1|]. simpl in H2. lia.
Qed.

Lemma read_lines_outside (lines : list string) (st : dataloader.reading) :
  dataloader.in_book st = false ->
  Forall (fun line => dataloader.contains "*** START" line = false) lines ->
  read_lines lines st = st.
Proof.
  intros Hout. induction 1 as [|line lines Hline _ IH]; simpl; [reflexivity|].
  rewrite Hline, Hout. simpl.
  destruct (dataloader.contains "CHAPTER" line); [exact IH|].
  destruct (dataloader.contains "*** END" line); [reflexivity|].
  destruct (dataloader.contains "Project Gutenberg" line); exact IH.
Qed.

Lemma read_lines_end (pre post : list string) (e : string) (st : dataloader.reading) :
  dataloader.contains "*** END" e = true ->
  dataloader.contains "*** START" e = false ->
  dataloader.contains "CHAPTER" e = false ->
  read_lines (pre ++ e :: post) st = read_lines pre st.
Proof.
  intros He Hs Hc. revert st. induction pre as [|line pre IH]; intros st; simpl.
  - rewrite Hs, Hc, He. reflexivity.
  - rewrite !IH. reflexivity.
Qed.

Lemma read_lines_skip (pre post : list string) (l : string) (st : dataloader.reading) :
  dataloader.contains "*** START" l = false ->
  dataloader.contains "CHAPTER" l = true \/
  (dataloader.contains "*** END" l = false /\
   dataloader.contains "Project Gutenberg" l = true) ->
  read_lines (pre ++ l :: post) st = read_lines (pre ++ post) st.
Proof.
  intros Hs Hl. revert st. induction pre as [|line pre IH]; intros st; simpl.
  - rewrite Hs. destruct Hl as [->|[-> ->]]; [reflexivity|].
    destruct (dataloader.contains "CHAPTER" l); reflexivity.
  - rewrite !IH. reflexivity.
Qed.

Lemma read_lines_plain (body : list string) (st : dataloader.reading) :
  dataloader.in_book st = true ->
  Forall (fun line => plain line = true) body ->
  read_lines body st =
  dataloader.Reading
    (dataloader.update (dataloader.word_counter st) (concat (map (fun l => tokens l) body)))
    (dataloader.word_list st ++ concat (map (fun l => tokens l) body))
    (dataloader.num_lines st + length body)
    (dataloader.num_words st + length (concat (map (fun l => tokens l) body)))
    true.
Proof.
  intros Hin Hbody. revert st Hin.
  induction Hbody as [|line body Hline _ IH]; intros st Hin; simpl.
  - rewrite app_nil_r, !Nat.add_0_r. destruct st; simpl in *. subst. reflexivity.
  - unfold plain in Hline. rewrite !andb_true_iff, !negb_true_iff in Hline.
    destruct Hline as (((-> & ->) & ->) & ->). rewrite Hin. simpl.
    rewrite IH by reflexivity. simpl. unfold dataloader.update.
    rewrite fold_left_app, length_app, <- app_assoc. f_equal; lia.
Qed.

End Reading.

(** X15. The four results of [load_books] agree with one another, whatever
    the file: the number of words is the length of the word list, the number
    of lines read is at most the number of lines of the file, the counter
    has one entry per distinct word, every count is positive and is the
    number of occurrences in the word list, and every word is a match of the
    pattern: a non-empty run of word characters and apostrophes, or one
    punctuation mark. *)
Theorem load_books_statistics (is_word : Ascii.ascii -> bool) (lower : string -> string)
        (lines : list string) :
  exists word_counter word_list num_lines num_words,
    dataloader.load_books is_word lower lines =
      (word_counter, word_list, num_lines, num_words) /\
    num_words = length word_list /\
    num_lines <= length lines /\
    NoDup (map fst word_counter) /\
    Forall (fun t => 1 <= snd t) word_counter /\
    (forall w, dataloader.count word_counter w = count_occ String.string_dec word_list w) /\
    (forall w, w ∈ map fst word_counter <-> w ∈ word_list) /\
    Forall (is_token is_word) word_list.
Proof.
  destruct (read_lines_consistent is_word lower lines (dataloader.Reading [] [] 0 0 false))
    as [(Hnw & Hnd & Hpos & Hcount & Htok) Hnl].
  { unfold consistent. simpl. repeat split; constructor. }
  do 4 eexists. split; [reflexivity|]. simpl in Hnl.
  repeat split; try assumption.
  - intros Hw. apply list_elem_of_fmap in Hw as ([k n] & -> & Hin). simpl.
    pose proof (count_key _ _ _ Hnd Hin) as Hc. rewrite Hcount in Hc.
    rewrite Forall_forall in Hpos. specialize (Hpos _ Hin). simpl in Hpos.
    apply list_elem_of_In. apply (count_occ_In String.string_dec). lia.
  - intros Hw. apply list_elem_of_In in Hw.
    apply (count_occ_In String.string_dec) in Hw. rewrite <- Hcount in Hw.
    destruct (decide (w ∈ map fst (dataloader.word_counter
               (dataloader.read_lines is_word lower lines
                  (dataloader.Reading [] [] 0 0 false))))) as [|Hout];
      [assumption|].
    rewrite (count_zero _ _ Hout) in Hw. lia.
Qed.

(** X16. Without a line holding the start marker nothing is read: the
    counter and the word list stay empty and both numbers stay 0. *)
Theorem load_books_needs_start (is_word : Ascii.ascii -> bool) (lower : string -> string)
        (lines : list string) :
  Forall (fun line => dataloader.contains "*** START" line = false) lines ->
  dataloader.load_books is_word lower lines = ([], [], 0, 0).
Proof.
  intros Hlines. unfold dataloader.load_books.
  rewrite read_lines_outside by (reflexivity || exact Hlines). reflexivity.
Qed.

Lemma load_books_needs_start_witness :
  dataloader.load_books dataloader.ascii_is_word dataloader.ascii_lower
    ["The cat sat."; "*** END ***"; "The mat."] = ([], [], 0, 0).
Proof.
  apply (load_books_needs_start dataloader.ascii_is_word dataloader.ascii_lower
           ["The cat sat."; "*** END ***"; "The mat."]).
  repeat constructor.
Defined.

(** X17. Reading stops at the first line that holds the end marker and
    neither the start marker nor the word CHAPTER: what follows that line
    changes nothing. *)
Theorem load_books_stops_at_end (is_word : Ascii.ascii -> bool) (lower : string -> string)
        (pre post : list string) (e : string) :
  dataloader.contains "*** END" e = true ->
  dataloader.contains "*** START" e = false ->
  dataloader.contains "CHAPTER" e = false ->
  dataloader.load_books is_word lower (pre ++ e :: post) =
  dataloader.load_books is_word lower pre.
Proof.
  intros He Hs Hc. unfold dataloader.load_books.
  rewrite (read_lines_end is_word lower pre post e _ He Hs Hc). reflexivity.
Qed.

Lemma load_books_stops_at_end_witness :
  dataloader.load_books dataloader.ascii_is_word dataloader.ascii_lower
    (take 6 book ++ "*** END OF THIS PROJECT GUTENBERG EBOOK ***" :: drop 7 book) =
  dataloader.load_books dataloader.ascii_is_word dataloader.ascii_lower (take 6 book).
Proof.
  apply (load_books_stops_at_end dataloader.ascii_is_word dataloader.ascii_lower
           (take 6 book) (drop 7 book) "*** END OF THIS PROJECT GUTENBERG EBOOK ***");
    reflexivity.
Defined.

(** X18. A line that holds the word CHAPTER, or the words Project Gutenberg
    without the end marker, and not the start marker, is passed over as if
    it were not in the file.  In particular a line holding both CHAPTER and
    the end marker does not stop the reading. *)
Theorem load_books_skips_marked_line (is_word : Ascii.ascii -> bool)
        (lower : string -> string) (pre post : list string) (l : string) :
  dataloader.contains "*** START" l = false ->
  dataloader.contains "CHAPTER" l = true \/
  (dataloader.contains "*** END" l = false /\
   dataloader.contains "Project Gutenberg" l = true) ->
  dataloader.load_books is_word lower (pre ++ l :: post) =
  dataloader.load_books is_word lower (pre ++ post).
Proof.
  intros Hs Hl. unfold dataloader.load_books.
  rewrite (read_lines_skip is_word lower pre post l _ Hs Hl). reflexivity.
Qed.

Lemma load_books_skips_marked_line_witness :
  dataloader.load_books dataloader.ascii_is_word dataloader.ascii_lower
    (take 4 book ++ "*** END OF CHAPTER I ***" :: drop 4 book) =
  dataloader.load_books dataloader.ascii_is_word dataloader.ascii_lower
    (take 4 book ++ drop 4 book).
Proof.
  apply (load_books_skips_marked_line dataloader.ascii_is_word dataloader.ascii_lower
           (take 4 book) (drop 4 book) "*** END OF CHAPTER I ***").
  - reflexivity.
  - left. reflexivity.
Defined.

(** X19. After a line with the start marker, lines that hold none of the
    four markers are all read: the word list is the matches of the pattern
    in the lower-cased lines, stripped of their line ends, in the order of
    the text, the counter counts that list, and every such line counts as a
    line, an empty one too. *)
Theorem load_books_plain_body (is_word : Ascii.ascii -> bool) (lower : string -> string)
        (start : string) (body : list string) :
  dataloader.contains "*** START" start = true ->
  Forall (fun line => plain line = true) body ->
  dataloader.load_books is_word lower (start :: body) =
  (dataloader.update []
     (concat (map (fun l => dataloader.findall is_word
                              (dataloader.strip dataloader.newline (lower l))) body)),
   concat (map (fun l => dataloader.findall is_word
                           (dataloader.strip dataloader.newline (lower l))) body),
   length body,
   length (concat (map (fun l => dataloader.findall is_word
                                   (dataloader.strip dataloader.newline (lower l))) body))).
Proof.
  intros Hs Hbody. unfold dataloader.load_books. cbn [dataloader.read_lines].
  rewrite Hs. rewrite read_lines_plain by (reflexivity || exact Hbody).
  reflexivity.
Qed.

Lemma load_books_plain_body_witness :
  dataloader.load_books dataloader.ascii_is_word dataloader.ascii_lower
    ("*** START ***" :: ["The cat sat; the Cat's mat."; ""; "Don't sit, cat!"]) =
  (dataloader.update []
     (concat (map (fun l => dataloader.findall dataloader.ascii_is_word
                              (dataloader.strip dataloader.newline (dataloader.ascii_lower l)))
                  ["The cat sat; the Cat's mat."; ""; "Don't sit, cat!"])),
   concat (map (fun l => dataloader.findall dataloader.ascii_is_word
                           (dataloader.strip dataloader.newline (dataloader.ascii_lower l)))
               ["The cat sat; the Cat's mat."; ""; "Don't sit, cat!"]),
   length ["The cat sat; the Cat's mat."; ""; "Don't sit, cat!"],
   length (concat (map (fun l => dataloader.findall dataloader.ascii_is_word
                                   (dataloader.strip dataloader.newline (dataloader.ascii_lower l)))
                       ["The cat sat; the Cat's mat."; ""; "Don't sit, cat!"]))).
Proof.
  apply (load_books_plain_body dataloader.ascii_is_word dataloader.ascii_lower
           "*** START ***" ["The cat sat; the Cat's mat."; ""; "Don't sit, cat!"]).
  - reflexivity.
  - repeat constructor.
Defined.

(** ** The dictionary *)

Section Sorting.
Context {A : Type} (key : A -> Z).

Abbreviation key_le := (key_le key).

Lemma insert_by_Permutation (x : A) (l : list A) :
  dataloader.insert_by key x l ≡ₚ x :: l.
Proof.
  induction l as [|y l IH]; simpl; [reflexivity|].
  destruct (key x <=? key y)%Z; [reflexivity|].
  rewrite IH. apply perm_swap.
Qed.

Lemma sorted_by_Permutation (l : list A) : dataloader.sorted_by key l ≡ₚ l.
Proof.
  induction l as [|x l IH]; simpl; [reflexivity|].
  rewrite insert_by_Permutation, IH. reflexivity.
Qed.

Lemma insert_by_sorted (x : A) (l : list A) :
  StronglySorted key_le l -> StronglySorted key_le (dataloader.insert_by key x l).
Proof.
  induction 1 as [|y l Hl IH Hy]; simpl.
  - repeat constructor.
  - destruct (Z.leb_spec (key x) (key y)) as [Hxy|Hxy].
    + constructor; [constructor; assumption|].
      constructor; [exact Hxy|].
      eapply Forall_impl; [exact Hy|]. unfold key_le. intros z Hz. lia.
    + constructor; [exact IH|].
      rewrite insert_by_Permutation. constructor; [unfold key_le; lia|exact Hy].
Qed.

Lemma sorted_by_sorted (l : list A) : StronglySorted key_le (dataloader.sorted_by key l).
Proof.
  induction l as [|x l IH]; simpl; [constructor|]. apply insert_by_sorted, IH.
Qed.

(** Sorting a sorted list changes nothing. *)
Lemma sorted_by_id (l : list A) :
  StronglySorted key_le l -> dataloader.sorted_by key l = l.
Proof.
  induction 1 as [|x l Hl IH Hx]; simpl; [reflexivity|].
  rewrite IH. destruct Hx as [|y l Hxy _]; simpl; [reflexivity|].
  unfold key_le in Hxy. destruct (Z.leb_spec (key x) (key y)); [reflexivity|lia].
Qed.

Lemma sorted_take (n : nat) (l : list A) :
  StronglySorted key_le l -> StronglySorted key_le (take n l).
Proof.
  intros Hl. revert n. induction Hl as [|x l Hl IH Hx]; intros [|n]; simpl;
    try constructor.
  - apply IH.
  - apply Forall_take, Hx.
Qed.

Lemma sorted_lookup (l : list A) (i j : nat) (x y : A) :
  StronglySorted key_le l -> i <= j ->
  l !! i = Some x -> l !! j = Some y -> key_le x y.
Proof.
  intros Hl. revert i j. induction Hl as [|z l Hl IH Hz]; intros i j Hij Hi Hj;
    [discriminate|].
  destruct i as [|i], j as [|j]; simpl in *; try lia.
  - injection Hi as <-. injection Hj as <-. unfold key_le. lia.
  - injection Hi as <-. rewrite Forall_forall in Hz. apply Hz.
    eapply list_elem_of_lookup_2, Hj.
  - apply (IH i j); [lia|assumption|assumption].
Qed.

End Sorting.

Section Dictionary.

Abbreviation assign :=
  (fun (dictionary : gmap string Z) '(idx, word) => <[word := Z.of_nat idx]> dictionary).

Lemma assign_other (ks : list string) (s : nat) (m : gmap string Z) (w : string) :
  w ∉ ks -> fold_left assign (zip (seq s (length ks)) ks) m !! w = m !! w.
Proof.
  revert s m. induction ks as [|k ks IH]; intros s m Hw; simpl; [reflexivity|].
  rewrite IH by (intros H; apply Hw; right; exact H).
  apply lookup_insert_ne. intros ->. apply Hw. left.
Qed.

Lemma assign_lookup (ks : list string) (s : nat) (m : gmap string Z) (w : string) (i : nat) :
  NoDup ks -> ks !! i = Some w ->
  fold_left assign (zip (seq s (length ks)) ks) m !! w = Some (Z.of_nat (s + i)).
Proof.
  revert s m i. induction ks as [|k ks IH]; intros s m i Hnd Hi; [discriminate|].
  apply NoDup_cons in Hnd as [Hk Hnd]. simpl. destruct i as [|i]; simpl in Hi.
  - injection Hi as ->. rewrite assign_other by exact Hk.
    rewrite lookup_insert_eq, Nat.add_0_r. reflexivity.
  - rewrite (IH (S s) _ i Hnd Hi). do 2 f_equal. lia.
Qed.

Lemma assign_size (ks : list string) (s : nat) (m : gmap string Z) :
  NoDup ks -> Forall (fun k => m !! k = None) ks ->
  size (fold_left assign (zip (seq s (length ks)) ks) m) = size m + length ks.
Proof.
  revert s m. induction ks as [|k ks IH]; intros s m Hnd Hm; simpl; [lia|].
  apply NoDup_cons in Hnd as [Hk Hnd]. apply Forall_cons in Hm as [Hmk Hm].
  rewrite IH.
  - rewrite map_size_insert_None by exact Hmk. lia.
  - exact Hnd.
  - rewrite Forall_forall in Hm |- *. intros k' Hk'.
    rewrite lookup_insert_ne; [apply Hm, Hk'|]. intros ->. contradiction.
Qed.

(** The dictionary is the enumeration of the first [vocab_size] items of the
    counter sorted by falling count. *)
Lemma build_dict_lookup (wc : dataloader.counter) (vocab_size : Z) (w : string) (i : Z) :
  NoDup (map fst wc) ->
  dataloader.build_dict wc vocab_size !! w = Some i <->
  exists j n, i = Z.of_nat j /\ j < Z.to_nat vocab_size /\
              dataloader.sorted_by dataloader.neg_count wc !! j = Some (w, n).
Proof.
  intros Hnd. unfold dataloader.build_dict, dataloader.most_common, dataloader.enumerate.
  set (srt := dataloader.sorted_by dataloader.neg_count wc).
  rewrite (sorted_by_id dataloader.neg_count (take _ srt))
    by apply sorted_take, sorted_by_sorted.
  set (tw := take (Z.to_nat vocab_size) srt).
  assert (Hks : NoDup (map fst tw)).
  { apply (sublist_NoDup (map fst tw) (map fst srt)).
    - unfold srt. rewrite sorted_by_Permutation. exact Hnd.
    - apply fmap_sublist, sublist_take. }
  split.
  - intros Hd. destruct (decide (w ∈ map fst tw)) as [Hin|Hout].
    + apply list_elem_of_lookup in Hin as [j Hj].
      rewrite (assign_lookup _ 0 ∅ w j Hks Hj) in Hd. injection Hd as <-.
      rewrite list_lookup_fmap in Hj.
      destruct (tw !! j) as [[w' n]|] eqn:Htw; [|discriminate].
      injection Hj as ->. unfold tw in Htw.
      apply lookup_take_Some in Htw as [Hsrt Hlt].
      exists j, n. auto.
    + rewrite assign_other in Hd by exact Hout. rewrite lookup_empty in Hd. discriminate.
  - intros (j & n & -> & Hlt & Hsrt).
    apply (assign_lookup _ 0 ∅ w j Hks).
    rewrite list_lookup_fmap. unfold tw. rewrite lookup_take_lt by exact Hlt.
    rewrite Hsrt. reflexivity.
Qed.

Lemma build_dict_size (wc : dataloader.counter) (vocab_size : Z) :
  NoDup (map fst wc) ->
  size (dataloader.build_dict wc vocab_size) = Nat.min (Z.to_nat vocab_size) (length wc).
Proof.
  intros Hnd. unfold dataloader.build_dict, dataloader.most_common, dataloader.enumerate.
  set (srt := dataloader.sorted_by dataloader.neg_count wc).
  rewrite (sorted_by_id dataloader.neg_count (take _ srt))
    by apply sorted_take, sorted_by_sorted.
  rewrite assign_size.
  - rewrite map_size_empty, length_map, length_take. unfold srt.
    rewrite (Permutation_length (sorted_by_Permutation _ wc)). reflexivity.
  - apply (sublist_NoDup _ (map fst srt)).
    + unfold srt. rewrite sorted_by_Permutation. exact Hnd.
    + apply fmap_sublist, sublist_take.
  - apply Forall_forall. intros k _. apply lookup_empty.
Qed.

End Dictionary.

Section Stability.
Context {A : Type} (key : A -> Z).

(** [insert_by] puts [x] behind the items of smaller key that lead the
    list. *)
Lemma insert_by_split (x : A) (l : list A) :
  exists l1 l2, l = l1 ++ l2 /\ dataloader.insert_by key x l = l1 ++ x :: l2 /\
                Forall (fun y => (key y < key x)%Z) l1.
Proof.
  induction l as [|y l (l1 & l2 & -> & Hins & Hl1)]; simpl.
  - exists [], []. auto.
  - destruct (Z.leb_spec (key x) (key y)) as [Hxy|Hxy].
    + exists [], (y :: l1 ++ l2). auto.
    + exists (y :: l1), l2. rewrite Hins. auto.
Qed.

(** A stable sort keeps [x] before [y] when the key of [x] is not the
    larger one. *)
Lemma sorted_by_stable (x y : A) (l : list A) :
  (key x <= key y)%Z ->
  (exists p q, l = p ++ q /\ x ∈ p /\ y ∈ q) ->
  exists p q, dataloader.sorted_by key l = p ++ q /\ x ∈ p /\ y ∈ q.
Proof.
  intros Hxy. induction l as [|a l IH]; intros (p & q & Hl & Hp & Hq).
  - destruct p; [inversion Hp|discriminate].
  - simpl. destruct (insert_by_split a (dataloader.sorted_by key l))
      as (l1 & l2 & Hsrt & -> & Hl1).
    destruct p as [|a' p]; [inversion Hp|]. injection Hl as <- ->.
    apply elem_of_cons in Hp as [->|Hp].
    + exists (l1 ++ [a]), l2. rewrite <- app_assoc. split; [reflexivity|].
      split; [apply elem_of_app; right; left|].
      assert (Hy : y ∈ l1 ++ l2).
      { rewrite <- Hsrt, sorted_by_Permutation. apply elem_of_app. right. exact Hq. }
      apply elem_of_app in Hy as [Hy|Hy]; [|exact Hy].
      rewrite Forall_forall in Hl1. specialize (Hl1 _ Hy). lia.
    + destruct IH as (p' & q' & Heq & Hp' & Hq'); [eauto|].
      rewrite Hsrt in Heq. apply app_eq_inv in Heq as [(k & -> & ->)|(k & -> & ->)].
      * exists p', (k ++ a :: l2). rewrite <- app_assoc. split; [reflexivity|].
        split; [exact Hp'|]. rewrite elem_of_app, elem_of_cons.
        apply elem_of_app in Hq' as [|]; auto.
      * exists (l1 ++ a :: k), q'. rewrite <- app_assoc. simpl. split; [reflexivity|].
        split; [|exact Hq']. rewrite elem_of_app, elem_of_cons.
        apply elem_of_app in Hp' as [|]; auto.
Qed.

Lemma split_lookup (x y : A) (l : list A) :
  (exists p q, l = p ++ q /\ x ∈ p /\ y ∈ q) ->
  exists i j, i < j /\ l !! i = Some x /\ l !! j = Some y.
Proof.
  intros (p & q & -> & Hp & Hq).
  apply list_elem_of_lookup in Hp as [i Hi]. apply list_elem_of_lookup in Hq as [j Hj].
  exists i, (length p + j). pose proof (lookup_lt_Some _ _ _ Hi).
  split; [lia|]. split.
  - rewrite lookup_app_l by lia. exact Hi.
  - rewrite lookup_app_r by lia. rewrite <- Hj. f_equal. lia.
Qed.

End Stability.

(** X20. The dictionary numbers the words it keeps from 0: for a counter
    (one entry per word) it holds [min(vocab_size, number of words)] words,
    none for a negative [vocab_size]; every index lies below that number,
    every number below it is the index of exactly one word, and every word
    kept is a word of the counter. *)
Theorem build_dict_ranks (word_counter : dataloader.counter) (vocab_size : Z) :
  NoDup (map fst word_counter) ->
  size (dataloader.build_dict word_counter vocab_size) =
    Nat.min (Z.to_nat vocab_size) (length word_counter) /\
  (forall w i, dataloader.build_dict word_counter vocab_size !! w = Some i ->
     (0 <= i < Z.of_nat (size (dataloader.build_dict word_counter vocab_size)))%Z /\
     w ∈ map fst word_counter) /\
  (forall i, (0 <= i < Z.of_nat (size (dataloader.build_dict word_counter vocab_size)))%Z ->
     exists w, dataloader.build_dict word_counter vocab_size !! w = Some i) /\
  (forall w1 w2 i, dataloader.build_dict word_counter vocab_size !! w1 = Some i ->
     dataloader.build_dict word_counter vocab_size !! w2 = Some i -> w1 = w2).
Proof.
  intros Hnd. pose proof (build_dict_size word_counter vocab_size Hnd) as Hsize.
  pose proof (sorted_by_Permutation dataloader.neg_count word_counter) as Hperm.
  split; [exact Hsize|]. rewrite Hsize. split; [|split].
  - intros w i Hd. apply (build_dict_lookup _ _ _ _ Hnd) in Hd as (j & n & -> & Hlt & Hj).
    pose proof (lookup_lt_Some _ _ _ Hj) as Hlen.
    rewrite (Permutation_length Hperm) in Hlen. split; [lia|].
    apply list_elem_of_fmap. exists (w, n). split; [reflexivity|].
    rewrite <- Hperm. eapply list_elem_of_lookup_2, Hj.
  - intros i Hi.
    destruct (lookup_lt_is_Some_2 (dataloader.sorted_by dataloader.neg_count word_counter)
                (Z.to_nat i)) as [[w n] Hj].
    { rewrite (Permutation_length Hperm). lia. }
    exists w. apply (build_dict_lookup _ _ _ _ Hnd). exists (Z.to_nat i), n.
    split; [lia|]. split; [lia|exact Hj].
  - intros w1 w2 i H1 H2.
    apply (build_dict_lookup _ _ _ _ Hnd) in H1 as (j1 & n1 & -> & _ & Hj1).
    apply (build_dict_lookup _ _ _ _ Hnd) in H2 as (j2 & n2 & Heq & _ & Hj2).
    apply Nat2Z.inj in Heq as ->. congruence.
Qed.

Lemma build_dict_ranks_witness :
  size (dataloader.build_dict counts_three 2) =
    Nat.min (Z.to_nat 2) (length counts_three) /\
  (forall w i, dataloader.build_dict counts_three 2 !! w = Some i ->
     (0 <= i < Z.of_nat (size (dataloader.build_dict counts_three 2)))%Z /\
     w ∈ map fst counts_three) /\
  (forall i, (0 <= i < Z.of_nat (size (dataloader.build_dict counts_three 2)))%Z ->
     exists w, dataloader.build_dict counts_three 2 !! w = Some i) /\
  (forall w1 w2 i, dataloader.build_dict counts_three 2 !! w1 = Some i ->
     dataloader.build_dict counts_three 2 !! w2 = Some i -> w1 = w2).
Proof.
  apply (build_dict_ranks counts_three 2).
  simpl. repeat constructor; rewrite ?elem_of_cons, ?elem_of_nil; intuition discriminate.
Defined.

(** X21. The dictionary follows the counts: of two words it keeps, the one
    with the smaller index is counted at least as often, and no word it
    leaves out is counted more often than a word it keeps. *)
Theorem build_dict_by_frequency (word_counter : dataloader.counter) (vocab_size : Z) :
  NoDup (map fst word_counter) ->
  (forall w1 w2 i1 i2,
     dataloader.build_dict word_counter vocab_size !! w1 = Some i1 ->
     dataloader.build_dict word_counter vocab_size !! w2 = Some i2 ->
     (i1 <= i2)%Z ->
     dataloader.count word_counter w2 <= dataloader.count word_counter w1) /\
  (forall w1 w2 i1,
     dataloader.build_dict word_counter vocab_size !! w1 = Some i1 ->
     dataloader.build_dict word_counter vocab_size !! w2 = None ->
     dataloader.count word_counter w2 <= dataloader.count word_counter w1).
Proof.
  intros Hnd.
  pose proof (sorted_by_Permutation dataloader.neg_count word_counter) as Hperm.
  pose proof (sorted_by_sorted dataloader.neg_count word_counter) as Hsorted.
  assert (Hcount : forall j w n,
            dataloader.sorted_by dataloader.neg_count word_counter !! j = Some (w, n) ->
            dataloader.count word_counter w = n).
  { intros j w n Hj. apply count_key; [exact Hnd|].
    rewrite <- Hperm. eapply list_elem_of_lookup_2, Hj. }
  split.
  - intros w1 w2 i1 i2 H1 H2 Hle.
    apply (build_dict_lookup _ _ _ _ Hnd) in H1 as (j1 & n1 & -> & _ & Hj1).
    apply (build_dict_lookup _ _ _ _ Hnd) in H2 as (j2 & n2 & -> & _ & Hj2).
    rewrite (Hcount _ _ _ Hj1), (Hcount _ _ _ Hj2).
    assert (Hkey : key_le dataloader.neg_count (w1, n1) (w2, n2)).
    { apply (sorted_lookup _ _ j1 j2 _ _ Hsorted); [lia|assumption|assumption]. }
    unfold key_le, dataloader.neg_count in Hkey. simpl in Hkey. lia.
  - intros w1 w2 i1 H1 H2.
    apply (build_dict_lookup _ _ _ _ Hnd) in H1 as (j1 & n1 & -> & Hlt & Hj1).
    destruct (decide (w2 ∈ map fst word_counter)) as [Hin|Hout];
      [|rewrite (count_zero _ _ Hout); lia].
    rewrite <- Hperm in Hin. apply list_elem_of_lookup in Hin as [j2 Hj2].
    rewrite list_lookup_fmap in Hj2.
    destruct (dataloader.sorted_by dataloader.neg_count word_counter !! j2)
      as [[w n2]|] eqn:Hsrt; [|discriminate].
    injection Hj2 as ->.
    rewrite (Hcount _ _ _ Hj1), (Hcount _ _ _ Hsrt).
    destruct (decide (j2 < Z.to_nat vocab_size)) as [Hin|Hout].
    { assert (Hd : dataloader.build_dict word_counter vocab_size !! w2 = Some (Z.of_nat j2)).
      { apply (build_dict_lookup _ _ _ _ Hnd). exists j2, n2. auto. }
      congruence. }
    assert (Hkey : key_le dataloader.neg_count (w1, n1) (w2, n2)).
    { apply (sorted_lookup _ _ j1 j2 _ _ Hsorted); [lia|assumption|assumption]. }
    unfold key_le, dataloader.neg_count in Hkey. simpl in Hkey. lia.
Qed.

Lemma build_dict_by_frequency_witness :
  (forall w1 w2 i1 i2,
     dataloader.build_dict counts_three 2 !! w1 = Some i1 ->
     dataloader.build_dict counts_three 2 !! w2 = Some i2 ->
     (i1 <= i2)%Z ->
     dataloader.count counts_three w2 <=
     dataloader.count counts_three w1) /\
  (forall w1 w2 i1,
     dataloader.build_dict counts_three 2 !! w1 = Some i1 ->
     dataloader.build_dict counts_three 2 !! w2 = None ->
     dataloader.count counts_three w2 <=
     dataloader.count counts_three w1).
Proof.
  apply (build_dict_by_frequency counts_three 2).
  simpl. repeat constructor; rewrite ?elem_of_cons, ?elem_of_nil; intuition discriminate.
Defined.

(** X22. Words of equal count keep the order in which they were first
    counted: when [w1] was counted before [w2] and as often, and the
    dictionary keeps [w2], it keeps [w1] too, with a smaller index. *)
Theorem build_dict_first_counted_first (word_counter : dataloader.counter) (vocab_size : Z)
        (l1 l2 l3 : dataloader.counter) (w1 w2 : string) (n : nat) (i2 : Z) :
  NoDup (map fst word_counter) ->
  word_counter = l1 ++ (w1, n) :: l2 ++ (w2, n) :: l3 ->
  dataloader.build_dict word_counter vocab_size !! w2 = Some i2 ->
  exists i1, dataloader.build_dict word_counter vocab_size !! w1 = Some i1 /\ (i1 < i2)%Z.
Proof.
  intros Hnd Hwc Hd.
  pose proof (sorted_by_Permutation dataloader.neg_count word_counter) as Hperm.
  destruct (split_lookup (w1, n) (w2, n)
              (dataloader.sorted_by dataloader.neg_count word_counter))
    as (j1 & j2 & Hlt & Hj1 & Hj2).
  { apply sorted_by_stable; [unfold dataloader.neg_count; simpl; lia|].
    exists (l1 ++ [(w1, n)]), (l2 ++ (w2, n) :: l3). rewrite Hwc, <- app_assoc.
    split; [reflexivity|]. rewrite !elem_of_app, !elem_of_cons. auto. }
  apply (build_dict_lookup _ _ _ _ Hnd) in Hd as (j & n' & -> & Hj & Hsrt).
  assert (j = j2) as ->.
  { assert (Hnd' : NoDup (map fst (dataloader.sorted_by dataloader.neg_count word_counter)))
      by (rewrite Hperm; exact Hnd).
    apply (NoDup_lookup _ j j2 w2 Hnd'); rewrite list_lookup_fmap.
    - rewrite Hsrt. reflexivity.
    - rewrite Hj2. reflexivity. }
  exists (Z.of_nat j1). split; [|lia].
  apply (build_dict_lookup _ _ _ _ Hnd). exists j1, n. split; [reflexivity|].
  split; [lia|exact Hj1].
Qed.

Lemma build_dict_first_counted_first_witness :
  exists i1, dataloader.build_dict counts_tie 3 !! "the" = Some i1 /\
             (i1 < 2)%Z.
Proof.
  apply (build_dict_first_counted_first counts_tie 3
           [] [("cat", 3)] [] "the" "sat" 2 2).
  - simpl. repeat constructor; rewrite ?elem_of_cons, ?elem_of_nil; intuition discriminate.
  - reflexivity.
  - vm_compute. reflexivity.
Defined.

(** ** From the book to the word array *)

Section WordArray.

Lemma array_int32_ok (l : list Z) :
  Forall (fun v => (0 <= v < 2 ^ 31)%Z) l -> dataloader.array_int32 l = dataloader.Array l.
Proof.
  intros Hl. unfold dataloader.array_int32.
  replace (forallb dataloader.is_int32 l) with true; [reflexivity|].
  symmetry. apply forallb_forall. intros v Hv. apply list_elem_of_In in Hv.
  rewrite Forall_forall in Hl. specialize (Hl v Hv).
  unfold dataloader.is_int32. apply andb_true_iff.
  split; [apply Z.leb_le|apply Z.ltb_lt]; lia.
Qed.

Lemma build_dict_range (wc : dataloader.counter) (vocab_size : Z) (w : string) (i : Z) :
  NoDup (map fst wc) -> dataloader.build_dict wc vocab_size !! w = Some i ->
  (0 <= i < Z.of_nat (size (dataloader.build_dict wc vocab_size)))%Z.
Proof.
  intros Hnd Hd. rewrite (build_dict_size wc vocab_size Hnd).
  apply (build_dict_lookup _ _ _ _ Hnd) in Hd as (j & n & -> & Hlt & Hj).
  pose proof (lookup_lt_Some _ _ _ Hj) as Hlen.
  rewrite (Permutation_length (sorted_by_Permutation _ wc)) in Hlen. lia.
Qed.

Lemma build_dict_injective (wc : dataloader.counter) (vocab_size : Z) (w1 w2 : string) (i : Z) :
  NoDup (map fst wc) ->
  dataloader.build_dict wc vocab_size !! w1 = Some i ->
  dataloader.build_dict wc vocab_size !! w2 = Some i -> w1 = w2.
Proof.
  intros Hnd H1 H2.
  apply (build_dict_lookup _ _ _ _ Hnd) in H1 as (j1 & n1 & -> & _ & Hj1).
  apply (build_dict_lookup _ _ _ _ Hnd) in H2 as (j2 & n2 & Heq & _ & Hj2).
  apply Nat2Z.inj in Heq as ->. congruence.
Qed.

End WordArray.

(** X23. [build_word_array] composes the three steps.  For a vocabulary
    size below [2^31] it succeeds on every file; the word array has one code
    per word read, in the order of the text; the code of a word of the
    dictionary is its index, the code of any other word is the size of the
    dictionary, which is no index; so equal codes below the size stand for
    equal words. *)
Theorem build_word_array_codes (is_word : Ascii.ascii -> bool) (lower : string -> string)
        (lines : list string) (vocab_size : Z) :
  (vocab_size < 2 ^ 31)%Z ->
  exists word_counter word_list num_lines num_words word_array,
    dataloader.load_books is_word lower lines =
      (word_counter, word_list, num_lines, num_words) /\
    dataloader.build_word_array is_word lower lines vocab_size =
      dataloader.Array
        (word_array, dataloader.build_dict word_counter vocab_size, num_lines, num_words) /\
    length word_array = num_words /\
    (forall i w, word_list !! i = Some w ->
       exists c, word_array !! i = Some c /\
         (0 <= c <= Z.of_nat (size (dataloader.build_dict word_counter vocab_size)))%Z /\
         (dataloader.build_dict word_counter vocab_size !! w = None <->
          c = Z.of_nat (size (dataloader.build_dict word_counter vocab_size))) /\
         ((c < Z.of_nat (size (dataloader.build_dict word_counter vocab_size)))%Z ->
          dataloader.build_dict word_counter vocab_size !! w = Some c)) /\
    (forall i j c, word_array !! i = Some c -> word_array !! j = Some c ->
       (c < Z.of_nat (size (dataloader.build_dict word_counter vocab_size)))%Z ->
       word_list !! i = word_list !! j).
Proof.
  intros Hvs.
  destruct (read_lines_consistent is_word lower lines (dataloader.Reading [] [] 0 0 false))
    as [(Hnw & Hnd & _) _].
  { unfold consistent. simpl. repeat split; constructor. }
  set (st := dataloader.read_lines is_word lower lines (dataloader.Reading [] [] 0 0 false))
    in *.
  set (wc := dataloader.word_counter st) in *. set (wl := dataloader.word_list st) in *.
  assert (Hload : dataloader.load_books is_word lower lines =
                  (wc, wl, dataloader.num_lines st, dataloader.num_words st)) by reflexivity.
  set (d := dataloader.build_dict wc vocab_size).
  pose proof (build_dict_size wc vocab_size Hnd) as Hsize.
  pose proof (fun w i => build_dict_range wc vocab_size w i Hnd) as Hrange.
  fold d in Hsize, Hrange.
  set (code := fun word : string => default (Z.of_nat (size d)) (d !! word)).
  assert (Hcode : forall w, (0 <= code w <= Z.of_nat (size d))%Z /\
                            (d !! w = None <-> code w = Z.of_nat (size d)) /\
                            ((code w < Z.of_nat (size d))%Z -> d !! w = Some (code w))).
  { intros w. unfold code. destruct (d !! w) as [i|] eqn:Hw; simpl.
    - specialize (Hrange w i Hw). split; [lia|]. split; [|reflexivity].
      split; [discriminate|lia].
    - split; [lia|]. split; [tauto|lia]. }
  exists wc, wl, (dataloader.num_lines st), (dataloader.num_words st), (map code wl). split; [exact Hload|]. split; [|split; [|split]].
  - unfold dataloader.build_word_array. rewrite Hload. fold d.
    unfold dataloader.doc2num. fold code. rewrite array_int32_ok; [reflexivity|].
    apply Forall_forall. intros c Hc. apply list_elem_of_fmap in Hc as (w & -> & _).
    destruct (Hcode w) as [Hc _]. lia.
  - rewrite length_map. symmetry. exact Hnw.
  - intros i w Hw. exists (code w). rewrite list_lookup_fmap, Hw.
    split; [reflexivity|]. apply Hcode.
  - intros i j c Hi Hj Hc. rewrite list_lookup_fmap in Hi, Hj.
    destruct (wl !! i) as [wi|] eqn:Hwi; [|discriminate].
    destruct (wl !! j) as [wj|] eqn:Hwj; [|discriminate].
    simpl in Hi, Hj. injection Hi as Hi. injection Hj as Hj.
    destruct (Hcode wi) as (_ & _ & Hdi). destruct (Hcode wj) as (_ & _ & Hdj).
    rewrite Hi in Hdi. rewrite Hj in Hdj. specialize (Hdi Hc). specialize (Hdj Hc).
    f_equal. exact (build_dict_injective wc vocab_size wi wj c Hnd Hdi Hdj).
Qed.

Lemma build_word_array_codes_witness :
  exists word_counter word_list num_lines num_words word_array,
    dataloader.load_books dataloader.ascii_is_word dataloader.ascii_lower book =
      (word_counter, word_list, num_lines, num_words) /\
    dataloader.build_word_array dataloader.ascii_is_word dataloader.ascii_lower book 5 =
      dataloader.Array
        (word_array, dataloader.build_dict word_counter 5, num_lines, num_words) /\
    length word_array = num_words /\
    (forall i w, word_list !! i = Some w ->
       exists c, word_array !! i = Some c /\
         (0 <= c <= Z.of_nat (size (dataloader.build_dict word_counter 5)))%Z /\
         (dataloader.build_dict word_counter 5 !! w = None <->
          c = Z.of_nat (size (dataloader.build_dict word_counter 5))) /\
         ((c < Z.of_nat (size (dataloader.build_dict word_counter 5)))%Z ->
          dataloader.build_dict word_counter 5 !! w = Some c)) /\
    (forall i j c, word_array !! i = Some c -> word_array !! j = Some c ->
       (c < Z.of_nat (size (dataloader.build_dict word_counter 5)))%Z ->
       word_list !! i = word_list !! j).
Proof.
  apply (build_word_array_codes dataloader.ascii_is_word dataloader.ascii_lower book 5).
  lia.
Defined.
